(** * Coastal adaptation agent-based model: embedding and verification

    Shallow embedding of [AdaptationModel.py] (classes [AdaptationModel] and
    [Household]) together with the two library behaviours it relies on (the
    [SimultaneousActivation] scheduler and the [SingleGrid] cell store).

    Modelling conventions.
    - Python floats are modelled as exact rationals ([Q]); float comparison
      [==] is [Qeq_bool].  Rounding is not modelled.
    - Python ints are [Z]; agent identifiers are [nat].
    - A Python exception (ZeroDivisionError, "Cell not empty", unpacking a
      missing position, ...) is the result [None].
    - [Household] objects are shared by reference between [agent_list],
      [schedule.agents], the grid cells and the [connections] lists.  The
      list [agent_list] doubles as the object store: the object created i-th
      lives at index i, and a reference is an index into [agent_list].
    - Random draws are inputs: every function that calls the random module
      receives the values drawn; [math.log] of a draw is an input as well.
    - The scheduler keeps its agents in a plain list ([schedule.agents]),
      stepped in list order, and the grid is a table of cells that hold one
      household or nothing. *)

From Stdlib Require Import QArith Qminmax Lqa ZArith Lia List Permutation.
From stdpp Require Import base option list gmap strings.

Open Scope Q_scope.

(** ** Python arithmetic *)

Definition Qlt_bool (a b : Q) : bool := negb (Qle_bool b a).

Notation "a <? b" := (Qlt_bool a b) (at level 70, no associativity) : Q_scope.
Notation "a <=? b" := (Qle_bool a b) (at level 70, no associativity) : Q_scope.
Notation "a =? b" := (Qeq_bool a b) (at level 70, no associativity) : Q_scope.

(** True division [a / b]: raises ZeroDivisionError when [b == 0]. *)
Definition pydiv (a b : Q) : option Q :=
  if b =? 0 then None else Some (a / b).

(** [divmod(a, b)] on ints: floor division and the matching remainder. *)
Definition pydivmod (a b : Z) : option (Z * Z) :=
  if (b =? 0)%Z then None else Some ((a / b)%Z, (a mod b)%Z).

(** A [for] loop whose body may raise. *)
Fixpoint foldM {S A : Type} (f : S → A → option S) (l : list A) (s : S) : option S :=
  match l with
  | [] => Some s
  | a :: l' => s' ← f s a; foldM f l' s'
  end.

(** [list.remove(v)]: drops the first occurrence. *)
Fixpoint remove_first (v : nat) (l : list nat) : list nat :=
  match l with
  | [] => []
  | w :: l' => if Nat.eqb w v then l' else w :: remove_first v l'
  end.

(** The interaction curve used for both [p_adapt] and [p_action]. *)
Definition action_curve (d i : Q) : Q :=
  0.09 * d + 1.8 * i - 0.18 * d * i + 0.1.

(** ** Data model *)

Record Household := {
  unique_id : nat;
  x : Z;
  y : Z;
  pos : option (Z * Z);
  connections : list nat;
  elevation : Q;
  adaptive_capacity : Q;
  resistance : Q;
  accommodation : Q;
  p_action : Q;
  p_resist : Q;
  p_accommodate : Q;
  p_retreat : Q;
  flood_damage : Q;
  attachment : Q;
  relative_elevation : Q;
  inundation : Q;
  retreated : bool
}.

(** One row of the model-level data collector. *)
Record ModelVars := {
  MSL : Q;
  Surge : Q;
  Population : Z;
  Accommodation : Z;
  Retreat : Z;
  p_Adapt : Q
}.

(** The model object; [tick] is the module-level counter of the source. *)
Record Model := {
  num_agents : Z;
  width : Z;
  height : Z;
  slr_acceleration : Q;
  network_mode : string;
  network_parameter : Q;
  schedule : list nat;
  grid : gmap (Z * Z) nat;
  sea_level : Q;
  storm_surge : Q;
  community_resistance : Z;
  accommodation_incentive : Z;
  retreat_incentive : Z;
  p_adapt : Q;
  agent_list : list Household;
  tick : Z;
  datacollector : list ModelVars
}.

Definition init_slr_increase : Q := 0.007.

(** The random values consumed by one call of [AdaptationModel.step]. *)
Record Draws := {
  surge_log : Q;            (* math.log(2*aep) in calculate_storm_surge *)
  adapt_x : Q;              (* first draw of community_adaptation *)
  decay_accommodation : Q;  (* draw guarding the accommodation decrement *)
  decay_retreat : Q;        (* draw guarding the retreat decrement *)
  capacity_noise : nat → Q; (* normalvariate(0, 0.1), per agent *)
  decide_x : nat → Q        (* uniform(0, 1) of make_decision, per agent *)
}.

(** ** Attribute assignment *)

Definition set_pos (v : option (Z * Z)) (a : Household) : Household :=
  {| unique_id := unique_id a; x := x a; y := y a; pos := v; connections := connections a;
     elevation := elevation a; adaptive_capacity := adaptive_capacity a;
     resistance := resistance a; accommodation := accommodation a; p_action := p_action a;
     p_resist := p_resist a; p_accommodate := p_accommodate a; p_retreat := p_retreat a;
     flood_damage := flood_damage a; attachment := attachment a;
     relative_elevation := relative_elevation a; inundation := inundation a;
     retreated := retreated a |}.

Definition set_connections (v : list nat) (a : Household) : Household :=
  {| unique_id := unique_id a; x := x a; y := y a; pos := pos a; connections := v;
     elevation := elevation a; adaptive_capacity := adaptive_capacity a;
     resistance := resistance a; accommodation := accommodation a; p_action := p_action a;
     p_resist := p_resist a; p_accommodate := p_accommodate a; p_retreat := p_retreat a;
     flood_damage := flood_damage a; attachment := attachment a;
     relative_elevation := relative_elevation a; inundation := inundation a;
     retreated := retreated a |}.

Definition set_adaptive_capacity (v : Q) (a : Household) : Household :=
  {| unique_id := unique_id a; x := x a; y := y a; pos := pos a; connections := connections a;
     elevation := elevation a; adaptive_capacity := v; resistance := resistance a;
     accommodation := accommodation a; p_action := p_action a; p_resist := p_resist a;
     p_accommodate := p_accommodate a; p_retreat := p_retreat a;
     flood_damage := flood_damage a; attachment := attachment a;
     relative_elevation := relative_elevation a; inundation := inundation a;
     retreated := retreated a |}.

Definition set_resistance (v : Q) (a : Household) : Household :=
  {| unique_id := unique_id a; x := x a; y := y a; pos := pos a; connections := connections a;
     elevation := elevation a; adaptive_capacity := adaptive_capacity a; resistance := v;
     accommodation := accommodation a; p_action := p_action a; p_resist := p_resist a;
     p_accommodate := p_accommodate a; p_retreat := p_retreat a;
     flood_damage := flood_damage a; attachment := attachment a;
     relative_elevation := relative_elevation a; inundation := inundation a;
     retreated := retreated a |}.

Definition set_accommodation (v : Q) (a : Household) : Household :=
  {| unique_id := unique_id a; x := x a; y := y a; pos := pos a; connections := connections a;
     elevation := elevation a; adaptive_capacity := adaptive_capacity a;
     resistance := resistance a; accommodation := v; p_action := p_action a;
     p_resist := p_resist a; p_accommodate := p_accommodate a; p_retreat := p_retreat a;
     flood_damage := flood_damage a; attachment := attachment a;
     relative_elevation := relative_elevation a; inundation := inundation a;
     retreated := retreated a |}.

Definition set_p_action (v : Q) (a : Household) : Household :=
  {| unique_id := unique_id a; x := x a; y := y a; pos := pos a; connections := connections a;
     elevation := elevation a; adaptive_capacity := adaptive_capacity a;
     resistance := resistance a; accommodation := accommodation a; p_action := v;
     p_resist := p_resist a; p_accommodate := p_accommodate a; p_retreat := p_retreat a;
     flood_damage := flood_damage a; attachment := attachment a;
     relative_elevation := relative_elevation a; inundation := inundation a;
     retreated := retreated a |}.

Definition set_p_resist (v : Q) (a : Household) : Household :=
  {| unique_id := unique_id a; x := x a; y := y a; pos := pos a; connections := connections a;
     elevation := elevation a; adaptive_capacity := adaptive_capacity a;
     resistance := resistance a; accommodation := accommodation a; p_action := p_action a;
     p_resist := v; p_accommodate := p_accommodate a; p_retreat := p_retreat a;
     flood_damage := flood_damage a; attachment := attachment a;
     relative_elevation := relative_elevation a; inundation := inundation a;
     retreated := retreated a |}.

Definition set_p_accommodate (v : Q) (a : Household) : Household :=
  {| unique_id := unique_id a; x := x a; y := y a; pos := pos a; connections := connections a;
     elevation := elevation a; adaptive_capacity := adaptive_capacity a;
     resistance := resistance a; accommodation := accommodation a; p_action := p_action a;
     p_resist := p_resist a; p_accommodate := v; p_retreat := p_retreat a;
     flood_damage := flood_damage a; attachment := attachment a;
     relative_elevation := relative_elevation a; inundation := inundation a;
     retreated := retreated a |}.

Definition set_p_retreat (v : Q) (a : Household) : Household :=
  {| unique_id := unique_id a; x := x a; y := y a; pos := pos a; connections := connections a;
     elevation := elevation a; adaptive_capacity := adaptive_capacity a;
     resistance := resistance a; accommodation := accommodation a; p_action := p_action a;
     p_resist := p_resist a; p_accommodate := p_accommodate a; p_retreat := v;
     flood_damage := flood_damage a; attachment := attachment a;
     relative_elevation := relative_elevation a; inundation := inundation a;
     retreated := retreated a |}.

Definition set_flood_damage (v : Q) (a : Household) : Household :=
  {| unique_id := unique_id a; x := x a; y := y a; pos := pos a; connections := connections a;
     elevation := elevation a; adaptive_capacity := adaptive_capacity a;
     resistance := resistance a; accommodation := accommodation a; p_action := p_action a;
     p_resist := p_resist a; p_accommodate := p_accommodate a; p_retreat := p_retreat a;
     flood_damage := v; attachment := attachment a; relative_elevation := relative_elevation a;
     inundation := inundation a; retreated := retreated a |}.

Definition set_attachment (v : Q) (a : Household) : Household :=
  {| unique_id := unique_id a; x := x a; y := y a; pos := pos a; connections := connections a;
     elevation := elevation a; adaptive_capacity := adaptive_capacity a;
     resistance := resistance a; accommodation := accommodation a; p_action := p_action a;
     p_resist := p_resist a; p_accommodate := p_accommodate a; p_retreat := p_retreat a;
     flood_damage := flood_damage a; attachment := v;
     relative_elevation := relative_elevation a; inundation := inundation a;
     retreated := retreated a |}.

Definition set_relative_elevation (v : Q) (a : Household) : Household :=
  {| unique_id := unique_id a; x := x a; y := y a; pos := pos a; connections := connections a;
     elevation := elevation a; adaptive_capacity := adaptive_capacity a;
     resistance := resistance a; accommodation := accommodation a; p_action := p_action a;
     p_resist := p_resist a; p_accommodate := p_accommodate a; p_retreat := p_retreat a;
     flood_damage := flood_damage a; attachment := attachment a; relative_elevation := v;
     inundation := inundation a; retreated := retreated a |}.

Definition set_inundation (v : Q) (a : Household) : Household :=
  {| unique_id := unique_id a; x := x a; y := y a; pos := pos a; connections := connections a;
     elevation := elevation a; adaptive_capacity := adaptive_capacity a;
     resistance := resistance a; accommodation := accommodation a; p_action := p_action a;
     p_resist := p_resist a; p_accommodate := p_accommodate a; p_retreat := p_retreat a;
     flood_damage := flood_damage a; attachment := attachment a;
     relative_elevation := relative_elevation a; inundation := v; retreated := retreated a |}.

Definition set_retreated (v : bool) (a : Household) : Household :=
  {| unique_id := unique_id a; x := x a; y := y a; pos := pos a; connections := connections a;
     elevation := elevation a; adaptive_capacity := adaptive_capacity a;
     resistance := resistance a; accommodation := accommodation a; p_action := p_action a;
     p_resist := p_resist a; p_accommodate := p_accommodate a; p_retreat := p_retreat a;
     flood_damage := flood_damage a; attachment := attachment a;
     relative_elevation := relative_elevation a; inundation := inundation a; retreated := v |}.

Definition set_num_agents (v : Z) (m : Model) : Model :=
  {| num_agents := v; width := width m; height := height m;
     slr_acceleration := slr_acceleration m; network_mode := network_mode m;
     network_parameter := network_parameter m; schedule := schedule m; grid := grid m;
     sea_level := sea_level m; storm_surge := storm_surge m;
     community_resistance := community_resistance m;
     accommodation_incentive := accommodation_incentive m;
     retreat_incentive := retreat_incentive m; p_adapt := p_adapt m;
     agent_list := agent_list m; tick := tick m; datacollector := datacollector m |}.

Definition set_schedule (v : list nat) (m : Model) : Model :=
  {| num_agents := num_agents m; width := width m; height := height m;
     slr_acceleration := slr_acceleration m; network_mode := network_mode m;
     network_parameter := network_parameter m; schedule := v; grid := grid m;
     sea_level := sea_level m; storm_surge := storm_surge m;
     community_resistance := community_resistance m;
     accommodation_incentive := accommodation_incentive m;
     retreat_incentive := retreat_incentive m; p_adapt := p_adapt m;
     agent_list := agent_list m; tick := tick m; datacollector := datacollector m |}.

Definition set_grid (v : gmap (Z * Z) nat) (m : Model) : Model :=
  {| num_agents := num_agents m; width := width m; height := height m;
     slr_acceleration := slr_acceleration m; network_mode := network_mode m;
     network_parameter := network_parameter m; schedule := schedule m; grid := v;
     sea_level := sea_level m; storm_surge := storm_surge m;
     community_resistance := community_resistance m;
     accommodation_incentive := accommodation_incentive m;
     retreat_incentive := retreat_incentive m; p_adapt := p_adapt m;
     agent_list := agent_list m; tick := tick m; datacollector := datacollector m |}.

Definition set_sea_level (v : Q) (m : Model) : Model :=
  {| num_agents := num_agents m; width := width m; height := height m;
     slr_acceleration := slr_acceleration m; network_mode := network_mode m;
     network_parameter := network_parameter m; schedule := schedule m; grid := grid m;
     sea_level := v; storm_surge := storm_surge m;
     community_resistance := community_resistance m;
     accommodation_incentive := accommodation_incentive m;
     retreat_incentive := retreat_incentive m; p_adapt := p_adapt m;
     agent_list := agent_list m; tick := tick m; datacollector := datacollector m |}.

Definition set_storm_surge (v : Q) (m : Model) : Model :=
  {| num_agents := num_agents m; width := width m; height := height m;
     slr_acceleration := slr_acceleration m; network_mode := network_mode m;
     network_parameter := network_parameter m; schedule := schedule m; grid := grid m;
     sea_level := sea_level m; storm_surge := v;
     community_resistance := community_resistance m;
     accommodation_incentive := accommodation_incentive m;
     retreat_incentive := retreat_incentive m; p_adapt := p_adapt m;
     agent_list := agent_list m; tick := tick m; datacollector := datacollector m |}.

Definition set_community_resistance (v : Z) (m : Model) : Model :=
  {| num_agents := num_agents m; width := width m; height := height m;
     slr_acceleration := slr_acceleration m; network_mode := network_mode m;
     network_parameter := network_parameter m; schedule := schedule m; grid := grid m;
     sea_level := sea_level m; storm_surge := storm_surge m; community_resistance := v;
     accommodation_incentive := accommodation_incentive m;
     retreat_incentive := retreat_incentive m; p_adapt := p_adapt m;
     agent_list := agent_list m; tick := tick m; datacollector := datacollector m |}.

Definition set_accommodation_incentive (v : Z) (m : Model) : Model :=
  {| num_agents := num_agents m; width := width m; height := height m;
     slr_acceleration := slr_acceleration m; network_mode := network_mode m;
     network_parameter := network_parameter m; schedule := schedule m; grid := grid m;
     sea_level := sea_level m; storm_surge := storm_surge m;
     community_resistance := community_resistance m; accommodation_incentive := v;
     retreat_incentive := retreat_incentive m; p_adapt := p_adapt m;
     agent_list := agent_list m; tick := tick m; datacollector := datacollector m |}.

Definition set_retreat_incentive (v : Z) (m : Model) : Model :=
  {| num_agents := num_agents m; width := width m; height := height m;
     slr_acceleration := slr_acceleration m; network_mode := network_mode m;
     network_parameter := network_parameter m; schedule := schedule m; grid := grid m;
     sea_level := sea_level m; storm_surge := storm_surge m;
     community_resistance := community_resistance m;
     accommodation_incentive := accommodation_incentive m; retreat_incentive := v;
     p_adapt := p_adapt m; agent_list := agent_list m; tick := tick m;
     datacollector := datacollector m |}.

Definition set_p_adapt (v : Q) (m : Model) : Model :=
  {| num_agents := num_agents m; width := width m; height := height m;
     slr_acceleration := slr_acceleration m; network_mode := network_mode m;
     network_parameter := network_parameter m; schedule := schedule m; grid := grid m;
     sea_level := sea_level m; storm_surge := storm_surge m;
     community_resistance := community_resistance m;
     accommodation_incentive := accommodation_incentive m;
     retreat_incentive := retreat_incentive m; p_adapt := v; agent_list := agent_list m;
     tick := tick m; datacollector := datacollector m |}.

Definition set_agent_list (v : list Household) (m : Model) : Model :=
  {| num_agents := num_agents m; width := width m; height := height m;
     slr_acceleration := slr_acceleration m; network_mode := network_mode m;
     network_parameter := network_parameter m; schedule := schedule m; grid := grid m;
     sea_level := sea_level m; storm_surge := storm_surge m;
     community_resistance := community_resistance m;
     accommodation_incentive := accommodation_incentive m;
     retreat_incentive := retreat_incentive m; p_adapt := p_adapt m; agent_list := v;
     tick := tick m; datacollector := datacollector m |}.

Definition set_tick (v : Z) (m : Model) : Model :=
  {| num_agents := num_agents m; width := width m; height := height m;
     slr_acceleration := slr_acceleration m; network_mode := network_mode m;
     network_parameter := network_parameter m; schedule := schedule m; grid := grid m;
     sea_level := sea_level m; storm_surge := storm_surge m;
     community_resistance := community_resistance m;
     accommodation_incentive := accommodation_incentive m;
     retreat_incentive := retreat_incentive m; p_adapt := p_adapt m;
     agent_list := agent_list m; tick := v; datacollector := datacollector m |}.

Definition set_datacollector (v : list ModelVars) (m : Model) : Model :=
  {| num_agents := num_agents m; width := width m; height := height m;
     slr_acceleration := slr_acceleration m; network_mode := network_mode m;
     network_parameter := network_parameter m; schedule := schedule m; grid := grid m;
     sea_level := sea_level m; storm_surge := storm_surge m;
     community_resistance := community_resistance m;
     accommodation_incentive := accommodation_incentive m;
     retreat_incentive := retreat_incentive m; p_adapt := p_adapt m;
     agent_list := agent_list m; tick := tick m; datacollector := v |}.

(** ** Household *)

Definition Household_init (uid : nat) (model_width gx gy : Z) (capacity : Q) : option Household :=
  e ← pydiv (inject_Z gx) (inject_Z model_width);
  Some {| unique_id := uid; x := gx; y := gy; pos := None; connections := [];
          elevation := e * 10; adaptive_capacity := capacity;
          resistance := 0; accommodation := 0; p_action := 0;
          p_resist := 0.6; p_accommodate := 0.3; p_retreat := 0.1;
          flood_damage := 0; attachment := 1; relative_elevation := e * 10;
          inundation := 0; retreated := false |}.

(** The counting loop of [calculate_attachment]: (retreated, remaining). *)
Definition connection_counts (store : list Household) (l : list nat) : option (Z * Z) :=
  foldM (fun c j =>
           b ← store !! j;
           Some (if retreated b then (c.1 + 1, c.2)%Z else (c.1, c.2 + 1)%Z))
        l (0, 0)%Z.

Definition calculate_attachment (store : list Household) (a : Household) : option Household :=
  c ← connection_counts store (connections a);
  if (0 <? c.1 + c.2)%Z then
    v ← pydiv (inject_Z c.2) (inject_Z (c.1 + c.2));
    Some (set_attachment v a)
  else Some (set_attachment 0 a).

Definition apply_inundation (m : Model) (a : Household) : Household :=
  let a := set_relative_elevation (elevation a - sea_level m) a in
  let resistance_level := Qmax (resistance a) (inject_Z (community_resistance m)) in
  set_inundation (- (relative_elevation a + resistance_level + accommodation a)) a.

Definition apply_damage (m : Model) (a : Household) : Household :=
  let a := set_flood_damage (flood_damage a * 0.9) a in
  if 0 <? storm_surge m then
    let flood_height := Qmax 0 (storm_surge m + inundation a) in
    set_flood_damage (flood_height * (1 - accommodation a * 0.05)) a
  else a.

Definition calculate_adaptive_capacity (noise : Q) (a : Household) : Household :=
  set_adaptive_capacity (adaptive_capacity a + noise) a.

Definition Household_step (m : Model) (noise : Q) (a : Household) : option Household :=
  let a := calculate_adaptive_capacity noise a in
  a ← calculate_attachment (agent_list m) a;
  let a := apply_inundation m a in
  Some (apply_damage m a).

(** The escalation ladder written out twice in [make_decision]. *)
Definition escalate (level : Q) : Q :=
  if level =? 0 then 1 else if level =? 1 then 1.5 else 2.

(** [make_decision], first half: [p_action] and the raw weights. *)
Definition decision_weights (m : Model) (a : Household) : option Household :=
  let d := Qmin (flood_damage a) 10 in
  let i := Qmin 1 (Qmax (inundation a) 0) in
  let a := set_p_action (action_curve d i) a in
  let a := if (2 <=? resistance a) || (adaptive_capacity a <=? 0)
           then set_p_resist 0 a else a in
  let a := if (accommodation a <? 2)
              && (-0.1 * (inject_Z (accommodation_incentive m) - 1) <? adaptive_capacity a)
           then set_p_accommodate (p_accommodate a * inject_Z (accommodation_incentive m)) a
           else set_p_accommodate 0 a in
  if -0.1 * (inject_Z (retreat_incentive m) - 1) <? adaptive_capacity a then
    if negb (attachment a =? 0) then
      v ← pydiv (p_retreat a * inject_Z (retreat_incentive m)) (attachment a);
      Some (set_p_retreat v a)
    else Some (set_p_retreat (p_retreat a * inject_Z (retreat_incentive m)) a)
  else Some (set_p_retreat 0 a).

(** The search through [model.schedule.agents] for the agent's own id. *)
Definition in_roster (m : Model) (uid : nat) : option bool :=
  foldM (fun found j => b ← agent_list m !! j; Some (found || Nat.eqb (unique_id b) uid))
        (schedule m) false.

(** [make_decision], the three normalising assignments, in source order:
    each denominator is evaluated when its own assignment runs. *)
Definition normalise_weights (a : Household) : option Household :=
  v ← pydiv (p_resist a) (p_resist a + p_accommodate a + p_retreat a);
  let a := set_p_resist (v * p_action a) a in
  v ← pydiv (p_accommodate a) (p_resist a + p_accommodate a + p_retreat a);
  let a := set_p_accommodate (v * p_action a) a in
  v ← pydiv (p_retreat a) (p_resist a + p_accommodate a + p_retreat a);
  Some (set_p_retreat (v * p_action a) a).

(** [make_decision], the if/elif chain on the draw [u]. *)
Definition take_action (m : Model) (u : Q) (a : Household) : option Household :=
  if u <? p_resist a then
    Some (set_resistance (escalate (resistance a)) a)
  else if u <? p_resist a + p_accommodate a then
    Some (set_accommodation (escalate (accommodation a)) a)
  else if u <? p_action a then
    found ← in_roster m (unique_id a);
    Some (if found : bool then set_retreated true a else a)
  else Some a.

(** [make_decision], second half: the guard on the weight sum. *)
Definition decision_commit (m : Model) (u : Q) (a : Household) : option Household :=
  if negb (p_resist a + p_accommodate a + p_retreat a =? 0) then
    a ← normalise_weights a;
    take_action m u a
  else Some a.

Definition make_decision (m : Model) (u : Q) (a : Household) : option Household :=
  a ← decision_weights m a;
  decision_commit m u a.

(** ** AdaptationModel *)

Definition calculate_inundation (m : Model) : Model :=
  set_sea_level (init_slr_increase * inject_Z (tick m)
                 + slr_acceleration m * inject_Z (tick m ^ 2)) m.

(** [log_2aep] stands for [math.log(2*aep)] of the uniform draw [aep]. *)
Definition calculate_storm_surge (log_2aep : Q) (m : Model) : Model :=
  set_storm_surge (Qmax 0 (- log_2aep / 1.164)) m.

(** The summing loop of [community_adaptation]: (total_damage, total_inundation). *)
Definition roster_totals (m : Model) : option (Q * Q) :=
  foldM (fun t i => a ← agent_list m !! i;
                    Some (t.1 + flood_damage a, t.2 + inundation a))
        (schedule m) (0, 0).

(** The if/elif chain of [community_adaptation] on the draw [u]. *)
Definition adaptation_staircase (u : Q) (m : Model) : Model :=
  if (community_resistance m <? 3)%Z then
    if u <? p_adapt m * 0.6 then
      set_community_resistance (community_resistance m + 1) m
    else if u <? p_adapt m * 0.3 then
      set_accommodation_incentive (accommodation_incentive m + 1) m
    else if u <? p_adapt m then
      set_retreat_incentive (retreat_incentive m + 1) m
    else m
  else
    if u <? p_adapt m * 0.7 then
      set_accommodation_incentive (accommodation_incentive m + 1) m
    else if u <? p_adapt m then
      set_retreat_incentive (retreat_incentive m + 1) m
    else m.

(** The two closing decrements of [community_adaptation]. *)
Definition incentive_decay (u1 u2 : Q) (m : Model) : Model :=
  let m := if u1 <? 0.1
           then set_accommodation_incentive (Z.max 1 (accommodation_incentive m - 1)) m
           else m in
  if u2 <? 0.1
  then set_retreat_incentive (Z.max 1 (retreat_incentive m - 1)) m
  else m.

Definition community_adaptation (u u1 u2 : Q) (m : Model) : option Model :=
  t ← roster_totals m;
  if (0 <? num_agents m)%Z then
    q ← pydiv t.1 (inject_Z (num_agents m));
    let average_damage := Qmin 10 q in
    q ← pydiv t.2 (inject_Z (num_agents m));
    let average_inundation := Qmax 0 (Qmin q 0.5) in
    let m := set_p_adapt (action_curve average_damage average_inundation) m in
    Some (incentive_decay u1 u2 (adaptation_staircase u m))
  else Some m.

(** [SimultaneousActivation.step]: every agent's [step], then every agent's
    [advance]; both loops run over the roster in order and write the
    agent object back into the store. *)
Definition agent_step (d : Draws) (m : Model) (i : nat) : option Model :=
  a ← agent_list m !! i;
  a ← Household_step m (capacity_noise d i) a;
  Some (set_agent_list (<[i := a]> (agent_list m)) m).

Definition agent_advance (d : Draws) (m : Model) (i : nat) : option Model :=
  a ← agent_list m !! i;
  a ← make_decision m (decide_x d i) a;
  Some (set_agent_list (<[i := a]> (agent_list m)) m).

Definition schedule_step (d : Draws) (m : Model) : option Model :=
  m ← foldM (agent_step d) (schedule m) m;
  foldM (agent_advance d) (schedule m) m.

(** One iteration of the removal loop of [AdaptationModel.step]. *)
Definition reap_agent (m : Model) (i : nat) : option Model :=
  a ← agent_list m !! i;
  if retreated a && bool_decide (i ∈ schedule m) then
    p ← pos a;
    let m := set_schedule (remove_first i (schedule m)) m in
    let m := set_grid (delete p (grid m)) m in
    Some (set_num_agents (num_agents m - 1) m)
  else Some m.

Definition reap (m : Model) : option Model :=
  foldM reap_agent (seq 0 (length (agent_list m))) m.

Definition collect (m : Model) : Model :=
  set_datacollector
    (datacollector m ++
       [{| MSL := sea_level m; Surge := storm_surge m; Population := num_agents m;
           Accommodation := accommodation_incentive m; Retreat := retreat_incentive m;
           p_Adapt := p_adapt m |}]) m.

Definition step (d : Draws) (m : Model) : option Model :=
  let m := calculate_inundation m in
  let m := calculate_storm_surge (surge_log d) m in
  m ← community_adaptation (adapt_x d) (decay_accommodation d) (decay_retreat d) m;
  m ← schedule_step d m;
  m ← reap m;
  let m := collect m in
  Some (set_tick (tick m + 1) m).

(** A run of [k] years; [ds t] are the draws of the t-th call of [step]. *)
Fixpoint run (ds : nat → Draws) (k : nat) (m : Model) : option Model :=
  match k with
  | O => Some m
  | S k' => m ← run ds k' m; step (ds k') m
  end.

(** *** Construction *)

(** [SingleGrid.place_agent]: refuses an occupied cell, records the position. *)
Definition place_agent (g : gmap (Z * Z) nat) (r : nat) (a : Household) (p : Z * Z)
  : option (gmap (Z * Z) nat * Household) :=
  match g !! p with
  | Some _ => None
  | None => Some (<[p := r]> g, set_pos (Some p) a)
  end.

(** One iteration of the creation loop; [r] is the reference of the new object. *)
Definition create_agent (locations : list Z) (capacity : nat → Q) (m : Model) (i : nat)
  : option Model :=
  loc ← locations !! i;
  xy ← pydivmod loc (height m);
  a ← Household_init i (width m) xy.1 xy.2 (capacity i);
  let r := length (agent_list m) in
  let m := set_schedule (schedule m ++ [r]) m in
  ga ← place_agent (grid m) r a (x a, y a);
  let m := set_grid ga.1 m in
  Some (set_agent_list (agent_list m ++ [ga.2]) m).

(** The attribute assignments that open [AdaptationModel.__init__]. *)
Definition blank_model (w h : Z) (n : nat) (slr : Q) (mode : string) (param : Q)
    (init_time : Z) : Model :=
  {| num_agents := Z.of_nat n; width := w; height := h; slr_acceleration := slr;
     network_mode := mode; network_parameter := param; schedule := []; grid := ∅;
     sea_level := 0; storm_surge := 0; community_resistance := 0;
     accommodation_incentive := 1; retreat_incentive := 1; p_adapt := 0;
     agent_list := []; tick := init_time; datacollector := [] |}.

(** [locations] is the result of [random.sample(range(width*height), n)] and
    [capacity i] the [normalvariate(0, 1)] draw of the i-th household. *)
Definition AdaptationModel_init (w h : Z) (n : nat) (slr : Q) (mode : string) (param : Q)
    (init_time : Z) (locations : list Z) (capacity : nat → Q) : option Model :=
  foldM (create_agent locations capacity) (seq 0 n)
        (blank_model w h n slr mode param init_time).

(** What [random.sample(range(population), k)] returns when it returns. *)
Definition is_sample (population : Z) (k : nat) (locations : list Z) : Prop :=
  length locations = k ∧ NoDup locations ∧ ∀ loc, loc ∈ locations → (0 ≤ loc < population)%Z.

(** *** Social network *)

(** [i.connections.append(j)]. *)
Definition add_connection (i j : nat) (m : Model) : option Model :=
  a ← agent_list m !! i;
  Some (set_agent_list (<[i := set_connections (connections a ++ [j]) a]> (agent_list m)) m).

Definition connect (i j : nat) (m : Model) : option Model :=
  m ← add_connection i j m;
  add_connection j i m.

Definition aspatial_pair (density : Q) (draw : nat → nat → Q) (i : nat) (m : Model) (j : nat)
  : option Model :=
  ai ← agent_list m !! i;
  aj ← agent_list m !! j;
  if (unique_id ai <? unique_id aj)%nat then
    if draw i j <? density then connect i j m else Some m
  else Some m.

Definition spatial_pair (radius : Q) (i : nat) (m : Model) (j : nat) : option Model :=
  ai ← agent_list m !! i;
  aj ← agent_list m !! j;
  if (inject_Z (Z.abs (x ai - x aj)) <? radius)
     && (inject_Z (Z.abs (y ai - y aj)) <? radius)
     && negb (Nat.eqb (unique_id ai) (unique_id aj))
  then connect i j m else Some m.

(** [draw i j] is the uniform value drawn for the ordered pair (i, j). *)
Definition set_init_connections (draw : nat → nat → Q) (m : Model) : option Model :=
  if String.eqb (network_mode m) "aspatial" then
    let density := network_parameter m in
    foldM (fun m i => foldM (aspatial_pair density draw i) (schedule m) m) (schedule m) m
  else
    let radius := network_parameter m in
    foldM (fun m i => foldM (spatial_pair radius i) (schedule m) m) (schedule m) m.

(** ** RunModel *)

(** The module-level parameters of RunModel.py. *)
Definition model_width : Z := 30.









(** * Specification vocabulary *)

(** The four levels an adaptation measure can have. *)
Definition ladder (v : Q) : Prop := v == 0 ∨ v == 1 ∨ v == 1.5 ∨ v == 2.

(** What holds of every household object at every moment of a run. *)
Record good_agent (a : Household) : Prop := {
  good_resistance : ladder (resistance a);
  good_accommodation : ladder (accommodation a);
  good_damage : 0 <= flood_damage a;
  good_p_resist : 0 <= p_resist a;
  good_p_accommodate : 0 <= p_accommodate a;
  good_p_retreat : 0 <= p_retreat a;
  good_attachment : 0 <= attachment a;
  good_pos : is_Some (pos a)
}.

(** How one household object may differ between two moments of a run. *)
Record agent_le (a a' : Household) : Prop := {
  le_unique_id : unique_id a' = unique_id a;
  le_x : x a' = x a;
  le_y : y a' = y a;
  le_pos : pos a' = pos a;
  le_resistance : resistance a <= resistance a';
  le_accommodation : accommodation a <= accommodation a';
  le_retreated : retreated a = true → retreated a' = true
}.

(** Facts that hold of the model at every moment, also between the two
    phases of a year. *)
Record Core (m : Model) : Prop := {
  core_count : num_agents m = Z.of_nat (length (schedule m));
  core_nodup : NoDup (schedule m);
  core_sched : ∀ i, i ∈ schedule m → (i < length (agent_list m))%nat;
  core_agents : ∀ i a, agent_list m !! i = Some a →
      unique_id a = i ∧ good_agent a
      ∧ (∀ j, j ∈ connections a → (j < length (agent_list m))%nat)
      ∧ (retreated a = false → i ∈ schedule m);
  core_resistance : (0 ≤ community_resistance m ≤ 3)%Z;
  core_accommodation : (1 ≤ accommodation_incentive m)%Z;
  core_retreat : (1 ≤ retreat_incentive m)%Z;
  core_grid : ∀ p i, grid m !! p = Some i →
      i ∈ schedule m ∧ ∃ a, agent_list m !! i = Some a ∧ pos a = Some p
}.

(** Facts that hold at every observation point (between calls of [step]):
    the roster holds exactly the households that have not retreated. *)
Definition Inv (m : Model) : Prop :=
  Core m ∧ ∀ i a, agent_list m !! i = Some a → i ∈ schedule m → retreated a = false.

(** The object store only moves forward. *)
Definition store_le (s s' : list Household) : Prop :=
  length s' = length s ∧ ∀ i a, s !! i = Some a → ∃ a', s' !! i = Some a' ∧ agent_le a a'.

(** A model that differs from [m] in the four fields that
    [community_adaptation] assigns. *)
Definition with_incentives (p : Q) (cr ai ri : Z) (m : Model) : Model :=
  set_retreat_incentive ri
    (set_accommodation_incentive ai (set_community_resistance cr (set_p_adapt p m))).

(** A model that differs from [m] in the three fields the removal loop assigns. *)
Definition with_roster (s : list nat) (g : gmap (Z * Z) nat) (n : Z) (m : Model) : Model :=
  set_num_agents n (set_grid g (set_schedule s m)).

(** Everything a run can pass through: construction, network set-up, years. *)
Inductive reachable : Model → Prop :=
| reachable_init (w h : Z) (n : nat) (slr : Q) (mode : string) (param : Q) (t0 : Z)
    (locations : list Z) (capacity : nat → Q) (m : Model) :
    is_sample (w * h) n locations →
    AdaptationModel_init w h n slr mode param t0 locations capacity = Some m →
    reachable m
| reachable_connect (draw : nat → nat → Q) (m m' : Model) :
    reachable m → set_init_connections draw m = Some m' → reachable m'
| reachable_step (d : Draws) (m m' : Model) :
    reachable m → step d m = Some m' → reachable m'.

(** What the creation loop has built after some iterations. *)
Record built (n k : nat) (t : Model) : Prop := {
  built_count : num_agents t = Z.of_nat n;
  built_cr : community_resistance t = 0%Z;
  built_ai : accommodation_incentive t = 1%Z;
  built_ri : retreat_incentive t = 1%Z;
  built_schedule : schedule t = seq 0 k;
  built_length : length (agent_list t) = k;
  built_agents : ∀ i a, agent_list t !! i = Some a →
      unique_id a = i ∧ good_agent a ∧ connections a = [] ∧ retreated a = false;
  built_grid : ∀ p i, grid t !! p = Some i → ∃ a, agent_list t !! i = Some a ∧ pos a = Some p
}.

(** The connections list held by the object at reference [k]. *)
Definition conn (l : list Household) (k : nat) : list nat :=
  match l !! k with Some a => connections a | None => [] end.

(** [l] is the store [l0] with some connections lists replaced. *)
Definition net_store (l0 l : list Household) : Prop :=
  length l = length l0
  ∧ ∀ i a, l0 !! i = Some a →
      ∃ a', l !! i = Some a' ∧ a' = set_connections (connections a') a
            ∧ ∀ j, j ∈ connections a' → (j < length l0)%nat.

(** Indicator of a decidable proposition. *)
Definition ind (P : Prop) `{Decision P} : nat := if decide P then 1%nat else 0%nat.

(** How often [v] occurs in the connections list of [k]. *)
Definition cnt (l : list Household) (k v : nat) : nat := count_occ Nat.eq_dec (conn l k) v.

(** The test of the spatial loop body, read off the store before the loops. *)
Definition spatial_test (l0 : list Household) (radius : Q) (i j : nat) : bool :=
  match l0 !! i, l0 !! j with
  | Some ai, Some aj =>
      (inject_Z (Z.abs (x ai - x aj)) <? radius)
      && (inject_Z (Z.abs (y ai - y aj)) <? radius)
      && negb (Nat.eqb (unique_id ai) (unique_id aj))
  | _, _ => false
  end.

(** The two nested tests of the aspatial loop body. *)
Definition aspatial_test (l0 : list Household) (density : Q) (draw : nat → nat → Q)
    (i j : nat) : bool :=
  match l0 !! i, l0 !! j with
  | Some ai, Some aj => (unique_id ai <? unique_id aj)%nat && (draw i j <? density)
  | _, _ => false
  end.

(** ** Concrete runs used as examples *)

(** A year without storm, community change or individual action. *)
Definition quiet_year : Draws :=
  {| surge_log := 0; adapt_x := 0.9; decay_accommodation := 0.5; decay_retreat := 0.5;
     capacity_noise := fun _ => 0; decide_x := fun _ => 0.9 |}.

(** As [quiet_year], with every adaptive capacity rising by 0.1. *)
Definition quiet_year_up : Draws :=
  {| surge_log := 0; adapt_x := 0.9; decay_accommodation := 0.5; decay_retreat := 0.5;
     capacity_noise := fun _ => 0.1; decide_x := fun _ => 0.9 |}.

(** A stormy year in which every household draws 0.09. *)
Definition stormy_year : Draws :=
  {| surge_log := -1; adapt_x := 0.5; decay_accommodation := 0.5; decay_retreat := 0.5;
     capacity_noise := fun _ => 0; decide_x := fun _ => 0.09 |}.

(** [AdaptationModel(1, 1, 1, 0, 'aspatial', 0)] with initial capacity [c]. *)
Definition single_init (c : Q) : option Model :=
  AdaptationModel_init 1 1 1 0 "aspatial" 0 0 [0%Z] (fun _ => c).

Definition single_model : Model :=
  Eval vm_compute in default (blank_model 0 0 0 0 "" 0 0) (single_init 1).

Definition single_model_low : Model :=
  Eval vm_compute in default (blank_model 0 0 0 0 "" 0 0) (single_init (-0.05)).

(** Three households on the diagonal of a 3 x 3 grid. *)
Definition trio_init (mode : string) (param : Q) : option Model :=
  AdaptationModel_init 3 3 3 0 mode param 0 [0%Z; 4%Z; 8%Z] (fun _ => 1).

Definition trio_spatial : Model :=
  Eval vm_compute in default (blank_model 0 0 0 0 "" 0 0) (trio_init "spatial" 2).

Definition trio_aspatial : Model :=
  Eval vm_compute in default (blank_model 0 0 0 0 "" 0 0) (trio_init "aspatial" 0.5).

(** Pair draws for the aspatial network: only the pair (0, 1) connects. *)
Definition trio_draw (i j : nat) : Q :=
  if Nat.eqb i 0 && Nat.eqb j 1 then 0.1 else 0.9.

(** The trio after two stormy years: households 1 and 2 have retreated. *)
Definition trio_after_storms : Model :=
  Eval vm_compute in
    default (blank_model 0 0 0 0 "" 0 0) (run (fun _ => stormy_year) 2 trio_spatial).

(** ** The raw weights as the specification words them *)

(** Every year each weight "starts at" its base value: 0.6, 0.3, 0.1. *)
Definition reset_weights (a : Household) : Household :=
  set_p_retreat 0.1 (set_p_accommodate 0.3 (set_p_resist 0.6 a)).

(** The forced-zero and scaling rules applied to the base values. *)
Definition spec_decision_weights (m : Model) (a : Household) : option Household :=
  decision_weights m (reset_weights a).

(** The trio after [community_adaptation] with draws 0.05, 0.5, 0.5. *)
Definition trio_adapted : Model :=
  Eval vm_compute in
    default (blank_model 0 0 0 0 "" 0 0) (community_adaptation 0.05 0.5 0.5 trio_spatial).

(** ** Vocabulary of the network claim *)

(** The coordinate condition of the spatial mode. *)
Definition near (radius : Q) (a b : Household) : Prop :=
  inject_Z (Z.abs (x a - x b)) < radius ∧ inject_Z (Z.abs (y a - y b)) < radius.

(** The household with each neighbour listed once. *)
Definition single_listed (a : Household) : Household :=
  set_connections (remove_dups (connections a)) a.

(** Two results of [calculate_attachment] that agree: both raise, or both
    return and the attachment values are equal. *)
Definition same_attachment (r r' : option Household) : Prop :=
  match r, r' with
  | Some b, Some b' => attachment b == attachment b'
  | None, None => True
  | _, _ => False
  end.

(** The trio with its spatial network (radius 2) and with its aspatial
    network (density 0.5, pair draws [trio_draw]). *)
Definition trio_spatial_net : Model :=
  Eval vm_compute in
    default (blank_model 0 0 0 0 "" 0 0) (set_init_connections trio_draw trio_spatial).

Definition trio_aspatial_net : Model :=
  Eval vm_compute in
    default (blank_model 0 0 0 0 "" 0 0) (set_init_connections trio_draw trio_aspatial).

(** ** Vocabulary of the further properties *)

(** The attributes of a household that are assigned only at construction
    or by [set_init_connections]. *)
Record same_static (a a' : Household) : Prop := {
  static_unique_id : unique_id a' = unique_id a;
  static_x : x a' = x a;
  static_y : y a' = y a;
  static_pos : pos a' = pos a;
  static_elevation : elevation a' = elevation a;
  static_connections : connections a' = connections a
}.

(** Two stores holding the same objects up to their dynamic attributes. *)
Definition store_static (s s' : list Household) : Prop :=
  length s' = length s
  ∧ ∀ i a, s !! i = Some a → ∃ a', s' !! i = Some a' ∧ same_static a a'.

(** The model attributes that [community_adaptation] never assigns. *)
Record same_world (m m' : Model) : Prop := {
  world_schedule : schedule m' = schedule m;
  world_agents : agent_list m' = agent_list m;
  world_grid : grid m' = grid m;
  world_count : num_agents m' = num_agents m;
  world_tick : tick m' = tick m;
  world_sea : sea_level m' = sea_level m;
  world_surge : storm_surge m' = storm_surge m;
  world_data : datacollector m' = datacollector m;
  world_width : width m' = width m;
  world_height : height m' = height m;
  world_slr : slr_acceleration m' = slr_acceleration m;
  world_mode : network_mode m' = network_mode m;
  world_parameter : network_parameter m' = network_parameter m
}.

(** The row that [datacollector.collect] appends for the model [m]. *)
Definition model_row (m : Model) : ModelVars :=
  {| MSL := sea_level m; Surge := storm_surge m; Population := num_agents m;
     Accommodation := accommodation_incentive m; Retreat := retreat_incentive m;
     p_Adapt := p_adapt m |}.

(** How many entries of a connections list refer to a household that has
    not retreated, and how many to one that has. *)
Definition remaining_connections (store : list Household) (l : list nat) : nat :=
  length (filter (fun j => retreated <$> store !! j = Some false) l).

Definition retreated_connections (store : list Household) (l : list nat) : nat :=
  length (filter (fun j => retreated <$> store !! j = Some true) l).

(** The low-capacity household model after one quiet year, and after a
    second year in which its capacity rises. *)
Definition low_year1 : Model :=
  Eval vm_compute in
    default (blank_model 0 0 0 0 "" 0 0) (step quiet_year single_model_low).

Definition low_year2 : Model :=
  Eval vm_compute in
    default (blank_model 0 0 0 0 "" 0 0) (step quiet_year_up low_year1).

(** The trio with its spatial network after two stormy years. *)
Definition trio_net_after_storms : Model :=
  Eval vm_compute in
    default (blank_model 0 0 0 0 "" 0 0) (run (fun _ => stormy_year) 2 trio_spatial_net).

(** What the creation loop has placed after some iterations: every
    household built so far sits where its sampled location says. *)
Definition placed (w h : Z) (locations : list Z) (capacity : nat → Q) (t : Model) : Prop :=
  width t = w ∧ height t = h
  ∧ ∀ i a, agent_list t !! i = Some a →
      ∃ loc, locations !! i = Some loc
        ∧ x a = (loc / h)%Z ∧ y a = (loc mod h)%Z
        ∧ pos a = Some (x a, y a)
        ∧ grid t !! (x a, y a) = Some i
        ∧ elevation a = inject_Z (x a) / inject_Z w * 10
        ∧ adaptive_capacity a = capacity i
        ∧ resistance a = 0 ∧ accommodation a = 0 ∧ flood_damage a = 0
        ∧ p_resist a = 0.6 ∧ p_accommodate a = 0.3 ∧ p_retreat a = 0.1.

(** ** Vocabulary of the network, grid and output properties *)

(** The ids of all households but [i], in increasing order. *)
Definition others (n i : nat) : list nat := filter (fun j => j ≠ i) (seq 0 n).

(** The trio with every pair connected (all draws below the density), and
    with no pair connected (no draw below the density). *)
Definition trio_complete : Model :=
  Eval vm_compute in
    default (blank_model 0 0 0 0 "" 0 0) (set_init_connections (fun _ _ => 0) trio_aspatial).

Definition trio_isolated : Model :=
  Eval vm_compute in
    default (blank_model 0 0 0 0 "" 0 0) (set_init_connections (fun _ _ => 0.5) trio_aspatial).

(** Every enrolled household stands on the cell that its [pos] names, and
    the grid has as many occupied cells as the roster has entries. *)
Definition on_grid (m : Model) : Prop :=
  (∀ i, i ∈ schedule m →
     ∃ a p, agent_list m !! i = Some a ∧ pos a = Some p ∧ grid m !! p = Some i)
  ∧ size (grid m) = length (schedule m).

(** What one [schedule.step()] makes of the household [a] with reference
    [i]: its [step] and then its [advance], both evaluated in the model as
    it was before the call. *)
Definition yearly_update (d : Draws) (m : Model) (i : nat) (a : Household) : option Household :=
  a ← Household_step m (capacity_noise d i) a;
  make_decision m (decide_x d i) a.

(** The trio with its spatial network after the two phases of a stormy year. *)
Definition trio_net_scheduled : Model :=
  Eval vm_compute in
    default (blank_model 0 0 0 0 "" 0 0) (schedule_step stormy_year trio_spatial_net).









(** The three action weights of the household are all zero. *)
Definition switched_off (a : Household) : Prop :=
  p_resist a == 0 ∧ p_accommodate a == 0 ∧ p_retreat a == 0.

(** The household has taken no action between [a] and [a']. *)
Definition no_action (a a' : Household) : Prop :=
  resistance a' = resistance a ∧ accommodation a' = accommodation a
  ∧ retreated a' = retreated a.

(** The household at reference [i] is still as switched off as [a] was. *)
Definition still_off (i : nat) (a : Household) (l : list Household) : Prop :=
  ∃ a', l !! i = Some a' ∧ no_action a a' ∧ switched_off a'.

(** * Verification *)

(** ** Comparisons, division and loops *)

Lemma Qlt_bool_iff (a b : Q) : (a <? b) = true ↔ a < b.
Proof.
  unfold Qlt_bool. rewrite negb_true_iff. split.
  - intros H. apply Qnot_le_lt. intros Hle. apply Qle_bool_iff in Hle. congruence.
  - intros H. destruct (Qle_bool b a) eqn:E; [|reflexivity].
    apply Qle_bool_iff in E. exfalso. apply (Qlt_not_le _ _ H E).
Qed.

Lemma Qlt_bool_false (a b : Q) : (a <? b) = false ↔ b <= a.
Proof.
  unfold Qlt_bool. rewrite negb_false_iff. apply Qle_bool_iff.
Qed.

Lemma Qle_bool_false (a b : Q) : (a <=? b) = false ↔ b < a.
Proof.
  split.
  - intros H. apply Qnot_le_lt. intros Hle. apply Qle_bool_iff in Hle. congruence.
  - intros H. destruct (a <=? b) eqn:E; [|reflexivity].
    apply Qle_bool_iff in E. exfalso. apply (Qlt_not_le _ _ H E).
Qed.

Lemma Qeq_bool_false (a b : Q) : (a =? b) = false ↔ ¬ a == b.
Proof.
  split.
  - intros H Heq. apply Qeq_bool_iff in Heq. congruence.
  - intros H. destruct (a =? b) eqn:E; [|reflexivity].
    apply Qeq_bool_iff in E. contradiction.
Qed.

(** Case analysis on one boolean comparison, leaving its meaning as a hypothesis. *)
Ltac qtest c :=
  let E := fresh "E" in
  destruct c eqn:E;
  [ first [ apply Qlt_bool_iff in E | apply Qle_bool_iff in E | apply Qeq_bool_iff in E
          | apply Z.ltb_lt in E | apply Nat.ltb_lt in E | apply Nat.eqb_eq in E ]
  | first [ apply Qlt_bool_false in E | apply Qle_bool_false in E | apply Qeq_bool_false in E
          | apply Z.ltb_ge in E | apply Nat.ltb_ge in E | apply Nat.eqb_neq in E ] ].

Lemma pydiv_Some (a b : Q) : ¬ b == 0 → pydiv a b = Some (a / b).
Proof.
  intros H. unfold pydiv. apply Qeq_bool_false in H. rewrite H. reflexivity.
Qed.

Lemma pydiv_inv (a b v : Q) : pydiv a b = Some v → ¬ b == 0 ∧ v = a / b.
Proof.
  unfold pydiv. qtest (b =? 0); [discriminate|]. intros [= <-]. auto.
Qed.

Lemma Qdiv_nonneg (a b : Q) : 0 <= a → 0 < b → 0 <= a / b.
Proof.
  intros Ha Hb. apply Qle_shift_div_l; [assumption|]. lra.
Qed.

Lemma Qdiv_pos (a b : Q) : 0 < a → 0 < b → 0 < a / b.
Proof.
  intros Ha Hb. apply Qlt_shift_div_l; [assumption|]. lra.
Qed.

Lemma inject_Z_pos (z : Z) : (0 < z)%Z → 0 < inject_Z z.
Proof. intros H. replace 0 with (inject_Z 0) by reflexivity. rewrite <- Zlt_Qlt. exact H. Qed.

Lemma inject_Z_nonneg (z : Z) : (0 ≤ z)%Z → 0 <= inject_Z z.
Proof. intros H. replace 0 with (inject_Z 0) by reflexivity. rewrite <- Zle_Qle. exact H. Qed.

Lemma inject_Z_ge_1 (z : Z) : (1 ≤ z)%Z → 1 <= inject_Z z.
Proof. intros H. replace 1 with (inject_Z 1) by reflexivity. rewrite <- Zle_Qle. exact H. Qed.

Section Loops.
Context {S A : Type} (f : S → A → option S).

(** Invariant rule: [P pre s] holds once the elements [pre] are done. *)
Lemma foldM_inv (P : list A → S → Prop) (l : list A) (s s' : S) :
  P [] s →
  (∀ pre a post t t', l = pre ++ a :: post → P pre t → f t a = Some t' → P (pre ++ [a]) t') →
  foldM f l s = Some s' → P l s'.
Proof.
  intros H0 Hstep.
  assert (G : ∀ post pre t, l = pre ++ post → P pre t → foldM f post t = Some s' → P l s').
  { induction post as [|a post IH]; intros pre t Hl Hp Hf; simpl in Hf.
    - injection Hf as <-. rewrite app_nil_r in Hl. subst l. exact Hp.
    - destruct (f t a) as [t'|] eqn:Hfa; simpl in Hf; [|discriminate].
      apply (IH (pre ++ [a]) t').
      + rewrite <- app_assoc. exact Hl.
      + eapply Hstep; eauto.
      + exact Hf. }
  intros Hf. apply (G l [] s); auto.
Qed.

(** Total-correctness rule: every iteration succeeds and keeps [P]. *)
Lemma foldM_total (P : list A → S → Prop) (l : list A) (s : S) :
  P [] s →
  (∀ pre a post t, l = pre ++ a :: post → P pre t → ∃ t', f t a = Some t' ∧ P (pre ++ [a]) t') →
  ∃ s', foldM f l s = Some s' ∧ P l s'.
Proof.
  intros H0 Hstep.
  assert (G : ∀ post pre t, l = pre ++ post → P pre t →
              ∃ s', foldM f post t = Some s' ∧ P l s').
  { induction post as [|a post IH]; intros pre t Hl Hp; simpl.
    - rewrite app_nil_r in Hl. subst l. eauto.
    - destruct (Hstep pre a post t Hl Hp) as (t' & Hfa & Hp').
      rewrite Hfa. simpl. apply (IH (pre ++ [a]) t'); [|exact Hp'].
      rewrite <- app_assoc. exact Hl. }
  apply (G l [] s); auto.
Qed.

Lemma foldM_app (l1 l2 : list A) (s : S) :
  foldM f (l1 ++ l2) s = (s' ← foldM f l1 s; foldM f l2 s').
Proof.
  revert s. induction l1 as [|a l1 IH]; intros s; simpl; [reflexivity|].
  destruct (f s a); simpl; auto.
Qed.
End Loops.

Lemma remove_first_subset (v w : nat) (l : list nat) : w ∈ remove_first v l → w ∈ l.
Proof.
  induction l as [|u l IH]; simpl; [auto|].
  destruct (Nat.eqb u v); intros H.
  - right. exact H.
  - apply elem_of_cons in H as [->|H]; [left | right; auto].
Qed.

Lemma remove_first_other (v w : nat) (l : list nat) : w ≠ v → w ∈ l → w ∈ remove_first v l.
Proof.
  intros Hne. induction l as [|u l IH]; simpl; [auto|].
  intros H. apply elem_of_cons in H as [->|H].
  - destruct (Nat.eqb u v) eqn:E; [apply Nat.eqb_eq in E; congruence | left].
  - destruct (Nat.eqb u v); [exact H | right; auto].
Qed.

Lemma remove_first_NoDup (v : nat) (l : list nat) : NoDup l → NoDup (remove_first v l).
Proof.
  induction 1 as [|u l Hu Hl IH]; simpl; [constructor|].
  destruct (Nat.eqb u v); [exact Hl|].
  constructor; [|exact IH]. intros H. apply Hu. eapply remove_first_subset; eauto.
Qed.

Lemma remove_first_gone (v : nat) (l : list nat) : NoDup l → v ∉ remove_first v l.
Proof.
  induction 1 as [|u l Hu Hl IH]; simpl; [apply not_elem_of_nil|].
  destruct (Nat.eqb u v) eqn:E.
  - apply Nat.eqb_eq in E. subst u. exact Hu.
  - apply Nat.eqb_neq in E. intros H. apply elem_of_cons in H as [->|H]; [congruence | auto].
Qed.

Lemma remove_first_length (v : nat) (l : list nat) :
  v ∈ l → length l = Datatypes.S (length (remove_first v l)).
Proof.
  induction l as [|u l IH]; simpl; intros H; [inversion H|].
  destruct (Nat.eqb u v) eqn:E; [reflexivity|].
  apply Nat.eqb_neq in E. apply elem_of_cons in H as [->|H]; [congruence|].
  simpl. rewrite <- IH; auto.
Qed.

(** ** Households *)

Lemma agent_le_refl (a : Household) : agent_le a a.
Proof. split; auto; apply Qle_refl. Qed.

Lemma agent_le_trans (a b c : Household) : agent_le a b → agent_le b c → agent_le a c.
Proof.
  intros [] []. split; try congruence; try (eapply Qle_trans; eauto). auto.
Qed.

Lemma action_curve_lower (d i : Q) :
  0 <= d → d <= 10 → 0 <= i → i <= 1 → 0.1 <= action_curve d i.
Proof.
  intros Hd0 Hd1 Hi0 Hi1. unfold action_curve.
  assert (H1 : 0 <= d * (1 - i)) by nra.
  assert (H2 : 0 <= i * (10 - d)) by nra.
  lra.
Qed.

Lemma escalate_ladder (v : Q) : ladder (escalate v).
Proof.
  unfold escalate, ladder.
  destruct (v =? 0); [right; left; reflexivity|].
  destruct (v =? 1); [right; right; left | right; right; right]; reflexivity.
Qed.

Lemma escalate_ge (v : Q) : ladder v → v <= escalate v.
Proof.
  unfold escalate, ladder. intros H.
  qtest (v =? 0); [lra|]. qtest (v =? 1); lra.
Qed.

(** *** The observe phase *)

Lemma connection_counts_spec (store : list Household) (l : list nat) :
  (∀ j, j ∈ l → (j < length store)%nat) →
  ∃ c, connection_counts store l = Some c ∧ (0 ≤ c.1)%Z ∧ (0 ≤ c.2)%Z
       ∧ (c.1 + c.2)%Z = Z.of_nat (length l).
Proof.
  intros Hl. unfold connection_counts.
  destruct (foldM_total
    (fun c j => b ← store !! j;
                Some (if retreated b then (c.1 + 1, c.2)%Z else (c.1, c.2 + 1)%Z))
    (fun pre c => (0 ≤ c.1)%Z ∧ (0 ≤ c.2)%Z ∧ (c.1 + c.2)%Z = Z.of_nat (length pre))
    l (0, 0)%Z) as (c & Hc & HP).
  - simpl. lia.
  - intros pre j post c Heq (H1 & H2 & H3).
    assert (Hj : (j < length store)%nat).
    { apply Hl. rewrite Heq. apply elem_of_app. right. left. }
    apply lookup_lt_is_Some in Hj as [b Hb]. rewrite Hb. simpl.
    eexists; split; [reflexivity|].
    rewrite length_app. simpl. destruct (retreated b); simpl; lia.
  - exists c. tauto.
Qed.

Lemma calculate_attachment_spec (store : list Household) (a : Household) :
  (∀ j, j ∈ connections a → (j < length store)%nat) →
  ∃ v, calculate_attachment store a = Some (set_attachment v a) ∧ 0 <= v.
Proof.
  intros Hl. unfold calculate_attachment.
  destruct (connection_counts_spec store (connections a) Hl) as (c & -> & H1 & H2 & _).
  simpl. qtest (0 <? c.1 + c.2)%Z.
  - rewrite pydiv_Some.
    + simpl. eexists; split; [reflexivity|].
      apply Qdiv_nonneg; [apply inject_Z_nonneg | apply inject_Z_pos]; lia.
    + intros Heq. pose proof (inject_Z_pos _ E). lra.
  - exists 0. split; [reflexivity | lra].
Qed.

Lemma apply_damage_nonneg (m : Model) (a : Household) :
  ladder (accommodation a) → 0 <= flood_damage a → 0 <= flood_damage (apply_damage m a).
Proof.
  intros Hacc Hd. unfold apply_damage.
  destruct (0 <? storm_surge m); simpl.
  - pose proof (Q.le_max_l 0 (storm_surge m + inundation a)) as Hmax.
    unfold ladder in Hacc. nra.
  - lra.
Qed.

(** [Household.step] always returns; it rewrites only the observed
    quantities (capacity, attachment, elevation, inundation, damage). *)
Lemma Household_step_spec (m : Model) (noise : Q) (a : Household) :
  good_agent a →
  (∀ j, j ∈ connections a → (j < length (agent_list m))%nat) →
  ∃ a', Household_step m noise a = Some a' ∧ good_agent a' ∧ agent_le a a'
        ∧ connections a' = connections a ∧ retreated a' = retreated a
        ∧ resistance a' = resistance a ∧ accommodation a' = accommodation a.
Proof.
  intros Hg Hc. unfold Household_step.
  destruct (calculate_attachment_spec (agent_list m) (calculate_adaptive_capacity noise a))
    as (v & -> & Hv); [exact Hc|].
  simpl. eexists; split; [reflexivity|].
  destruct Hg.
  assert (Hd : 0 <= flood_damage (apply_damage m (apply_inundation m
             (set_attachment v (calculate_adaptive_capacity noise a))))).
  { apply apply_damage_nonneg; simpl; assumption. }
  unfold apply_damage in *. destruct (0 <? storm_surge m); simpl in *;
    (split; [split; simpl; auto | split; [split; simpl; auto; apply Qle_refl | auto]]).
Qed.

(** *** The commit phase *)

(** The first half of [make_decision] never raises: the only division is
    guarded by the test on [attachment]. *)
Lemma decision_weights_spec (m : Model) (a : Household) :
  ∃ a1, decision_weights m a = Some a1
    ∧ p_action a1 = action_curve (Qmin (flood_damage a) 10) (Qmin 1 (Qmax (inundation a) 0))
    ∧ (2 <= resistance a → p_resist a1 = 0)
    ∧ (2 <= accommodation a → p_accommodate a1 = 0)
    ∧ (0 <= p_resist a → 0 <= p_resist a1)
    ∧ (0 <= p_accommodate a → (0 ≤ accommodation_incentive m)%Z → 0 <= p_accommodate a1)
    ∧ (0 <= p_retreat a → 0 <= attachment a → (0 ≤ retreat_incentive m)%Z → 0 <= p_retreat a1)
    ∧ unique_id a1 = unique_id a ∧ x a1 = x a ∧ y a1 = y a ∧ pos a1 = pos a
    ∧ connections a1 = connections a ∧ resistance a1 = resistance a
    ∧ accommodation a1 = accommodation a ∧ retreated a1 = retreated a
    ∧ flood_damage a1 = flood_damage a ∧ attachment a1 = attachment a.
Proof.
  unfold decision_weights.
  set (pa := action_curve _ _).
  set (a0 := set_p_action pa a).
  set (a1 := if (2 <=? resistance a0) || (adaptive_capacity a0 <=? 0)
             then set_p_resist 0 a0 else a0).
  set (a2 := if (accommodation a1 <? 2)
                && (-0.1 * (inject_Z (accommodation_incentive m) - 1) <? adaptive_capacity a1)
             then set_p_accommodate (p_accommodate a1 * inject_Z (accommodation_incentive m)) a1
             else set_p_accommodate 0 a1).
  assert (F1 : p_action a1 = pa ∧ (2 <= resistance a → p_resist a1 = 0)
               ∧ (0 <= p_resist a → 0 <= p_resist a1)
               ∧ p_accommodate a1 = p_accommodate a ∧ p_retreat a1 = p_retreat a
               ∧ unique_id a1 = unique_id a ∧ x a1 = x a ∧ y a1 = y a ∧ pos a1 = pos a
               ∧ connections a1 = connections a ∧ resistance a1 = resistance a
               ∧ accommodation a1 = accommodation a ∧ retreated a1 = retreated a
               ∧ flood_damage a1 = flood_damage a ∧ attachment a1 = attachment a
               ∧ adaptive_capacity a1 = adaptive_capacity a).
  { subst a1 a0. simpl. qtest (2 <=? resistance a); simpl.
    - repeat split; auto; intros; lra.
    - destruct (adaptive_capacity a <=? 0); simpl; repeat split; auto; intros; lra. }
  destruct F1 as (Fa & Fr & Fr' & Fpa & Fpr & Fid & Fx & Fy & Fpos & Fc & Fres & Facc & Fret
                  & Ffd & Fatt & Fac).
  assert (F2 : p_action a2 = pa
               ∧ (2 <= resistance a → p_resist a2 = 0)
               ∧ (0 <= p_resist a → 0 <= p_resist a2)
               ∧ (2 <= accommodation a → p_accommodate a2 = 0)
               ∧ (0 <= p_accommodate a → (0 ≤ accommodation_incentive m)%Z
                  → 0 <= p_accommodate a2)
               ∧ p_retreat a2 = p_retreat a
               ∧ unique_id a2 = unique_id a ∧ x a2 = x a ∧ y a2 = y a ∧ pos a2 = pos a
               ∧ connections a2 = connections a ∧ resistance a2 = resistance a
               ∧ accommodation a2 = accommodation a ∧ retreated a2 = retreated a
               ∧ flood_damage a2 = flood_damage a ∧ attachment a2 = attachment a
               ∧ adaptive_capacity a2 = adaptive_capacity a).
  { subst a2. rewrite Facc. qtest (accommodation a <? 2); simpl.
    - destruct (_ <? adaptive_capacity a1); simpl; repeat split; auto; try (intros; lra).
      intros H1 H2. rewrite Fpa. apply inject_Z_nonneg in H2. nra.
    - repeat split; auto; intros; lra. }
  clearbody a2. clear a1 Fa Fr Fr' Fpa Fpr Fid Fx Fy Fpos Fc Fres Facc Fret Ffd Fatt Fac a0.
  destruct F2 as (Fa & Fr & Fr' & Faz & Fpa & Fpr & Fid & Fx & Fy & Fpos & Fc & Fres & Facc
                  & Fret & Ffd & Fatt & Fac).
  destruct (_ <? adaptive_capacity a2).
  - qtest (attachment a2 =? 0); simpl.
    + eexists; split; [reflexivity|]. simpl.
      repeat split; auto.
      intros H1 H2 H3. rewrite Fpr. apply inject_Z_nonneg in H3. nra.
    + rewrite pydiv_Some by exact E. simpl.
      eexists; split; [reflexivity|]. simpl.
      repeat split; auto.
      intros H1 H2 H3. rewrite Fpr, Fatt in *. apply inject_Z_nonneg in H3.
      apply Qdiv_nonneg; [nra | lra].
  - eexists; split; [reflexivity|]. simpl.
    repeat split; auto. intros; lra.
Qed.

(** The three normalising divisions are all defined when the raw weights
    are non-negative, not all zero, and [p_action] is positive. *)
Lemma normalise_weights_spec (a : Household) :
  0 <= p_resist a → 0 <= p_accommodate a → 0 <= p_retreat a →
  ¬ p_resist a + p_accommodate a + p_retreat a == 0 →
  0 < p_action a →
  ∃ a', normalise_weights a = Some a'
    ∧ 0 <= p_resist a' ∧ 0 <= p_accommodate a' ∧ 0 <= p_retreat a'
    ∧ (p_resist a == 0 → p_resist a' == 0)
    ∧ (p_accommodate a == 0 → p_accommodate a' == 0)
    ∧ p_action a' = p_action a
    ∧ unique_id a' = unique_id a ∧ x a' = x a ∧ y a' = y a ∧ pos a' = pos a
    ∧ connections a' = connections a ∧ resistance a' = resistance a
    ∧ accommodation a' = accommodation a ∧ retreated a' = retreated a
    ∧ flood_damage a' = flood_damage a ∧ attachment a' = attachment a.
Proof.
  intros Hr Ha Ht Hs Hp. unfold normalise_weights.
  set (s1 := p_resist a + p_accommodate a + p_retreat a) in *.
  assert (Hs1 : 0 < s1) by (subst s1; destruct (Qlt_le_dec 0 (p_resist a + p_accommodate a + p_retreat a)); [auto | exfalso; apply Hs; lra]).
  rewrite pydiv_Some by exact Hs. simpl.
  set (r' := p_resist a / s1 * p_action a).
  assert (Hr' : 0 <= r').
  { subst r'. pose proof (Qdiv_nonneg _ _ Hr Hs1). nra. }
  assert (Hr0 : p_accommodate a + p_retreat a == 0 → 0 < r').
  { intros H0. subst r'. assert (0 < p_resist a) by (subst s1; lra).
    pose proof (Qdiv_pos _ _ H Hs1). nra. }
  set (s2 := r' + p_accommodate a + p_retreat a).
  assert (Hs2 : 0 < s2).
  { subst s2. destruct (Qlt_le_dec 0 (p_accommodate a + p_retreat a)); [lra|].
    assert (p_accommodate a + p_retreat a == 0) by lra. specialize (Hr0 H). lra. }
  rewrite pydiv_Some by lra. simpl.
  set (c' := p_accommodate a / s2 * p_action a).
  assert (Hc' : 0 <= c').
  { subst c'. pose proof (Qdiv_nonneg _ _ Ha Hs2). nra. }
  assert (Hc0 : 0 < p_accommodate a → 0 < c').
  { intros H. subst c'. pose proof (Qdiv_pos _ _ H Hs2). nra. }
  set (s3 := r' + c' + p_retreat a).
  assert (Hs3 : 0 < s3).
  { subst s3. destruct (Qlt_le_dec 0 (p_retreat a)); [lra|].
    destruct (Qlt_le_dec 0 (p_accommodate a)); [specialize (Hc0 q0); lra|].
    assert (p_accommodate a + p_retreat a == 0) by lra. specialize (Hr0 H). lra. }
  rewrite pydiv_Some by lra. simpl.
  eexists; split; [reflexivity|]. simpl.
  repeat split; auto.
  - pose proof (Qdiv_nonneg _ _ Ht Hs3). fold r' c' s3. nra.
  - intros H0. fold r'. subst r'. rewrite H0. unfold Qdiv. ring.
  - intros H0. fold r' s2 c'. subst c'. rewrite H0. unfold Qdiv. ring.
Qed.

Lemma in_roster_total (m : Model) (uid : nat) :
  (∀ i, i ∈ schedule m → (i < length (agent_list m))%nat) →
  ∃ b, in_roster m uid = Some b.
Proof.
  intros Hs. unfold in_roster.
  destruct (foldM_total
    (fun found j => b ← agent_list m !! j; Some (found || Nat.eqb (unique_id b) uid))
    (fun _ _ => True) (schedule m) false) as (b & Hb & _); [exact I| |eauto].
  intros pre j post t Heq _.
  assert (Hj : (j < length (agent_list m))%nat).
  { apply Hs. rewrite Heq. apply elem_of_app. right. left. }
  apply lookup_lt_is_Some in Hj as [b Hb]. rewrite Hb. simpl. eauto.
Qed.

(** The if/elif chain changes at most one of resistance, accommodation and
    retreated, moves the first two up the ladder, and never clears
    [retreated]. *)
Lemma take_action_spec (m : Model) (u : Q) (a : Household) :
  (∀ i, i ∈ schedule m → (i < length (agent_list m))%nat) →
  ladder (resistance a) → ladder (accommodation a) →
  ∃ a', take_action m u a = Some a'
    ∧ ladder (resistance a') ∧ ladder (accommodation a')
    ∧ resistance a <= resistance a' ∧ accommodation a <= accommodation a'
    ∧ (retreated a = true → retreated a' = true)
    ∧ (u < p_resist a ∨ resistance a' = resistance a)
    ∧ p_action a' = p_action a ∧ p_resist a' = p_resist a
    ∧ p_accommodate a' = p_accommodate a ∧ p_retreat a' = p_retreat a
    ∧ unique_id a' = unique_id a ∧ x a' = x a ∧ y a' = y a ∧ pos a' = pos a
    ∧ connections a' = connections a
    ∧ flood_damage a' = flood_damage a ∧ attachment a' = attachment a.
Proof.
  intros Hs Hr Ha. unfold take_action.
  qtest (u <? p_resist a).
  { eexists; split; [reflexivity|]. simpl.
    repeat split; auto using escalate_ladder, escalate_ge. apply Qle_refl. }
  qtest (u <? p_resist a + p_accommodate a).
  { eexists; split; [reflexivity|]. simpl.
    repeat split; auto using escalate_ladder, escalate_ge. apply Qle_refl. }
  destruct (u <? p_action a).
  - destruct (in_roster_total m (unique_id a) Hs) as [b ->]. simpl.
    eexists; split; [reflexivity|].
    destruct b; simpl; repeat split; auto; apply Qle_refl.
  - eexists; split; [reflexivity|]. repeat split; auto; apply Qle_refl.
Qed.

(** [make_decision] as a whole: it always returns on a well-formed
    household, keeps it well-formed, and only moves it forward. *)
Lemma make_decision_spec (m : Model) (u : Q) (a : Household) :
  good_agent a →
  (1 ≤ accommodation_incentive m)%Z → (1 ≤ retreat_incentive m)%Z →
  (∀ i, i ∈ schedule m → (i < length (agent_list m))%nat) →
  ∃ a', make_decision m u a = Some a' ∧ good_agent a' ∧ agent_le a a'
        ∧ connections a' = connections a
        ∧ (2 <= resistance a → 0 <= u → resistance a' = resistance a).
Proof.
  intros Hg Hai Hri Hs. unfold make_decision.
  destruct (decision_weights_spec m a)
    as (a1 & -> & Fpa & Fr0 & Fa0 & Fr & Fa & Ft & Fid & Fx & Fy & Fpos & Fc & Fres & Facc
        & Fret & Ffd & Fatt).
  simpl. destruct Hg as [Gr Ga Gd Gpr Gpa Gpt Gat Gpos].
  specialize (Fr Gpr). specialize (Fa Gpa ltac:(lia)). specialize (Ft Gpt Gat ltac:(lia)).
  assert (Hp : 0.1 <= p_action a1).
  { rewrite Fpa. apply action_curve_lower.
    - apply Q.min_glb; lra.
    - apply Q.le_min_r.
    - apply Q.min_glb; [lra | apply Q.le_max_r].
    - apply Q.le_min_l. }
  unfold decision_commit.
  qtest (p_resist a1 + p_accommodate a1 + p_retreat a1 =? 0); simpl.
  { eexists; split; [reflexivity|]. split; [|split; [|split]].
    - split; try congruence; auto.
    - split; try congruence; auto; try (rewrite ?Fres, ?Facc; apply Qle_refl).
    - exact Fc.
    - intros; exact Fres. }
  destruct (normalise_weights_spec a1 Fr Fa Ft E ltac:(lra))
    as (a2 & -> & Nr & Na & Nt & Nr0 & Na0 & Npa & Nid & Nx & Ny & Npos & Nc & Nres & Nacc
        & Nret & Nfd & Natt).
  simpl.
  destruct (take_action_spec m u a2 Hs) as
    (a3 & -> & Tr & Ta & Tler & Tlea & Tret & Tres & Tpa & Tpr & Tpc & Tpt & Tid & Tx & Ty
     & Tpos & Tc & Tfd & Tatt); [congruence | congruence |].
  eexists; split; [reflexivity|]. split; [|split; [|split]].
  - split; try congruence; auto.
  - rewrite Nres, Fres in Tler. rewrite Nacc, Facc in Tlea.
    split; try congruence; auto.
    intros H. apply Tret. congruence.
  - congruence.
  - intros H2 Hu. destruct Tres as [Hlt|Heq]; [|congruence].
    exfalso. specialize (Fr0 H2). rewrite Fr0 in Nr0. specialize (Nr0 ltac:(reflexivity)). lra.
Qed.

(** ** Model invariants *)

Lemma store_le_refl (s : list Household) : store_le s s.
Proof. split; [reflexivity|]. intros i a H. eauto using agent_le_refl. Qed.

Lemma store_le_trans (s1 s2 s3 : list Household) :
  store_le s1 s2 → store_le s2 s3 → store_le s1 s3.
Proof.
  intros [L1 H1] [L2 H2]. split; [congruence|].
  intros i a Ha. destruct (H1 i a Ha) as (b & Hb & Hab).
  destruct (H2 i b Hb) as (c & Hc & Hbc). eauto using agent_le_trans.
Qed.

Lemma store_le_insert (s : list Household) (i : nat) (a a' : Household) :
  s !! i = Some a → agent_le a a' → store_le s (<[i := a']> s).
Proof.
  intros Hi Hle. split; [apply length_insert|].
  intros k b Hk. destruct (decide (k = i)) as [->|Hne].
  - exists a'. split.
    + apply list_lookup_insert_eq. eapply lookup_lt_Some; eauto.
    + congruence.
  - exists b. split; [|apply agent_le_refl].
    rewrite list_lookup_insert_ne; auto.
Qed.

Lemma Core_ext (m m' : Model) :
  Core m →
  schedule m' = schedule m → agent_list m' = agent_list m → grid m' = grid m →
  num_agents m' = num_agents m →
  (0 ≤ community_resistance m' ≤ 3)%Z →
  (1 ≤ accommodation_incentive m')%Z → (1 ≤ retreat_incentive m')%Z →
  Core m'.
Proof.
  intros [] Hs Hl Hg Hn Hc Ha Hr.
  split; rewrite ?Hs, ?Hl, ?Hg, ?Hn; auto.
Qed.

(** Writing an updated household object back into the store. *)
Lemma Core_update (m : Model) (i : nat) (a a' : Household) :
  Core m → agent_list m !! i = Some a →
  good_agent a' → agent_le a a' → connections a' = connections a →
  Core (set_agent_list (<[i := a']> (agent_list m)) m).
Proof.
  intros [Hn Hd Hs Ha Hcr Hai Hri Hg] Hi Hgood Hle Hconn.
  pose proof (lookup_lt_Some _ _ _ Hi) as Hlt.
  split; simpl; auto.
  - intros k Hk. rewrite length_insert. auto.
  - intros k b Hk. rewrite length_insert.
    destruct (decide (k = i)) as [->|Hne].
    + rewrite list_lookup_insert_eq in Hk by exact Hlt. injection Hk as <-.
      destruct (Ha i a Hi) as (H1 & H2 & H3 & H4).
      split; [|split; [|split]].
      * destruct Hle. congruence.
      * exact Hgood.
      * rewrite Hconn. exact H3.
      * intros Hf. apply H4. destruct Hle as [_ _ _ _ _ _ Hr].
        destruct (retreated a); [|reflexivity].
        rewrite Hr in Hf; [discriminate | reflexivity].
    + rewrite list_lookup_insert_ne in Hk by auto. apply Ha. exact Hk.
  - intros p k Hk. destruct (Hg p k Hk) as (H1 & b & Hb & Hp). split; [exact H1|].
    destruct (decide (k = i)) as [->|Hne].
    + exists a'. split; [apply list_lookup_insert_eq; exact Hlt|].
      destruct Hle. congruence.
    + exists b. split; [|exact Hp]. rewrite list_lookup_insert_ne; auto.
Qed.

Lemma Inv_update (m : Model) (i : nat) (a a' : Household) :
  Inv m → agent_list m !! i = Some a →
  good_agent a' → agent_le a a' → connections a' = connections a →
  retreated a' = retreated a →
  Inv (set_agent_list (<[i := a']> (agent_list m)) m).
Proof.
  intros [Hc Hr] Hi Hgood Hle Hconn Hret. split.
  - eapply Core_update; eauto.
  - simpl. intros k b Hk Hin. pose proof (lookup_lt_Some _ _ _ Hi) as Hlt.
    destruct (decide (k = i)) as [->|Hne].
    + rewrite list_lookup_insert_eq in Hk by exact Hlt. injection Hk as <-.
      rewrite Hret. eauto.
    + rewrite list_lookup_insert_ne in Hk by auto. eauto.
Qed.

Lemma Inv_ext (m m' : Model) :
  Inv m →
  schedule m' = schedule m → agent_list m' = agent_list m → grid m' = grid m →
  num_agents m' = num_agents m →
  (0 ≤ community_resistance m' ≤ 3)%Z →
  (1 ≤ accommodation_incentive m')%Z → (1 ≤ retreat_incentive m')%Z →
  Inv m'.
Proof.
  intros [Hc Hr] Hs Hl Hg Hn Hcr Ha Hri. split.
  - eapply Core_ext; eauto.
  - rewrite Hs, Hl. exact Hr.
Qed.

(** *** Community adaptation *)

Lemma with_incentives_id (m : Model) :
  m = with_incentives (p_adapt m) (community_resistance m) (accommodation_incentive m)
        (retreat_incentive m) m.
Proof. destruct m. reflexivity. Qed.

Lemma roster_totals_spec (m : Model) :
  Core m → ∃ t, roster_totals m = Some t ∧ 0 <= t.1.
Proof.
  intros Hc. unfold roster_totals.
  destruct (foldM_total
    (fun t i => a ← agent_list m !! i; Some (t.1 + flood_damage a, t.2 + inundation a))
    (fun _ t => 0 <= t.1) (schedule m) (0, 0)) as (t & Ht & HP).
  - simpl. lra.
  - intros pre i post t Heq Ht.
    assert (Hi : (i < length (agent_list m))%nat).
    { apply (core_sched m Hc). rewrite Heq. apply elem_of_app. right. left. }
    apply lookup_lt_is_Some in Hi as [a Ha]. rewrite Ha. simpl.
    eexists; split; [reflexivity|]. simpl.
    destruct (core_agents m Hc i a Ha) as (_ & Hg & _). destruct Hg. lra.
  - eauto.
Qed.

Lemma adaptation_staircase_spec (u : Q) (m : Model) :
  0 <= p_adapt m → (0 ≤ community_resistance m ≤ 3)%Z →
  ∃ cr ai ri,
    adaptation_staircase u m = with_incentives (p_adapt m) cr ai ri m
    ∧ (community_resistance m ≤ cr ≤ 3)%Z
    ∧ (accommodation_incentive m ≤ ai)%Z ∧ (retreat_incentive m ≤ ri)%Z
    ∧ ((community_resistance m < 3)%Z → ai = accommodation_incentive m)
    ∧ ((cr - community_resistance m) + (ai - accommodation_incentive m)
       + (ri - retreat_incentive m) ≤ 1)%Z.
Proof.
  intros Hp Hcr. unfold adaptation_staircase.
  qtest (community_resistance m <? 3)%Z.
  - qtest (u <? p_adapt m * 0.6).
    { exists (community_resistance m + 1)%Z, (accommodation_incentive m), (retreat_incentive m).
      split; [reflexivity|]. lia. }
    qtest (u <? p_adapt m * 0.3); [exfalso; lra|].
    qtest (u <? p_adapt m).
    { exists (community_resistance m), (accommodation_incentive m), (retreat_incentive m + 1)%Z.
      split; [reflexivity|]. lia. }
    exists (community_resistance m), (accommodation_incentive m), (retreat_incentive m).
    split; [destruct m; reflexivity|]. lia.
  - qtest (u <? p_adapt m * 0.7).
    { exists (community_resistance m), (accommodation_incentive m + 1)%Z, (retreat_incentive m).
      split; [reflexivity|]. lia. }
    qtest (u <? p_adapt m).
    { exists (community_resistance m), (accommodation_incentive m), (retreat_incentive m + 1)%Z.
      split; [reflexivity|]. lia. }
    exists (community_resistance m), (accommodation_incentive m), (retreat_incentive m).
    split; [destruct m; reflexivity|]. lia.
Qed.

Lemma incentive_decay_spec (u1 u2 : Q) (m : Model) :
  (1 ≤ accommodation_incentive m)%Z → (1 ≤ retreat_incentive m)%Z →
  ∃ ai ri,
    incentive_decay u1 u2 m = with_incentives (p_adapt m) (community_resistance m) ai ri m
    ∧ (1 ≤ ai ≤ accommodation_incentive m)%Z ∧ (1 ≤ ri ≤ retreat_incentive m)%Z.
Proof.
  intros Ha Hr. unfold incentive_decay.
  destruct (u1 <? 0.1), (u2 <? 0.1); simpl.
  - exists (Z.max 1 (accommodation_incentive m - 1)), (Z.max 1 (retreat_incentive m - 1)).
    split; [reflexivity | lia].
  - exists (Z.max 1 (accommodation_incentive m - 1)), (retreat_incentive m).
    split; [reflexivity | lia].
  - exists (accommodation_incentive m), (Z.max 1 (retreat_incentive m - 1)).
    split; [reflexivity | lia].
  - exists (accommodation_incentive m), (retreat_incentive m).
    split; [destruct m; reflexivity | lia].
Qed.

(** [community_adaptation] on a well-formed model: it returns, touches
    only its four fields, and keeps them within their bounds. *)
Lemma community_adaptation_spec (u u1 u2 : Q) (m : Model) :
  Core m →
  ∃ m' p cr ai ri,
    community_adaptation u u1 u2 m = Some m'
    ∧ m' = with_incentives p cr ai ri m
    ∧ (community_resistance m ≤ cr ≤ 3)%Z ∧ (1 ≤ ai)%Z ∧ (1 ≤ ri)%Z
    ∧ ((community_resistance m < 3)%Z → (ai ≤ accommodation_incentive m)%Z)
    ∧ (schedule m ≠ [] → 0.1 <= p).
Proof.
  intros Hc. unfold community_adaptation.
  destruct (roster_totals_spec m Hc) as (t & -> & Ht). simpl.
  pose proof (core_count m Hc) as Hn.
  pose proof (core_resistance m Hc) as Hcr.
  pose proof (core_accommodation m Hc) as Hai.
  pose proof (core_retreat m Hc) as Hri.
  qtest (0 <? num_agents m)%Z.
  - pose proof (inject_Z_pos _ E) as Hq.
    rewrite !pydiv_Some by lra. simpl.
    set (p := action_curve _ _).
    assert (Hp : 0.1 <= p).
    { subst p. apply action_curve_lower.
      - apply Q.min_glb; [lra | apply Qdiv_nonneg; assumption].
      - apply Q.le_min_l.
      - apply Q.le_max_l.
      - apply Q.max_lub; [lra|]. eapply Qle_trans; [apply Q.le_min_r | lra]. }
    destruct (adaptation_staircase_spec u (set_p_adapt p m))
      as (cr & ai & ri & Hst & H1 & H2 & H3 & H4 & _); simpl; [lra | lia |].
    simpl in *. rewrite Hst.
    destruct (incentive_decay_spec u1 u2 (with_incentives p cr ai ri (set_p_adapt p m)))
      as (ai' & ri' & Hdec & H5 & H6); simpl; [lia | lia |].
    simpl in *. rewrite Hdec.
    exists (with_incentives p cr ai' ri' m), p, cr, ai', ri'.
    split; [reflexivity|]. split; [reflexivity|].
    repeat split; try lia. intros _. exact Hp.
  - exists m, (p_adapt m), (community_resistance m), (accommodation_incentive m),
      (retreat_incentive m).
    split; [reflexivity|]. split; [apply with_incentives_id|].
    repeat split; try lia.
    intros Hne. exfalso. destruct (schedule m); [congruence | simpl in Hn; lia].
Qed.

(** *** The two scheduler phases *)

Lemma agent_step_spec (d : Draws) (m : Model) (i : nat) :
  Inv m → i ∈ schedule m →
  ∃ l, agent_step d m i = Some (set_agent_list l m)
       ∧ Inv (set_agent_list l m) ∧ store_le (agent_list m) l
       ∧ ∀ k, k ≠ i → l !! k = agent_list m !! k.
Proof.
  intros [Hc Hr] Hi. unfold agent_step.
  pose proof (core_sched m Hc i Hi) as Hlt.
  apply lookup_lt_is_Some in Hlt as [a Ha]. rewrite Ha. simpl.
  destruct (core_agents m Hc i a Ha) as (_ & Hg & Hconn & _).
  destruct (Household_step_spec m (capacity_noise d i) a Hg Hconn)
    as (a' & -> & Hg' & Hle & Hc' & Hret & _).
  simpl. eexists; split; [reflexivity|]. split; [|split].
  - apply Inv_update with a; auto. split; assumption.
  - eapply store_le_insert; eauto.
  - intros k Hk. apply list_lookup_insert_ne. auto.
Qed.

Lemma agent_advance_spec (d : Draws) (m : Model) (i : nat) :
  Core m → i ∈ schedule m →
  ∃ l, agent_advance d m i = Some (set_agent_list l m)
       ∧ Core (set_agent_list l m) ∧ store_le (agent_list m) l
       ∧ ∀ k, k ≠ i → l !! k = agent_list m !! k.
Proof.
  intros Hc Hi. unfold agent_advance.
  pose proof (core_sched m Hc i Hi) as Hlt.
  apply lookup_lt_is_Some in Hlt as [a Ha]. rewrite Ha. simpl.
  destruct (core_agents m Hc i a Ha) as (_ & Hg & _).
  destruct (make_decision_spec m (decide_x d i) a Hg (core_accommodation m Hc)
              (core_retreat m Hc) (core_sched m Hc)) as (a' & -> & Hg' & Hle & Hc' & _).
  simpl. eexists; split; [reflexivity|]. split; [|split].
  - apply Core_update with a; auto.
  - eapply store_le_insert; eauto.
  - intros k Hk. apply list_lookup_insert_ne. auto.
Qed.

(** [schedule.step()] returns, writes only into the object store, and
    leaves the model well-formed (retreated households still enrolled). *)
Lemma schedule_step_spec (d : Draws) (m : Model) :
  Inv m →
  ∃ l, schedule_step d m = Some (set_agent_list l m)
       ∧ Core (set_agent_list l m) ∧ store_le (agent_list m) l
       ∧ ∀ k, k ∉ schedule m → l !! k = agent_list m !! k.
Proof.
  intros Hinv. unfold schedule_step.
  destruct (foldM_total (agent_step d)
    (fun _ t => ∃ l, t = set_agent_list l m ∧ Inv t ∧ store_le (agent_list m) l
                     ∧ ∀ k, k ∉ schedule m → l !! k = agent_list m !! k)
    (schedule m) m) as (m1 & -> & l1 & -> & Hinv1 & Hle1 & Hun1).
  - exists (agent_list m). split; [destruct m; reflexivity|].
    split; [exact Hinv|]. split; [apply store_le_refl | auto].
  - intros pre i post t Heq (l & -> & Ht & Hle & Hun).
    assert (Hi : i ∈ schedule m) by (rewrite Heq; apply elem_of_app; right; left).
    destruct (agent_step_spec d (set_agent_list l m) i Ht Hi) as (l' & Hs & Hinv' & Hle' & Hun').
    cbn [agent_list set_agent_list] in *. eexists; split; [exact Hs|].
    exists l'. split; [reflexivity|]. split; [exact Hinv'|].
    split; [eapply store_le_trans; eauto|].
    intros k Hk. rewrite Hun' by (intros ->; contradiction). auto.
  - cbn [mbind option_bind schedule set_agent_list].
    destruct (foldM_total (agent_advance d)
      (fun _ t => ∃ l, t = set_agent_list l m ∧ Core t ∧ store_le (agent_list m) l
                       ∧ ∀ k, k ∉ schedule m → l !! k = agent_list m !! k)
      (schedule m) (set_agent_list l1 m)) as (m2 & -> & l2 & -> & Hc2 & Hle2 & Hun2).
    + exists l1. split; [reflexivity|]. split; [apply Hinv1 | auto].
    + intros pre i post t Heq (l & -> & Ht & Hle & Hun).
      assert (Hi : i ∈ schedule m) by (rewrite Heq; apply elem_of_app; right; left).
      destruct (agent_advance_spec d (set_agent_list l m) i Ht Hi)
        as (l' & Hs & Hc' & Hle' & Hun').
      cbn [agent_list set_agent_list] in *. eexists; split; [exact Hs|].
      exists l'. split; [reflexivity|]. split; [exact Hc'|].
      split; [eapply store_le_trans; eauto|].
      intros k Hk. rewrite Hun' by (intros ->; contradiction). auto.
    + exists l2. auto.
Qed.

(** *** Removal of retreated households *)

Lemma with_roster_id (m : Model) : m = with_roster (schedule m) (grid m) (num_agents m) m.
Proof. destruct m. reflexivity. Qed.

Lemma reap_agent_spec (m : Model) (i : nat) :
  Core m → (i < length (agent_list m))%nat →
  ∃ s g n, reap_agent m i = Some (with_roster s g n m)
    ∧ Core (with_roster s g n m)
    ∧ (n ≤ num_agents m)%Z
    ∧ (∀ k, k ∈ s → k ∈ schedule m)
    ∧ (∀ p k, g !! p = Some k → grid m !! p = Some k)
    ∧ (∀ a, agent_list m !! i = Some a → i ∈ s → retreated a = false).
Proof.
  intros Hc Hlt. unfold reap_agent.
  apply lookup_lt_is_Some in Hlt as [a Ha]. rewrite Ha. simpl.
  destruct (core_agents m Hc i a Ha) as (Hid & Hg & Hconn & Hsch).
  destruct (retreated a) eqn:Hret; simpl.
  - destruct (bool_decide (i ∈ schedule m)) eqn:Hin.
    + apply bool_decide_eq_true in Hin.
      destruct (good_pos a Hg) as [p Hp]. rewrite Hp. simpl.
      exists (remove_first i (schedule m)), (delete p (grid m)), (num_agents m - 1)%Z.
      split; [reflexivity|].
      pose proof (core_nodup m Hc) as Hnd.
      split; [|split; [lia | split; [|split]]].
      * destruct Hc as [Hn _ Hs Hag Hcr Hai Hri Hgr].
        split; simpl; auto.
        -- rewrite Hn, (remove_first_length i (schedule m) Hin). lia.
        -- apply remove_first_NoDup. exact Hnd.
        -- intros k Hk. apply Hs. eapply remove_first_subset; eauto.
        -- intros k b Hb. destruct (Hag k b Hb) as (H1 & H2 & H3 & H4).
           split; [exact H1|]. split; [exact H2|]. split; [exact H3|].
           intros Hf. apply remove_first_other; auto.
           intros ->. congruence.
        -- intros q k Hq. destruct (decide (q = p)) as [->|Hne].
           { rewrite lookup_delete_eq in Hq. discriminate. }
           rewrite lookup_delete_ne in Hq by auto.
           destruct (Hgr q k Hq) as (H1 & b & Hb & Hpb). split; [|eauto].
           apply remove_first_other; auto. intros ->. congruence.
      * intros k Hk. eapply remove_first_subset; eauto.
      * intros q k Hq. destruct (decide (q = p)) as [->|Hne].
        { rewrite lookup_delete_eq in Hq. discriminate. }
        rewrite lookup_delete_ne in Hq by auto. exact Hq.
      * intros b Hb Hi. exfalso. eapply remove_first_gone; eauto.
    + apply bool_decide_eq_false in Hin.
      exists (schedule m), (grid m), (num_agents m).
      split; [f_equal; apply with_roster_id|].
      rewrite <- with_roster_id.
      split; [exact Hc|]. split; [lia|]. split; [auto|]. split; [auto|].
      intros b Hb Hi. contradiction.
  - exists (schedule m), (grid m), (num_agents m).
    split; [f_equal; apply with_roster_id|].
    rewrite <- with_roster_id.
    split; [exact Hc|]. split; [lia|]. split; [auto|]. split; [auto|].
    intros b Hb Hi. congruence.
Qed.

(** After the removal loop the roster holds exactly the households that
    have not retreated, and the population count matches it. *)
Lemma reap_spec (m : Model) :
  Core m →
  ∃ s g n, reap m = Some (with_roster s g n m)
    ∧ Inv (with_roster s g n m)
    ∧ (n ≤ num_agents m)%Z
    ∧ (∀ k, k ∈ s → k ∈ schedule m)
    ∧ (∀ p k, g !! p = Some k → grid m !! p = Some k).
Proof.
  intros Hc. unfold reap.
  destruct (foldM_total reap_agent
    (fun pre t => ∃ s g n, t = with_roster s g n m ∧ Core t
       ∧ (n ≤ num_agents m)%Z
       ∧ (∀ k, k ∈ s → k ∈ schedule m)
       ∧ (∀ p k, g !! p = Some k → grid m !! p = Some k)
       ∧ (∀ i a, i ∈ pre → agent_list m !! i = Some a → i ∈ s → retreated a = false))
    (seq 0 (length (agent_list m))) m)
    as (m' & Hm' & s & g & n & -> & Hc' & Hn & Hs & Hg & Hdone).
  - exists (schedule m), (grid m), (num_agents m).
    split; [apply with_roster_id|].
    split; [exact Hc|]. split; [lia|]. split; [auto|]. split; [auto|].
    intros i a Hi. inversion Hi.
  - intros pre i post t Heq (s & g & n & -> & Ht & Hn & Hs & Hg & Hdone).
    assert (Hi : (i < length (agent_list m))%nat).
    { assert (Hin : i ∈ seq 0 (length (agent_list m))).
      { rewrite Heq. apply elem_of_app. right. left. }
      apply elem_of_seq in Hin. lia. }
    destruct (reap_agent_spec (with_roster s g n m) i Ht Hi)
      as (s' & g' & n' & Hr & Hc' & Hn' & Hs' & Hg' & Hi').
    simpl in *. eexists; split; [exact Hr|].
    exists s', g', n'. split; [reflexivity|]. split; [exact Hc'|].
    split; [lia|]. split; [auto|]. split; [auto|].
    intros k a Hk Ha Hks. apply elem_of_app in Hk as [Hk|Hk].
    + eapply Hdone; eauto.
    + apply list_elem_of_singleton in Hk. subst k. eauto.
  - exists s, g, n. split; [exact Hm'|]. split; [|auto].
    split; [exact Hc'|]. simpl. intros i a Ha Hi.
    eapply Hdone; eauto. apply elem_of_seq. apply lookup_lt_Some in Ha. lia.
Qed.

(** *** One year *)

(** [AdaptationModel.step] on a well-formed model returns a well-formed
    model; the summary lists everything the later theorems use. *)
Lemma step_spec (d : Draws) (m : Model) :
  Inv m →
  ∃ m', step d m = Some m' ∧ Inv m'
    ∧ store_le (agent_list m) (agent_list m')
    ∧ (num_agents m' ≤ num_agents m)%Z
    ∧ (∀ k, k ∈ schedule m' → k ∈ schedule m)
    ∧ (∀ p k, grid m' !! p = Some k → grid m !! p = Some k)
    ∧ (community_resistance m ≤ community_resistance m')%Z
    ∧ ((community_resistance m < 3)%Z →
       (accommodation_incentive m' ≤ accommodation_incentive m)%Z)
    ∧ (schedule m ≠ [] → 0.1 <= p_adapt m')
    ∧ tick m' = (tick m + 1)%Z
    ∧ (Population <$> last (datacollector m')) = Some (num_agents m')
    ∧ (∀ k, k ∉ schedule m → agent_list m' !! k = agent_list m !! k).
Proof.
  intros Hinv. unfold step.
  set (m1 := calculate_storm_surge (surge_log d) (calculate_inundation m)).
  assert (F : schedule m1 = schedule m ∧ agent_list m1 = agent_list m ∧ grid m1 = grid m
              ∧ num_agents m1 = num_agents m
              ∧ community_resistance m1 = community_resistance m
              ∧ accommodation_incentive m1 = accommodation_incentive m
              ∧ retreat_incentive m1 = retreat_incentive m ∧ tick m1 = tick m).
  { repeat split. }
  destruct F as (Fs & Fl & Fg & Fn & Fcr & Fai & Fri & Ft).
  clearbody m1.
  assert (Hinv1 : Inv m1).
  { apply (Inv_ext m); auto; rewrite ?Fcr, ?Fai, ?Fri; apply Hinv. }
  (* community adaptation *)
  destruct (community_adaptation_spec (adapt_x d) (decay_accommodation d) (decay_retreat d) m1)
    as (m2 & p & cr & ai & ri & -> & E2 & Hcr & Hai & Hri & Hai' & Hp); [apply Hinv1|].
  cbn [mbind option_bind].
  assert (F2 : schedule m2 = schedule m1 ∧ agent_list m2 = agent_list m1 ∧ grid m2 = grid m1
               ∧ num_agents m2 = num_agents m1 ∧ community_resistance m2 = cr
               ∧ accommodation_incentive m2 = ai ∧ retreat_incentive m2 = ri
               ∧ tick m2 = tick m1 ∧ p_adapt m2 = p).
  { rewrite E2. repeat split. }
  clear E2. destruct F2 as (Gs & Gl & Gg & Gn & Gcr & Gai & Gri & Gt & Gp).
  assert (Hinv2 : Inv m2).
  { apply (Inv_ext m1); auto; rewrite ?Gcr, ?Gai, ?Gri; auto.
    pose proof (core_resistance m1 (proj1 Hinv1)). lia. }
  (* the scheduler *)
  destruct (schedule_step_spec d m2 Hinv2) as (l & -> & Hc3 & Hle & Hun).
  cbn [mbind option_bind].
  set (m3 := set_agent_list l m2) in *.
  assert (F3 : schedule m3 = schedule m2 ∧ agent_list m3 = l ∧ grid m3 = grid m2
               ∧ num_agents m3 = num_agents m2
               ∧ community_resistance m3 = community_resistance m2
               ∧ accommodation_incentive m3 = accommodation_incentive m2
               ∧ retreat_incentive m3 = retreat_incentive m2
               ∧ tick m3 = tick m2 ∧ p_adapt m3 = p_adapt m2).
  { repeat split. }
  clearbody m3. destruct F3 as (Ks & Kl & Kg & Kn & Kcr & Kai & Kri & Kt & Kp).
  (* removal *)
  destruct (reap_spec m3 Hc3) as (s & g & n & -> & Hinv4 & Hn & Hs & Hg).
  cbn [mbind option_bind].
  set (m4 := with_roster s g n m3) in *.
  assert (F4 : schedule m4 = s ∧ agent_list m4 = agent_list m3 ∧ grid m4 = g
               ∧ num_agents m4 = n
               ∧ community_resistance m4 = community_resistance m3
               ∧ accommodation_incentive m4 = accommodation_incentive m3
               ∧ retreat_incentive m4 = retreat_incentive m3
               ∧ tick m4 = tick m3 ∧ p_adapt m4 = p_adapt m3).
  { repeat split. }
  clearbody m4. destruct F4 as (Ls & Ll & Lg & Ln & Lcr & Lai & Lri & Lt & Lp).
  eexists; split; [reflexivity|].
  cbn [schedule agent_list grid num_agents community_resistance accommodation_incentive
       retreat_incentive tick p_adapt datacollector set_tick collect set_datacollector].
  split; [|split; [|split; [|split; [|split; [|split; [|split; [|split; [|split; [|split]]]]]]]]].
  - destruct Hinv4 as [Hc4 Hr4].
    split; [apply (Core_ext _ _ Hc4); try reflexivity; apply Hc4 | exact Hr4].
  - rewrite Ll, Kl, <- Fl, <- Gl. exact Hle.
  - lia.
  - rewrite Ls, <- Fs, <- Gs, <- Ks. exact Hs.
  - rewrite Lg, <- Fg, <- Gg, <- Kg. exact Hg.
  - lia.
  - rewrite Lai, Kai, Gai, <- Fcr, <- Fai. exact Hai'.
  - rewrite Lp, Kp, Gp, <- Fs. exact Hp.
  - rewrite Lt, Kt, Gt, Ft. reflexivity.
  - rewrite last_snoc. cbn. reflexivity.
  - intros k Hk. rewrite Ll, Kl, <- Fl, <- Gl. apply Hun. rewrite Gs, Fs. exact Hk.
Qed.

(** ** Construction establishes the invariant *)

Lemma seq_split_head (n : nat) (pre post : list nat) (a : nat) :
  seq 0 n = pre ++ a :: post → a = length pre.
Proof.
  intros H.
  assert (Hl : seq 0 n !! length pre = Some a).
  { rewrite H. rewrite lookup_app_r by lia. rewrite Nat.sub_diag. reflexivity. }
  apply lookup_seq in Hl. lia.
Qed.

Lemma create_agent_built (locations : list Z) (capacity : nat → Q) (n k : nat) (t t' : Model) :
  built n k t → create_agent locations capacity t k = Some t' → built n (Datatypes.S k) t'.
Proof.
  intros [Hn Hcr Hai Hri Hs Hl Ha Hg]. unfold create_agent.
  destruct (locations !! k) as [loc|]; [|discriminate]. cbn [mbind option_bind].
  destruct (pydivmod loc (height t)) as [xy|]; [|discriminate]. cbn [mbind option_bind].
  unfold Household_init.
  destruct (pydiv (inject_Z xy.1) (inject_Z (width t))) as [e|]; [|discriminate].
  cbn [mbind option_bind]. unfold place_agent.
  cbn [grid set_schedule x y].
  destruct (grid t !! (xy.1, xy.2)) as [occupant|] eqn:Hcell; [discriminate|].
  cbn [mbind option_bind fst snd]. intros [= <-].
  split;
    cbn [schedule agent_list grid num_agents community_resistance accommodation_incentive
         retreat_incentive set_agent_list set_grid set_schedule fst snd]; auto.
  - rewrite Hs, Hl. rewrite seq_S. reflexivity.
  - rewrite length_app, Hl. simpl. lia.
  - intros i a Hi. apply lookup_app_Some in Hi as [Hi|[Hge Hi]]; [eauto|].
    rewrite Hl in *. destruct (i - k)%nat as [|j] eqn:Hj; [|discriminate].
    injection Hi as <-. cbn.
    split; [lia|]. split; [|auto].
    split; cbn; unfold ladder; try lra; eauto.
  - intros p i Hp. destruct (decide (p = (xy.1, xy.2))) as [->|Hne].
    + rewrite lookup_insert_eq in Hp. injection Hp as <-.
      eexists. split; [rewrite lookup_app_r, Nat.sub_diag by lia; reflexivity|].
      reflexivity.
    + rewrite lookup_insert_ne in Hp by auto.
      destruct (Hg p i Hp) as (a & Hi & Hpos). exists a. split; [|exact Hpos].
      apply lookup_app_l_Some. exact Hi.
Qed.

Lemma AdaptationModel_init_built (w h : Z) (n : nat) (slr : Q) (mode : string) (param : Q)
    (t0 : Z) (locations : list Z) (capacity : nat → Q) (m : Model) :
  AdaptationModel_init w h n slr mode param t0 locations capacity = Some m →
  built n n m.
Proof.
  unfold AdaptationModel_init, blank_model. intros H.
  cut (built n (length (seq 0 n)) m); [rewrite length_seq; auto|].
  revert H. apply (foldM_inv _ (fun pre t => built n (length pre) t)).
  - split; cbn; auto.
    + intros i a Hi. rewrite lookup_nil in Hi. discriminate.
    + intros p i Hp. rewrite lookup_empty in Hp. discriminate.
  - intros pre a post t t' Heq Hb Hc.
    apply seq_split_head in Heq. subst a.
    rewrite length_app. simpl. rewrite Nat.add_1_r.
    eapply create_agent_built; eauto.
Qed.

Lemma built_Inv (n : nat) (m : Model) : built n n m → Inv m.
Proof.
  intros [Hn Hcr Hai Hri Hs Hl Ha Hg]. split; [split|].
  - rewrite Hn, Hs, length_seq. reflexivity.
  - rewrite Hs. apply NoDup_ListNoDup, List.seq_NoDup.
  - intros i Hi. rewrite Hs in Hi. apply elem_of_seq in Hi. lia.
  - intros i a Hi. destruct (Ha i a Hi) as (H1 & H2 & H3 & H4).
    split; [exact H1|]. split; [exact H2|]. split.
    + intros j Hj. rewrite H3 in Hj. inversion Hj.
    + intros _. rewrite Hs. apply elem_of_seq. apply lookup_lt_Some in Hi. lia.
  - lia.
  - lia.
  - lia.
  - intros p i Hp. destruct (Hg p i Hp) as (a & Hi & Hpos). split; [|eauto].
    rewrite Hs. apply elem_of_seq. apply lookup_lt_Some in Hi. lia.
  - intros i a Hi _. apply (Ha i a Hi).
Qed.


(** ** Social network construction *)

Lemma set_connections_id (a : Household) : a = set_connections (connections a) a.
Proof. destruct a. reflexivity. Qed.

Lemma net_store_refl (m : Model) : Core m → net_store (agent_list m) (agent_list m).
Proof.
  intros Hc. split; [reflexivity|]. intros i a Hi. exists a.
  split; [exact Hi|]. split; [apply set_connections_id|].
  apply (core_agents m Hc i a Hi).
Qed.

Lemma net_store_Inv (m : Model) (l : list Household) :
  Inv m → net_store (agent_list m) l → Inv (set_agent_list l m).
Proof.
  intros [Hc Hr] [Hlen Hnet].
  assert (Hback : ∀ i a', l !! i = Some a' →
            ∃ a, agent_list m !! i = Some a ∧ a' = set_connections (connections a') a
                 ∧ ∀ j, j ∈ connections a' → (j < length (agent_list m))%nat).
  { intros i a' Hi. pose proof (lookup_lt_Some _ _ _ Hi) as Hlt. rewrite Hlen in Hlt.
    apply lookup_lt_is_Some in Hlt as [a Ha]. destruct (Hnet i a Ha) as (b & Hb & Heq & Hv).
    exists a. rewrite Hb in Hi. injection Hi as <-. auto. }
  split; [split|]; cbn; try apply Hc.
  - intros i Hi. rewrite Hlen. apply (core_sched m Hc i Hi).
  - intros i a' Hi. destruct (Hback i a' Hi) as (a & Ha & Heq & Hv).
    destruct (core_agents m Hc i a Ha) as (H1 & H2 & H3 & H4).
    rewrite Heq. cbn. split; [exact H1|]. split; [|split; [|exact H4]].
    + destruct H2. split; auto.
    + rewrite Hlen. exact Hv.
  - intros p i Hp. destruct (core_grid m Hc p i Hp) as (H1 & a & Ha & Hpos).
    split; [exact H1|]. destruct (Hnet i a Ha) as (a' & Ha' & Heq & _).
    exists a'. split; [exact Ha'|]. rewrite Heq. exact Hpos.
  - intros i a' Hi Hin. destruct (Hback i a' Hi) as (a & Ha & Heq & _).
    rewrite Heq. cbn. eauto.
Qed.

Lemma add_connection_spec (m : Model) (l : list Household) (i j : nat) :
  net_store (agent_list m) l →
  (i < length (agent_list m))%nat → (j < length (agent_list m))%nat →
  ∃ l', add_connection i j (set_agent_list l m) = Some (set_agent_list l' m)
        ∧ net_store (agent_list m) l'
        ∧ ∀ k, conn l' k = conn l k ++ (if decide (k = i) then [j] else []).
Proof.
  intros [Hlen Hnet] Hi Hj. unfold add_connection. cbn [agent_list set_agent_list].
  apply lookup_lt_is_Some in Hi as [a Ha].
  destruct (Hnet i a Ha) as (a' & Ha' & Heq & Hv). rewrite Ha'. cbn [mbind option_bind].
  pose proof (lookup_lt_Some _ _ _ Ha') as Hlt.
  eexists; split; [reflexivity|]. split; [split|].
  - rewrite length_insert. exact Hlen.
  - intros k b Hb. destruct (decide (k = i)) as [->|Hne].
    + rewrite list_lookup_insert_eq by exact Hlt.
      eexists; split; [reflexivity|]. cbn.
      assert (b = a) by congruence. subst b. split.
      * rewrite Heq. reflexivity.
      * intros v Hin. apply elem_of_app in Hin as [Hin|Hin]; [auto|].
        apply list_elem_of_singleton in Hin. subst v. exact Hj.
    + rewrite list_lookup_insert_ne by auto. apply Hnet. exact Hb.
  - intros k. unfold conn. destruct (decide (k = i)) as [->|Hne].
    + rewrite list_lookup_insert_eq by exact Hlt. rewrite Ha'. reflexivity.
    + rewrite list_lookup_insert_ne by auto. rewrite app_nil_r. reflexivity.
Qed.

Lemma connect_spec (m : Model) (l : list Household) (i j : nat) :
  net_store (agent_list m) l →
  (i < length (agent_list m))%nat → (j < length (agent_list m))%nat →
  ∃ l', connect i j (set_agent_list l m) = Some (set_agent_list l' m)
        ∧ net_store (agent_list m) l'
        ∧ ∀ k, conn l' k = conn l k ++ (if decide (k = i) then [j] else [])
                                   ++ (if decide (k = j) then [i] else []).
Proof.
  intros Hnet Hi Hj. unfold connect.
  destruct (add_connection_spec m l i j Hnet Hi Hj) as (l1 & -> & Hnet1 & Hc1).
  cbn [mbind option_bind].
  destruct (add_connection_spec m l1 j i Hnet1 Hj Hi) as (l2 & -> & Hnet2 & Hc2).
  exists l2. split; [reflexivity|]. split; [exact Hnet2|].
  intros k. rewrite Hc2, Hc1, <- app_assoc. reflexivity.
Qed.

Lemma cnt_connect (l l' : list Household) (i j : nat) :
  (∀ k, conn l' k = conn l k ++ (if decide (k = i) then [j] else [])
                             ++ (if decide (k = j) then [i] else [])) →
  ∀ k v, cnt l' k v = (cnt l k v + ind (k = i) * ind (v = j) + ind (k = j) * ind (v = i))%nat.
Proof.
  intros H k v. unfold cnt. rewrite H, !count_occ_app. unfold ind.
  repeat case_decide; subst; simpl;
    repeat match goal with |- context [Nat.eq_dec ?a ?b] => destruct (Nat.eq_dec a b) end;
    subst; try lia; congruence.
Qed.

Lemma ind_snoc (v j : nat) (pre : list nat) :
  j ∉ pre → ind (v ∈ pre ++ [j]) = (ind (v ∈ pre) + ind (v = j))%nat.
Proof.
  intros Hj. unfold ind.
  destruct (decide (v ∈ pre ++ [j])) as [H|H], (decide (v ∈ pre)) as [H1|H1],
    (decide (v = j)) as [H2|H2]; try lia; exfalso.
  - subst. contradiction.
  - apply elem_of_app in H as [H|H]; [contradiction|].
    apply list_elem_of_singleton in H. contradiction.
  - apply H, elem_of_app. left. exact H1.
  - apply H, elem_of_app. left. exact H1.
  - apply H, elem_of_app. right. subst. left.
Qed.

Lemma NoDup_split_fresh (S pre post : list nat) (j : nat) :
  NoDup S → S = pre ++ j :: post → j ∉ pre.
Proof.
  intros Hnd ->. apply NoDup_app in Hnd as (_ & H & _).
  intros Hin. apply (H j Hin). left.
Qed.

Section PairLoops.
(** The two nested loops of [set_init_connections], for any pair body
    that connects exactly the pairs selected by a test [T] which does not
    depend on the connections built so far. *)
Variable m : Model.
Variable body : nat → Model → nat → option Model.
Variable T : nat → nat → bool.
Hypothesis Hcore : Core m.
Hypothesis Hbody : ∀ l i j,
  net_store (agent_list m) l → i ∈ schedule m → j ∈ schedule m →
  body i (set_agent_list l m) j
  = if T i j then connect i j (set_agent_list l m) else Some (set_agent_list l m).

Lemma inner_loop (l : list Household) (i : nat) :
  net_store (agent_list m) l → i ∈ schedule m →
  ∃ l', foldM (body i) (schedule m) (set_agent_list l m) = Some (set_agent_list l' m)
    ∧ net_store (agent_list m) l'
    ∧ ∀ k v, cnt l' k v
             = (cnt l k v + ind (k = i) * ind (v ∈ schedule m) * Nat.b2n (T i v)
                + ind (v = i) * ind (k ∈ schedule m) * Nat.b2n (T i k))%nat.
Proof.
  intros Hnet Hi.
  destruct (foldM_total (body i)
    (fun pre t => ∃ l', t = set_agent_list l' m ∧ net_store (agent_list m) l'
       ∧ ∀ k v, cnt l' k v
                = (cnt l k v + ind (k = i) * ind (v ∈ pre) * Nat.b2n (T i v)
                   + ind (v = i) * ind (k ∈ pre) * Nat.b2n (T i k))%nat)
    (schedule m) (set_agent_list l m)) as (t & Ht & l' & -> & Hnet' & Hcnt).
  - exists l. split; [reflexivity|]. split; [exact Hnet|].
    intros k v. unfold ind at 2 4. rewrite !decide_False by apply not_elem_of_nil. lia.
  - intros pre j post t Heq (l1 & -> & Hnet1 & Hcnt1).
    assert (Hj : j ∈ schedule m) by (rewrite Heq; apply elem_of_app; right; left).
    pose proof (NoDup_split_fresh _ _ _ _ (core_nodup m Hcore) Heq) as Hfresh.
    rewrite (Hbody l1 i j Hnet1 Hi Hj).
    destruct (T i j) eqn:HT.
    + destruct (connect_spec m l1 i j Hnet1 (core_sched m Hcore i Hi)
                  (core_sched m Hcore j Hj)) as (l2 & -> & Hnet2 & Hconn).
      eexists; split; [reflexivity|]. exists l2. split; [reflexivity|].
      split; [exact Hnet2|]. intros k v.
      rewrite (cnt_connect l1 l2 i j Hconn), Hcnt1, !ind_snoc by exact Hfresh.
      unfold ind. repeat case_decide; subst; rewrite ?HT; simpl; lia.
    + eexists; split; [reflexivity|]. exists l1. split; [reflexivity|].
      split; [exact Hnet1|]. intros k v.
      rewrite Hcnt1, !ind_snoc by exact Hfresh.
      unfold ind. repeat case_decide; subst; rewrite ?HT; simpl; lia.
  - exists l'. auto.
Qed.

Lemma outer_loop :
  ∃ l', foldM (fun t i => foldM (body i) (schedule t) t) (schedule m) m
        = Some (set_agent_list l' m)
    ∧ net_store (agent_list m) l'
    ∧ ∀ k v, cnt l' k v
             = (cnt (agent_list m) k v
                + ind (k ∈ schedule m) * ind (v ∈ schedule m)
                  * (Nat.b2n (T k v) + Nat.b2n (T v k)))%nat.
Proof.
  destruct (foldM_total (fun t i => foldM (body i) (schedule t) t)
    (fun pre t => ∃ l', t = set_agent_list l' m ∧ net_store (agent_list m) l'
       ∧ ∀ k v, cnt l' k v
                = (cnt (agent_list m) k v
                   + ind (k ∈ pre) * ind (v ∈ schedule m) * Nat.b2n (T k v)
                   + ind (v ∈ pre) * ind (k ∈ schedule m) * Nat.b2n (T v k))%nat)
    (schedule m) m) as (t & Ht & l' & -> & Hnet' & Hcnt).
  - exists (agent_list m). split; [destruct m; reflexivity|].
    split; [apply net_store_refl; exact Hcore|].
    intros k v. unfold ind at 1 3. rewrite !decide_False by apply not_elem_of_nil. lia.
  - intros pre i post t Heq (l1 & -> & Hnet1 & Hcnt1).
    assert (Hi : i ∈ schedule m) by (rewrite Heq; apply elem_of_app; right; left).
    pose proof (NoDup_split_fresh _ _ _ _ (core_nodup m Hcore) Heq) as Hfresh.
    cbn [schedule set_agent_list].
    destruct (inner_loop l1 i Hnet1 Hi) as (l2 & -> & Hnet2 & Hcnt2).
    eexists; split; [reflexivity|]. exists l2. split; [reflexivity|].
    split; [exact Hnet2|]. intros k v.
    rewrite Hcnt2, Hcnt1, !ind_snoc by exact Hfresh.
    unfold ind. repeat case_decide; subst; simpl; lia.
  - exists l'. split; [exact Ht|]. split; [exact Hnet'|].
    intros k v. rewrite Hcnt. unfold ind. repeat case_decide; simpl; lia.
Qed.
End PairLoops.

Lemma net_store_lookup (l0 l : list Household) (i : nat) :
  net_store l0 l → (i < length l0)%nat →
  ∃ a a', l0 !! i = Some a ∧ l !! i = Some a'
          ∧ unique_id a' = unique_id a ∧ x a' = x a ∧ y a' = y a.
Proof.
  intros [_ Hnet] Hi. apply lookup_lt_is_Some in Hi as [a Ha].
  destruct (Hnet i a Ha) as (a' & Ha' & Heq & _).
  exists a, a'. split; [exact Ha|]. split; [exact Ha'|].
  rewrite Heq. cbn. auto.
Qed.

Lemma spatial_pair_body (m : Model) (radius : Q) (l : list Household) (i j : nat) :
  Core m → net_store (agent_list m) l → i ∈ schedule m → j ∈ schedule m →
  spatial_pair radius i (set_agent_list l m) j
  = if spatial_test (agent_list m) radius i j
    then connect i j (set_agent_list l m) else Some (set_agent_list l m).
Proof.
  intros Hc Hnet Hi Hj. unfold spatial_pair, spatial_test. cbn [agent_list set_agent_list].
  destruct (net_store_lookup _ _ i Hnet (core_sched m Hc i Hi))
    as (ai & ai' & -> & -> & E1 & E2 & E3).
  destruct (net_store_lookup _ _ j Hnet (core_sched m Hc j Hj))
    as (aj & aj' & -> & -> & F1 & F2 & F3).
  cbn [mbind option_bind]. rewrite E1, E2, E3, F1, F2, F3. reflexivity.
Qed.

Lemma aspatial_pair_body (m : Model) (density : Q) (draw : nat → nat → Q)
    (l : list Household) (i j : nat) :
  Core m → net_store (agent_list m) l → i ∈ schedule m → j ∈ schedule m →
  aspatial_pair density draw i (set_agent_list l m) j
  = if aspatial_test (agent_list m) density draw i j
    then connect i j (set_agent_list l m) else Some (set_agent_list l m).
Proof.
  intros Hc Hnet Hi Hj. unfold aspatial_pair, aspatial_test. cbn [agent_list set_agent_list].
  destruct (net_store_lookup _ _ i Hnet (core_sched m Hc i Hi))
    as (ai & ai' & -> & -> & E1 & E2 & E3).
  destruct (net_store_lookup _ _ j Hnet (core_sched m Hc j Hj))
    as (aj & aj' & -> & -> & F1 & F2 & F3).
  cbn [mbind option_bind]. rewrite E1, F1.
  destruct (unique_id ai <? unique_id aj)%nat, (draw i j <? density); reflexivity.
Qed.

(** [set_init_connections] returns, rewrites connections lists only, and
    adds to the list of [k] one copy of [v] for each ordered pair, (k, v)
    or (v, k), that passes the test of the mode. *)
Lemma set_init_connections_spec (draw : nat → nat → Q) (m : Model) :
  Core m →
  ∃ l', set_init_connections draw m = Some (set_agent_list l' m)
    ∧ net_store (agent_list m) l'
    ∧ ∀ k v, cnt l' k v
        = (cnt (agent_list m) k v
           + ind (k ∈ schedule m) * ind (v ∈ schedule m)
             * if String.eqb (network_mode m) "aspatial"
               then Nat.b2n (aspatial_test (agent_list m) (network_parameter m) draw k v)
                    + Nat.b2n (aspatial_test (agent_list m) (network_parameter m) draw v k)
               else Nat.b2n (spatial_test (agent_list m) (network_parameter m) k v)
                    + Nat.b2n (spatial_test (agent_list m) (network_parameter m) v k))%nat.
Proof.
  intros Hc. unfold set_init_connections.
  destruct (String.eqb (network_mode m) "aspatial").
  - apply (outer_loop m _ (aspatial_test (agent_list m) (network_parameter m) draw) Hc).
    intros l i j Hnet Hi Hj. apply aspatial_pair_body; auto.
  - apply (outer_loop m _ (spatial_test (agent_list m) (network_parameter m)) Hc).
    intros l i j Hnet Hi Hj. apply spatial_pair_body; auto.
Qed.

(** ** Every reachable model is well-formed *)

Lemma reachable_Inv (m : Model) : reachable m → Inv m.
Proof.
  induction 1 as [w h n slr mode param t0 locations capacity m Hs Hinit
                 | draw m m' Hr IH Hconn | d m m' Hr IH Hstep].
  - eapply built_Inv, AdaptationModel_init_built; eauto.
  - destruct (set_init_connections_spec draw m (proj1 IH)) as (l & Hl & Hnet & _).
    rewrite Hl in Hconn. injection Hconn as <-. apply net_store_Inv; assumption.
  - destruct (step_spec d m IH) as (m1 & Hm1 & Hinv & _).
    rewrite Hm1 in Hstep. injection Hstep as <-. exact Hinv.
Qed.

(** A run of any length from a well-formed model returns, and the summary
    of [step_spec] extends to it. *)
Lemma run_spec (ds : nat → Draws) (k : nat) (m : Model) :
  Inv m →
  ∃ m', run ds k m = Some m' ∧ Inv m'
    ∧ store_le (agent_list m) (agent_list m')
    ∧ (num_agents m' ≤ num_agents m)%Z
    ∧ (∀ i, i ∈ schedule m' → i ∈ schedule m)
    ∧ (∀ p i, grid m' !! p = Some i → grid m !! p = Some i)
    ∧ (community_resistance m ≤ community_resistance m')%Z
    ∧ (∀ i, i ∉ schedule m → agent_list m' !! i = agent_list m !! i).
Proof.
  intros Hinv. induction k as [|k IH]; simpl.
  - exists m. split; [reflexivity|]. split; [exact Hinv|].
    split; [apply store_le_refl|]. repeat split; auto; lia.
  - destruct IH as (m1 & -> & Hinv1 & Hle1 & Hn1 & Hs1 & Hg1 & Hc1 & Hu1).
    cbn [mbind option_bind].
    destruct (step_spec (ds k) m1 Hinv1)
      as (m2 & -> & Hinv2 & Hle2 & Hn2 & Hs2 & Hg2 & Hc2 & _ & _ & _ & _ & Hu2).
    exists m2. split; [reflexivity|]. split; [exact Hinv2|].
    split; [eapply store_le_trans; eauto|].
    split; [lia|]. split; [auto|]. split; [auto|]. split; [lia|].
    intros i Hi. rewrite Hu2 by auto. auto.
Qed.

Lemma reachable_run (ds : nat → Draws) (k : nat) (m m' : Model) :
  reachable m → run ds k m = Some m' → reachable m'.
Proof.
  intros Hr. revert m'. induction k as [|k IH]; simpl; intros m' H.
  - injection H as <-. exact Hr.
  - destruct (run ds k m) as [m1|]; [|discriminate]. cbn [mbind option_bind] in H.
    apply (reachable_step (ds k) m1 m'); [apply IH; reflexivity | exact H].
Qed.

(** ** The location samples of the example models *)

Lemma single_sample : is_sample (1 * 1) 1 [0%Z].
Proof.
  split; [reflexivity|]. split.
  - apply NoDup_singleton.
  - intros loc H. apply list_elem_of_singleton in H. subst loc. lia.
Qed.

Lemma trio_sample : is_sample (3 * 3) 3 [0%Z; 4%Z; 8%Z].
Proof.
  split; [reflexivity|]. split.
  - repeat constructor; rewrite ?elem_of_cons, ?elem_of_nil; lia.
  - intros loc H. repeat (apply elem_of_cons in H as [->|H]; [lia|]). inversion H.
Qed.

(** * The claims *)

(** C8. In every reachable model state [community_resistance] lies in
    [0, 3] and both incentives are at least 1; over any run from that state
    [community_resistance] does not decrease. *)
Theorem community_state_bounds (m : Model) :
  reachable m →
  (0 ≤ community_resistance m ≤ 3)%Z
  ∧ (1 ≤ accommodation_incentive m)%Z
  ∧ (1 ≤ retreat_incentive m)%Z
  ∧ ∀ ds k, ∃ m', run ds k m = Some m'
                  ∧ (community_resistance m ≤ community_resistance m')%Z.
Proof.
  intros Hr. pose proof (reachable_Inv m Hr) as Hinv. destruct Hinv as [Hc Hret].
  split; [apply Hc|]. split; [apply Hc|]. split; [apply Hc|].
  intros ds k.
  destruct (run_spec ds k m (conj Hc Hret)) as (m' & Hrun & _ & _ & _ & _ & _ & Hcr & _).
  eauto.
Qed.

Lemma community_state_bounds_witness :
  (0 ≤ community_resistance trio_after_storms ≤ 3)%Z
  ∧ (1 ≤ accommodation_incentive trio_after_storms)%Z
  ∧ (1 ≤ retreat_incentive trio_after_storms)%Z
  ∧ ∀ ds k, ∃ m', run ds k trio_after_storms = Some m'
                  ∧ (community_resistance trio_after_storms ≤ community_resistance m')%Z.
Proof.
  apply (community_state_bounds trio_after_storms).
  apply (reachable_run (fun _ => stormy_year) 2 trio_spatial); [|vm_compute; reflexivity].
  apply (reachable_init 3 3 3 0 "spatial" 2 0 [0%Z; 4%Z; 8%Z] (fun _ => 1));
    [exact trio_sample | vm_compute; reflexivity].
Defined.

(** C5. At every observation point [num_agents] equals the length of the
    roster; a further year returns, keeps that equality, records that value
    as Population, and does not increase [num_agents]. *)
Theorem population_matches_roster (m : Model) :
  reachable m →
  num_agents m = Z.of_nat (length (schedule m))
  ∧ ∀ d, ∃ m', step d m = Some m'
               ∧ num_agents m' = Z.of_nat (length (schedule m'))
               ∧ (num_agents m' ≤ num_agents m)%Z
               ∧ Population <$> last (datacollector m') = Some (num_agents m').
Proof.
  intros Hr. pose proof (reachable_Inv m Hr) as Hinv.
  split; [apply Hinv|]. intros d.
  destruct (step_spec d m Hinv) as (m' & Hs & Hinv' & _ & Hn & _ & _ & _ & _ & _ & _ & Hp & _).
  exists m'. split; [exact Hs|]. split; [apply Hinv'|]. auto.
Qed.

Lemma population_matches_roster_witness :
  num_agents trio_after_storms = Z.of_nat (length (schedule trio_after_storms))
  ∧ ∀ d, ∃ m', step d trio_after_storms = Some m'
               ∧ num_agents m' = Z.of_nat (length (schedule m'))
               ∧ (num_agents m' ≤ num_agents trio_after_storms)%Z
               ∧ Population <$> last (datacollector m') = Some (num_agents m').
Proof.
  apply (population_matches_roster trio_after_storms).
  apply (reachable_run (fun _ => stormy_year) 2 trio_spatial); [|vm_compute; reflexivity].
  apply (reachable_init 3 3 3 0 "spatial" 2 0 [0%Z; 4%Z; 8%Z] (fun _ => 1));
    [exact trio_sample | vm_compute; reflexivity].
Defined.

(** C7. A household whose [retreated] flag is set at an observation point
    is in neither the roster nor any grid cell, and after any further run
    its object is unchanged (so the flag is still set, and it was never
    stepped) and it is still in neither roster nor grid. *)
Theorem retreat_is_final (m : Model) (i : nat) (a : Household) :
  reachable m → agent_list m !! i = Some a → retreated a = true →
  ((i ∉ schedule m) ∧ ∀ p, grid m !! p ≠ Some i)
  ∧ ∀ ds k, ∃ m', run ds k m = Some m'
                  ∧ agent_list m' !! i = Some a
                  ∧ (i ∉ schedule m')
                  ∧ ∀ p, grid m' !! p ≠ Some i.
Proof.
  intros Hr Ha Hret. pose proof (reachable_Inv m Hr) as [Hc Hact].
  assert (Hout : i ∉ schedule m).
  { intros Hin. specialize (Hact i a Ha Hin). congruence. }
  assert (Hgrid : ∀ p, grid m !! p ≠ Some i).
  { intros p Hp. apply Hout. apply (core_grid m Hc p i Hp). }
  split; [auto|]. intros ds k.
  destruct (run_spec ds k m (conj Hc Hact)) as (m' & Hrun & _ & _ & _ & Hs & Hg & _ & Hun).
  exists m'. split; [exact Hrun|]. split; [rewrite Hun; auto|].
  split; [intros Hin; apply Hout; auto|].
  intros p Hp. apply (Hgrid p). auto.
Qed.

Lemma retreat_is_final_witness :
  ∃ a, agent_list trio_after_storms !! 1%nat = Some a ∧ retreated a = true
       ∧ ((1%nat ∉ schedule trio_after_storms) ∧ ∀ p, grid trio_after_storms !! p ≠ Some 1%nat)
       ∧ ∀ ds k, ∃ m', run ds k trio_after_storms = Some m'
                       ∧ agent_list m' !! 1%nat = Some a
                       ∧ (1%nat ∉ schedule m')
                       ∧ ∀ p, grid m' !! p ≠ Some 1%nat.
Proof.
  eexists. split; [vm_compute; reflexivity|]. split; [reflexivity|].
  apply (retreat_is_final trio_after_storms 1); [|vm_compute; reflexivity | reflexivity].
  apply (reachable_run (fun _ => stormy_year) 2 trio_spatial); [|vm_compute; reflexivity].
  apply (reachable_init 3 3 3 0 "spatial" 2 0 [0%Z; 4%Z; 8%Z] (fun _ => 1));
    [exact trio_sample | vm_compute; reflexivity].
Defined.

(** C6. At every observation point every household has [resistance] and
    [accommodation] among 0, 1, 1.5, 2; over any further run neither value
    of any household decreases; escalation maps 0 to 1, 1 to 1.5 and
    anything else to 2; and a household with [resistance >= 2] keeps its
    resistance whatever non-negative value is drawn. *)
Theorem adaptation_levels (m : Model) :
  reachable m →
  (∀ i a, agent_list m !! i = Some a → ladder (resistance a) ∧ ladder (accommodation a))
  ∧ (∀ ds k, ∃ m', run ds k m = Some m'
       ∧ ∀ i a, agent_list m !! i = Some a →
           ∃ a', agent_list m' !! i = Some a'
                 ∧ resistance a <= resistance a' ∧ accommodation a <= accommodation a')
  ∧ (∀ v, (v == 0 → escalate v = 1) ∧ (v == 1 → escalate v = 1.5)
          ∧ (¬ v == 0 → ¬ v == 1 → escalate v = 2))
  ∧ (∀ u i a, agent_list m !! i = Some a → 2 <= resistance a → 0 <= u →
       ∃ a', make_decision m u a = Some a' ∧ resistance a' = resistance a).
Proof.
  intros Hr. pose proof (reachable_Inv m Hr) as [Hc Hact].
  split; [|split; [|split]].
  - intros i a Ha. destruct (core_agents m Hc i a Ha) as (_ & Hg & _).
    split; apply Hg.
  - intros ds k.
    destruct (run_spec ds k m (conj Hc Hact)) as (m' & Hrun & _ & Hle & _).
    exists m'. split; [exact Hrun|]. intros i a Ha.
    destruct (proj2 Hle i a Ha) as (a' & Ha' & Hag). exists a'.
    split; [exact Ha'|]. split; apply Hag.
  - intros v. unfold escalate. split; [|split].
    + intros H. apply Qeq_bool_iff in H. rewrite H. reflexivity.
    + intros H. qtest (v =? 0); [lra|]. apply Qeq_bool_iff in H. rewrite H. reflexivity.
    + intros H0 H1. apply Qeq_bool_false in H0, H1. rewrite H0, H1. reflexivity.
  - intros u i a Ha H2 Hu. destruct (core_agents m Hc i a Ha) as (_ & Hg & _).
    destruct (make_decision_spec m u a Hg (core_accommodation m Hc) (core_retreat m Hc)
                (core_sched m Hc)) as (a' & Hd & _ & _ & _ & Hres).
    exists a'. auto.
Qed.

Lemma adaptation_levels_witness :
  (∀ i a, agent_list trio_after_storms !! i = Some a →
          ladder (resistance a) ∧ ladder (accommodation a))
  ∧ (∀ ds k, ∃ m', run ds k trio_after_storms = Some m'
       ∧ ∀ i a, agent_list trio_after_storms !! i = Some a →
           ∃ a', agent_list m' !! i = Some a'
                 ∧ resistance a <= resistance a' ∧ accommodation a <= accommodation a')
  ∧ (∀ v, (v == 0 → escalate v = 1) ∧ (v == 1 → escalate v = 1.5)
          ∧ (¬ v == 0 → ¬ v == 1 → escalate v = 2))
  ∧ (∀ u i a, agent_list trio_after_storms !! i = Some a → 2 <= resistance a → 0 <= u →
       ∃ a', make_decision trio_after_storms u a = Some a' ∧ resistance a' = resistance a).
Proof.
  apply (adaptation_levels trio_after_storms).
  apply (reachable_run (fun _ => stormy_year) 2 trio_spatial); [|vm_compute; reflexivity].
  apply (reachable_init 3 3 3 0 "spatial" 2 0 [0%Z; 4%Z; 8%Z] (fun _ => 1));
    [exact trio_sample | vm_compute; reflexivity].
Defined.

(** C4. From any reachable state a year returns; if the roster was not
    empty the new [p_adapt] is at least 0.1; with [p_adapt >= 0.1] and
    [community_resistance < 3] the staircase leaves
    [accommodation_incentive] alone; and over a year that starts with
    [community_resistance < 3] the incentive does not grow and stays >= 1. *)
Theorem accommodation_incentive_frozen (m : Model) (d : Draws) :
  reachable m →
  ∃ m', step d m = Some m'
    ∧ (schedule m ≠ [] → 0.1 <= p_adapt m')
    ∧ (∀ u t, 0.1 <= p_adapt t → (community_resistance t < 3)%Z →
         accommodation_incentive (adaptation_staircase u t) = accommodation_incentive t)
    ∧ ((community_resistance m < 3)%Z →
       (1 ≤ accommodation_incentive m' ≤ accommodation_incentive m)%Z).
Proof.
  intros Hr. pose proof (reachable_Inv m Hr) as Hinv.
  destruct (step_spec d m Hinv) as (m' & Hs & Hinv' & _ & _ & _ & _ & _ & Hai & Hp & _).
  exists m'. split; [exact Hs|]. split; [exact Hp|]. split.
  - intros u t Hpt Hcr. unfold adaptation_staircase.
    apply Z.ltb_lt in Hcr. rewrite Hcr.
    qtest (u <? p_adapt t * 0.6); [reflexivity|].
    qtest (u <? p_adapt t * 0.3); [exfalso; lra|].
    destruct (u <? p_adapt t); reflexivity.
  - intros Hcr. split; [apply Hinv' | auto].
Qed.

Lemma accommodation_incentive_frozen_witness :
  ∃ m', step stormy_year trio_after_storms = Some m'
    ∧ 0.1 <= p_adapt m'
    ∧ (1 ≤ accommodation_incentive m' ≤ accommodation_incentive trio_after_storms)%Z.
Proof.
  destruct (accommodation_incentive_frozen trio_after_storms stormy_year)
    as (m' & Hs & Hp & _ & Hai).
  { apply (reachable_run (fun _ => stormy_year) 2 trio_spatial); [|vm_compute; reflexivity].
    apply (reachable_init 3 3 3 0 "spatial" 2 0 [0%Z; 4%Z; 8%Z] (fun _ => 1));
      [exact trio_sample | vm_compute; reflexivity]. }
  exists m'. split; [exact Hs|]. split.
  - apply Hp. intros H. vm_compute in H. discriminate.
  - apply Hai. reflexivity.
Defined.

(** C9. No division of the commit phase is by zero: from any reachable
    state a whole year returns for all draws; the first half of
    [make_decision] returns on every household, also when [attachment] is
    zero; on a well-formed household the whole of [make_decision] returns,
    and when the raw weights sum to zero it returns the household with
    the weights as they are, with resistance, accommodation and retreated
    unchanged. *)
Theorem decision_never_divides_by_zero (m : Model) (u : Q) (i : nat) (a : Household) :
  reachable m → agent_list m !! i = Some a →
  (∀ d, is_Some (step d m))
  ∧ (∀ t b, is_Some (decision_weights t b))
  ∧ ∃ a1 a', decision_weights m a = Some a1 ∧ make_decision m u a = Some a'
      ∧ (p_resist a1 + p_accommodate a1 + p_retreat a1 == 0 →
         a' = a1 ∧ resistance a' = resistance a ∧ accommodation a' = accommodation a
         ∧ retreated a' = retreated a).
Proof.
  intros Hr Ha. pose proof (reachable_Inv m Hr) as [Hc Hact].
  split; [|split].
  - intros d. destruct (step_spec d m (conj Hc Hact)) as (m' & -> & _). eauto.
  - intros t b. destruct (decision_weights_spec t b) as (b1 & -> & _). eauto.
  - destruct (core_agents m Hc i a Ha) as (_ & Hg & _).
    destruct (make_decision_spec m u a Hg (core_accommodation m Hc) (core_retreat m Hc)
                (core_sched m Hc)) as (a' & Hd & _).
    destruct (decision_weights_spec m a)
      as (a1 & Hw & _ & _ & _ & _ & _ & _ & _ & _ & _ & _ & _ & Fres & Facc & Fret & _).
    exists a1, a'. split; [exact Hw|]. split; [exact Hd|].
    intros Hz. unfold make_decision in Hd. rewrite Hw in Hd. cbn [mbind option_bind] in Hd.
    unfold decision_commit in Hd. apply Qeq_bool_iff in Hz. rewrite Hz in Hd.
    cbn [negb] in Hd. injection Hd as <-. auto.
Qed.

Lemma decision_never_divides_by_zero_witness :
  ∃ a a1, agent_list single_model_low !! 0%nat = Some a
    ∧ decision_weights single_model_low a = Some a1
    ∧ p_resist a1 + p_accommodate a1 + p_retreat a1 == 0
    ∧ make_decision single_model_low 0.9 a = Some a1
    ∧ is_Some (step quiet_year single_model_low).
Proof.
  edestruct (decision_never_divides_by_zero single_model_low 0.9 0)
    as (Hstep & _ & a1 & a' & Hw & Hd & Hskip).
  { apply (reachable_init 1 1 1 0 "aspatial" 0 0 [0%Z] (fun _ => -0.05));
      [exact single_sample | vm_compute; reflexivity]. }
  { vm_compute. reflexivity. }
  assert (Hz : p_resist a1 + p_accommodate a1 + p_retreat a1 == 0).
  { vm_compute in Hw. injection Hw as <-. vm_compute. reflexivity. }
  destruct (Hskip Hz) as (-> & _).
  eexists _, a1. split; [reflexivity|]. split; [exact Hw|]. split; [exact Hz|].
  split; [exact Hd | apply Hstep].
Defined.

(** C3. With a non-empty population, [community_adaptation] sets [p_adapt]
    to some p, applies to the three community fields exactly one case of
    the staircase on the draw [u], and then applies the two decrements.
    Below resistance 3 the cases are: u < 0.6 p, resistance + 1; else
    u < 0.3 p, accommodation incentive + 1; else u < p, retreat incentive
    + 1; else nothing.  At resistance 3 they are: u < 0.7 p, accommodation
    incentive + 1; else u < p, retreat incentive + 1; else nothing. *)
Theorem community_staircase (u u1 u2 : Q) (m m' : Model) :
  (0 < num_agents m)%Z → community_adaptation u u1 u2 m = Some m' →
  let p := p_adapt m' in
  let cr := community_resistance m in
  let ai := accommodation_incentive m in
  let ri := retreat_incentive m in
  ∃ cr1 ai1 ri1,
    m' = incentive_decay u1 u2 (with_incentives p cr1 ai1 ri1 m)
    ∧ ((cr < 3)%Z →
         (u < p * 0.6 → (cr1, ai1, ri1) = ((cr + 1)%Z, ai, ri))
         ∧ (p * 0.6 <= u → u < p * 0.3 → (cr1, ai1, ri1) = (cr, (ai + 1)%Z, ri))
         ∧ (p * 0.6 <= u → p * 0.3 <= u → u < p → (cr1, ai1, ri1) = (cr, ai, (ri + 1)%Z))
         ∧ (p * 0.6 <= u → p * 0.3 <= u → p <= u → (cr1, ai1, ri1) = (cr, ai, ri)))
    ∧ (cr = 3%Z →
         (u < p * 0.7 → (cr1, ai1, ri1) = (cr, (ai + 1)%Z, ri))
         ∧ (p * 0.7 <= u → u < p → (cr1, ai1, ri1) = (cr, ai, (ri + 1)%Z))
         ∧ (p * 0.7 <= u → p <= u → (cr1, ai1, ri1) = (cr, ai, ri))).
Proof.
  intros Hn. unfold community_adaptation.
  destruct (roster_totals m) as [t|]; [|discriminate]. cbn [mbind option_bind].
  apply Z.ltb_lt in Hn. rewrite Hn.
  destruct (pydiv t.1 (inject_Z (num_agents m))) as [q1|]; [|discriminate].
  cbn [mbind option_bind].
  destruct (pydiv t.2 (inject_Z (num_agents m))) as [q2|]; [|discriminate].
  cbn [mbind option_bind].
  set (p := action_curve _ _). intros [= <-].
  assert (Hp : ∀ v w t', p_adapt (incentive_decay v w t') = p_adapt t').
  { intros v w t'. unfold incentive_decay. destruct (v <? 0.1), (w <? 0.1); reflexivity. }
  cbv zeta. rewrite Hp.
  assert (Hp' : p_adapt (adaptation_staircase u (set_p_adapt p m)) = p).
  { unfold adaptation_staircase. cbn [community_resistance p_adapt set_p_adapt].
    destruct (community_resistance m <? 3)%Z, (u <? p * 0.6), (u <? p * 0.3), (u <? p * 0.7),
      (u <? p); reflexivity. }
  rewrite Hp'. clear Hp Hp'. clearbody p.
  unfold adaptation_staircase.
  cbn [community_resistance accommodation_incentive retreat_incentive p_adapt set_p_adapt].
  qtest (community_resistance m <? 3)%Z.
  - qtest (u <? p * 0.6).
    { exists (community_resistance m + 1)%Z, (accommodation_incentive m), (retreat_incentive m).
      split; [reflexivity|]. split; [|intros; lia].
      intros _. repeat split; intros; solve [reflexivity | exfalso; lra]. }
    qtest (u <? p * 0.3).
    { exists (community_resistance m), (accommodation_incentive m + 1)%Z, (retreat_incentive m).
      split; [reflexivity|]. split; [|intros; lia].
      intros _. repeat split; intros; solve [reflexivity | exfalso; lra]. }
    qtest (u <? p).
    { exists (community_resistance m), (accommodation_incentive m), (retreat_incentive m + 1)%Z.
      split; [reflexivity|]. split; [|intros; lia].
      intros _. repeat split; intros; solve [reflexivity | exfalso; lra]. }
    exists (community_resistance m), (accommodation_incentive m), (retreat_incentive m).
    split; [reflexivity|]. split; [|intros; lia].
    intros _. repeat split; intros; solve [reflexivity | exfalso; lra].
  - qtest (u <? p * 0.7).
    { exists (community_resistance m), (accommodation_incentive m + 1)%Z, (retreat_incentive m).
      split; [reflexivity|]. split; [intros; lia|].
      intros _. repeat split; intros; solve [reflexivity | exfalso; lra]. }
    qtest (u <? p).
    { exists (community_resistance m), (accommodation_incentive m), (retreat_incentive m + 1)%Z.
      split; [reflexivity|]. split; [intros; lia|].
      intros _. repeat split; intros; solve [reflexivity | exfalso; lra]. }
    exists (community_resistance m), (accommodation_incentive m), (retreat_incentive m).
    split; [reflexivity|]. split; [intros; lia|].
    intros _. repeat split; intros; solve [reflexivity | exfalso; lra].
Qed.

Lemma community_staircase_witness :
  community_adaptation 0.05 0.5 0.5 trio_spatial = Some trio_adapted
  ∧ p_adapt trio_adapted == 0.1
  ∧ community_resistance trio_adapted = 1%Z
  ∧ accommodation_incentive trio_adapted = 1%Z ∧ retreat_incentive trio_adapted = 1%Z.
Proof.
  assert (E : community_adaptation 0.05 0.5 0.5 trio_spatial = Some trio_adapted)
    by (vm_compute; reflexivity).
  split; [exact E|]. split; [vm_compute; reflexivity|].
  destruct (community_staircase 0.05 0.5 0.5 trio_spatial trio_adapted ltac:(reflexivity) E)
    as (cr1 & ai1 & ri1 & Heq & Hlow & _).
  destruct (Hlow ltac:(reflexivity)) as (Hfirst & _).
  specialize (Hfirst ltac:(vm_compute; reflexivity)).
  injection Hfirst as -> -> ->.
  rewrite Heq. repeat split.
Defined.

(** C1 (fails on the code).  A freshly built household whose raw weights
    are 0.6, 0.3 and 0.1 (sum 1, not zero) and whose [p_action] is 0.1 is
    normalised to 0.06, 3/46 and 23/518, which do not sum to [p_action];
    the same values are stored by the first quiet year of the
    one-household model. *)
Theorem normalisation_misses_p_action :
  ∃ a a1 a2,
    agent_list single_model !! 0%nat = Some a
    ∧ decision_weights single_model a = Some a1
    ∧ p_resist a1 == 0.6 ∧ p_accommodate a1 == 0.3 ∧ p_retreat a1 == 0.1
    ∧ ¬ p_resist a1 + p_accommodate a1 + p_retreat a1 == 0
    ∧ normalise_weights a1 = Some a2
    ∧ p_action a2 == 0.1
    ∧ p_resist a2 == 0.06 ∧ p_accommodate a2 == 3 # 46 ∧ p_retreat a2 == 23 # 518
    ∧ ¬ p_resist a2 + p_accommodate a2 + p_retreat a2 == p_action a2
    ∧ ∃ m' a', step quiet_year single_model = Some m'
        ∧ agent_list m' !! 0%nat = Some a'
        ∧ ¬ p_resist a' + p_accommodate a' + p_retreat a' == p_action a'.
Proof.
  eexists _, _, _.
  split; [vm_compute; reflexivity|]. split; [vm_compute; reflexivity|].
  split; [vm_compute; reflexivity|]. split; [vm_compute; reflexivity|].
  split; [vm_compute; reflexivity|]. split; [vm_compute; discriminate|].
  split; [vm_compute; reflexivity|]. split; [vm_compute; reflexivity|].
  split; [vm_compute; reflexivity|]. split; [vm_compute; reflexivity|].
  split; [vm_compute; reflexivity|]. split; [vm_compute; discriminate|].
  eexists _, _.
  split; [vm_compute; reflexivity|]. split; [vm_compute; reflexivity|].
  vm_compute; discriminate.
Qed.

(** C2 (fails on the code).  After one quiet year in which its adaptive
    capacity was -0.05 the household of the one-household model holds the
    weights 0, 0, 0.  In the next year its capacity is 0.05 and its
    resistance and accommodation are 0, so the rules applied to the base
    values give 0.6, 0.3 and 0.1; the code starts from the stored weights
    and gives 0, 0, 0, which is also what the second year stores. *)
Theorem weights_carry_over :
  ∃ m1 a1 a2 w w',
    step quiet_year single_model_low = Some m1
    ∧ agent_list m1 !! 0%nat = Some a1
    ∧ Household_step m1 0.1 a1 = Some a2
    ∧ 0 < adaptive_capacity a2 ∧ resistance a2 < 2 ∧ accommodation a2 < 2
    ∧ decision_weights m1 a2 = Some w
    ∧ spec_decision_weights m1 a2 = Some w'
    ∧ (p_resist w == 0 ∧ p_accommodate w == 0 ∧ p_retreat w == 0)
    ∧ (p_resist w' == 0.6 ∧ p_accommodate w' == 0.3 ∧ p_retreat w' == 0.1)
    ∧ ∃ m2 b, step quiet_year_up m1 = Some m2
        ∧ agent_list m2 !! 0%nat = Some b
        ∧ 0 < adaptive_capacity b
        ∧ p_resist b == 0 ∧ p_accommodate b == 0 ∧ p_retreat b == 0.
Proof.
  eexists _, _, _, _, _.
  split; [vm_compute; reflexivity|]. split; [vm_compute; reflexivity|].
  split; [vm_compute; reflexivity|]. split; [vm_compute; reflexivity|].
  split; [vm_compute; reflexivity|]. split; [vm_compute; reflexivity|].
  split; [vm_compute; reflexivity|]. split; [vm_compute; reflexivity|].
  split; [repeat split; vm_compute; reflexivity|].
  split; [repeat split; vm_compute; reflexivity|].
  eexists _, _.
  split; [vm_compute; reflexivity|]. split; [vm_compute; reflexivity|].
  repeat split; vm_compute; reflexivity.
Qed.

(** ** Connections lists with every neighbour listed twice *)

Lemma foldM_Permutation {S A : Type} (f : S → A → option S) :
  (∀ c a b, (c' ← f c a; f c' b) = (c' ← f c b; f c' a)) →
  ∀ l l', l ≡ₚ l' → ∀ c, foldM f l c = foldM f l' c.
Proof.
  intros Hcomm l l' Hp. induction Hp as [|a l l' Hp IH|a b l|l1 l2 l3 H1 IH1 H2 IH2]; intros c.
  - reflexivity.
  - simpl. destruct (f c a); simpl; auto.
  - simpl. specialize (Hcomm c b a).
    destruct (f c b) as [cb|], (f c a) as [ca|]; simpl in *.
    + destruct (f cb a) as [cba|], (f ca b) as [cab|]; simpl; congruence.
    + destruct (f cb a); [discriminate | reflexivity].
    + destruct (f ca b); [discriminate | reflexivity].
    + reflexivity.
  - rewrite IH1. apply IH2.
Qed.

Lemma connection_counts_Permutation (store : list Household) (l l' : list nat) :
  l ≡ₚ l' → connection_counts store l = connection_counts store l'.
Proof.
  intros Hp. unfold connection_counts. apply foldM_Permutation; [|exact Hp].
  intros c a b. destruct (store !! a) as [xa|], (store !! b) as [xb|]; simpl; try reflexivity.
  destruct (retreated xa), (retreated xb); simpl; reflexivity.
Qed.

(** The counting loop started from any pair of counters. *)
Lemma connection_counts_shift (store : list Household) (l : list nat) (r0 s0 : Z) :
  foldM (fun c j => b ← store !! j;
                    Some (if retreated b then (c.1 + 1, c.2)%Z else (c.1, c.2 + 1)%Z))
        l (r0, s0)
  = (fun c => ((r0 + c.1)%Z, (s0 + c.2)%Z)) <$> connection_counts store l.
Proof.
  unfold connection_counts. revert r0 s0.
  assert (G : ∀ r0 s0 r1 s1,
    foldM (fun c j => b ← store !! j;
                      Some (if retreated b then (c.1 + 1, c.2)%Z else (c.1, c.2 + 1)%Z))
          l ((r0 + r1)%Z, (s0 + s1)%Z)
    = (fun c => ((r0 + c.1)%Z, (s0 + c.2)%Z)) <$>
      foldM (fun c j => b ← store !! j;
                        Some (if retreated b then (c.1 + 1, c.2)%Z else (c.1, c.2 + 1)%Z))
            l (r1, s1)).
  { induction l as [|j l IH]; intros r0 s0 r1 s1; simpl; [reflexivity|].
    destruct (store !! j) as [b|]; simpl; [|reflexivity].
    destruct (retreated b); simpl.
    - rewrite <- IH. do 2 f_equal. lia.
    - rewrite <- IH. do 2 f_equal. lia. }
  intros r0 s0. rewrite <- G. do 2 f_equal; lia.
Qed.

Lemma connection_counts_double (store : list Household) (l : list nat) :
  connection_counts store (l ++ l)
  = (fun c => ((c.1 + c.1)%Z, (c.2 + c.2)%Z)) <$> connection_counts store l.
Proof.
  unfold connection_counts at 1. rewrite foldM_app. fold (connection_counts store l).
  destruct (connection_counts store l) as [[r s]|] eqn:E; simpl; [|reflexivity].
  rewrite connection_counts_shift, E. reflexivity.
Qed.

(** Listing every neighbour twice leaves the attachment ratio as it is. *)
Lemma calculate_attachment_doubled (store : list Household) (a : Household) (D : list nat) :
  connections a ≡ₚ D ++ D →
  match calculate_attachment store a, calculate_attachment store (set_connections D a) with
  | Some b, Some b' => attachment b == attachment b'
  | None, None => True
  | _, _ => False
  end.
Proof.
  intros Hp. unfold calculate_attachment. cbn [connections set_connections].
  rewrite (connection_counts_Permutation store _ _ Hp), connection_counts_double.
  destruct (connection_counts store D) as [[r s]|]; simpl; [|exact I].
  destruct (0 <? r + s)%Z eqn:E.
  - assert (E2 : (0 <? r + r + (s + s))%Z = true) by (apply Z.ltb_lt; apply Z.ltb_lt in E; lia).
    rewrite E2. apply Z.ltb_lt in E. pose proof (inject_Z_pos _ E) as Hq.
    assert (Hq2 : 0 < inject_Z (r + r + (s + s))) by (apply inject_Z_pos; lia).
    rewrite !pydiv_Some by lra. simpl.
    rewrite !inject_Z_plus in *. field. lra.
  - assert (E2 : (0 <? r + r + (s + s))%Z = false) by (apply Z.ltb_ge; apply Z.ltb_ge in E; lia).
    rewrite E2. simpl. reflexivity.
Qed.

Lemma count_occ_remove_dups (l : list nat) (v : nat) :
  count_occ Nat.eq_dec (remove_dups l) v = ind (v ∈ l).
Proof.
  unfold ind. pose proof (NoDup_remove_dups l) as Hnd. apply NoDup_ListNoDup in Hnd.
  destruct (decide (v ∈ l)) as [Hin|Hout].
  - apply (proj1 (NoDup_count_occ' Nat.eq_dec _) Hnd).
    apply list_elem_of_In, elem_of_remove_dups. exact Hin.
  - apply count_occ_not_In. intros H. apply Hout.
    apply (proj2 (list_elem_of_In _ _)) in H.
    apply (proj1 (elem_of_remove_dups _ _)) in H. exact H.
Qed.

(** A list in which every value occurs twice or not at all is its
    duplicate-free version taken twice. *)
Lemma doubled_Permutation (l : list nat) :
  (∀ v, count_occ Nat.eq_dec l v = 0%nat ∨ count_occ Nat.eq_dec l v = 2%nat) →
  l ≡ₚ remove_dups l ++ remove_dups l.
Proof.
  intros H. apply (Permutation_count_occ Nat.eq_dec). intros v.
  rewrite count_occ_app, count_occ_remove_dups. unfold ind.
  destruct (decide (v ∈ l)) as [Hin|Hout].
  - apply list_elem_of_In in Hin. apply (count_occ_In Nat.eq_dec) in Hin.
    destruct (H v); lia.
  - assert (¬ In v l) by (intros Hin; apply Hout, list_elem_of_In; exact Hin).
    apply (count_occ_not_In Nat.eq_dec) in H0. lia.
Qed.

Lemma spatial_test_sym (l0 : list Household) (radius : Q) (i j : nat) :
  spatial_test l0 radius i j = spatial_test l0 radius j i.
Proof.
  unfold spatial_test. destruct (l0 !! i) as [ai|], (l0 !! j) as [aj|]; try reflexivity.
  replace (Z.abs (x aj - x ai)) with (Z.abs (x ai - x aj)) by lia.
  replace (Z.abs (y aj - y ai)) with (Z.abs (y ai - y aj)) by lia.
  rewrite (Nat.eqb_sym (unique_id aj)). reflexivity.
Qed.

(** C10. After construction and [set_init_connections], for two distinct
    households i and j: in spatial mode j occurs exactly twice in the
    connections of i when their coordinates differ by less than the radius
    in both directions, and not at all otherwise; the connections list of i
    is then twice as long as its duplicate-free version and
    [calculate_attachment] gives the same result on both; in aspatial mode
    j occurs at most once, and exactly once when the draw of the pair,
    taken in increasing order of id, is below the density.  (The statement
    is symmetric in i and j.) *)
Theorem network_multiplicities
    (w h : Z) (n : nat) (slr : Q) (mode : string) (param : Q) (t0 : Z)
    (locations : list Z) (capacity : nat → Q) (draw : nat → nat → Q)
    (m m' : Model) (i j : nat) (ai aj : Household) :
  AdaptationModel_init w h n slr mode param t0 locations capacity = Some m →
  set_init_connections draw m = Some m' →
  agent_list m !! i = Some ai → agent_list m !! j = Some aj → i ≠ j →
  ∃ ai', agent_list m' !! i = Some ai'
    ∧ (network_mode m ≠ "aspatial" →
         (near (network_parameter m) ai aj →
            count_occ Nat.eq_dec (connections ai') j = 2%nat)
         ∧ (¬ near (network_parameter m) ai aj →
            count_occ Nat.eq_dec (connections ai') j = 0%nat)
         ∧ length (connections ai') = (2 * length (remove_dups (connections ai')))%nat
         ∧ ∀ store, same_attachment (calculate_attachment store ai')
                                    (calculate_attachment store (single_listed ai')))
    ∧ (network_mode m = "aspatial" →
         (count_occ Nat.eq_dec (connections ai') j ≤ 1)%nat
         ∧ (count_occ Nat.eq_dec (connections ai') j = 1%nat
            ↔ ((i < j)%nat ∧ draw i j < network_parameter m)
              ∨ ((j < i)%nat ∧ draw j i < network_parameter m))).
Proof.
  intros Hinit Hnet Hi Hj Hne.
  pose proof (AdaptationModel_init_built _ _ _ _ _ _ _ _ _ _ Hinit) as Hb.
  pose proof (built_Inv n m Hb) as [Hc _].
  destruct (set_init_connections_spec draw m Hc) as (l' & Hl' & Hstore & Hcnt).
  rewrite Hl' in Hnet. injection Hnet as <-. cbn [agent_list set_agent_list].
  assert (H0 : ∀ k v, cnt (agent_list m) k v = 0%nat).
  { intros k v. unfold cnt, conn. destruct (agent_list m !! k) as [b|] eqn:Hk; [|reflexivity].
    destruct (built_agents n n m Hb k b Hk) as (_ & _ & -> & _). reflexivity. }
  assert (Hin : ∀ k b, agent_list m !! k = Some b → ind (k ∈ schedule m) = 1%nat).
  { intros k b Hk. unfold ind. rewrite decide_True; [reflexivity|].
    rewrite (built_schedule n n m Hb). apply elem_of_seq.
    apply lookup_lt_Some in Hk. rewrite (built_length n n m Hb) in Hk. lia. }
  destruct (proj2 Hstore i ai Hi) as (ai' & Hi' & _).
  exists ai'. split; [exact Hi'|].
  assert (Hconn : ∀ v, count_occ Nat.eq_dec (connections ai') v = cnt l' i v).
  { intros v. unfold cnt, conn. rewrite Hi'. reflexivity. }
  destruct (core_agents m Hc i ai Hi) as (Hidi & _).
  destruct (core_agents m Hc j aj Hj) as (Hidj & _).
  split.
  - intros Hmode. apply String.eqb_neq in Hmode.
    assert (Hv : ∀ v, cnt l' i v
                 = (2 * (ind (v ∈ schedule m)
                         * Nat.b2n (spatial_test (agent_list m) (network_parameter m) i v)))%nat).
    { intros v. rewrite Hcnt, H0, Hmode, (Hin i ai Hi).
      rewrite (spatial_test_sym _ _ v i). lia. }
    assert (Hij : cnt l' i j
                  = (2 * Nat.b2n (spatial_test (agent_list m) (network_parameter m) i j))%nat).
    { rewrite Hv, (Hin j aj Hj). lia. }
    assert (Htest : spatial_test (agent_list m) (network_parameter m) i j = true
                    ↔ near (network_parameter m) ai aj).
    { unfold spatial_test, near. rewrite Hi, Hj, Hidi, Hidj.
      apply Nat.eqb_neq in Hne. rewrite Hne. cbn [negb]. rewrite andb_true_r.
      rewrite andb_true_iff, !Qlt_bool_iff. reflexivity. }
    assert (Hperm : connections ai' ≡ₚ remove_dups (connections ai')
                                       ++ remove_dups (connections ai')).
    { apply doubled_Permutation. intros v. rewrite Hconn, Hv.
      unfold ind. destruct (decide (v ∈ schedule m)), (spatial_test _ _ i v); simpl; lia. }
    split; [|split; [|split]].
    + intros Hnear. apply Htest in Hnear. rewrite Hconn, Hij, Hnear. reflexivity.
    + intros Hfar. rewrite Hconn, Hij.
      destruct (spatial_test _ _ i j); [exfalso; apply Hfar, Htest; reflexivity | reflexivity].
    + rewrite Hperm at 1. rewrite length_app. lia.
    + intros store. unfold same_attachment, single_listed.
      apply calculate_attachment_doubled. exact Hperm.
  - intros Hmode. apply String.eqb_eq in Hmode.
    rewrite Hconn, Hcnt, H0, Hmode, (Hin i ai Hi), (Hin j aj Hj).
    unfold aspatial_test. rewrite Hi, Hj, Hidi, Hidj.
    destruct (Nat.ltb_spec i j) as [E1|E1], (Nat.ltb_spec j i) as [E2|E2];
      try lia; cbn [andb Nat.b2n].
    + qtest (draw i j <? network_parameter m); simpl; (split; [lia|]); split; intros H;
        solve [lia | left; auto | destruct H as [[_ H]|[H _]]; [lra | lia]].
    + qtest (draw j i <? network_parameter m); simpl; (split; [lia|]); split; intros H;
        solve [lia | right; auto | destruct H as [[H _]|[_ H]]; [lia | lra]].
Qed.

Lemma network_multiplicities_witness :
  (∃ a, agent_list trio_spatial_net !! 0%nat = Some a
        ∧ count_occ Nat.eq_dec (connections a) 1%nat = 2%nat
        ∧ length (connections a) = (2 * length (remove_dups (connections a)))%nat)
  ∧ (∃ a, agent_list trio_aspatial_net !! 0%nat = Some a
          ∧ count_occ Nat.eq_dec (connections a) 1%nat = 1%nat).
Proof.
  split.
  - edestruct (network_multiplicities 3 3 3 0 "spatial" 2 0 [0%Z; 4%Z; 8%Z] (fun _ => 1)
                 trio_draw trio_spatial trio_spatial_net 0 1)
      as (a & Ha & Hsp & _);
      [vm_compute; reflexivity | vm_compute; reflexivity | vm_compute; reflexivity
      | vm_compute; reflexivity | lia |].
    destruct Hsp as (Htwice & _ & Hlen & _); [intros H; vm_compute in H; discriminate|].
    exists a. split; [exact Ha|]. split; [|exact Hlen].
    apply Htwice. split; vm_compute; reflexivity.
  - edestruct (network_multiplicities 3 3 3 0 "aspatial" 0.5 0 [0%Z; 4%Z; 8%Z] (fun _ => 1)
                 trio_draw trio_aspatial trio_aspatial_net 0 1)
      as (a & Ha & _ & Has);
      [vm_compute; reflexivity | vm_compute; reflexivity | vm_compute; reflexivity
      | vm_compute; reflexivity | lia |].
    destruct Has as (_ & Honce); [vm_compute; reflexivity|].
    exists a. split; [exact Ha|].
    apply Honce. left. split; [lia | vm_compute; reflexivity].
Defined.

(** * Further properties of the code *)

(** ** What one year is made of *)

Lemma step_inv (d : Draws) (m m' : Model) :
  step d m = Some m' →
  ∃ m2 m3 m4,
    community_adaptation (adapt_x d) (decay_accommodation d) (decay_retreat d)
      (calculate_storm_surge (surge_log d) (calculate_inundation m)) = Some m2
    ∧ schedule_step d m2 = Some m3
    ∧ reap m3 = Some m4
    ∧ m' = set_tick (tick (collect m4) + 1) (collect m4).
Proof.
  unfold step. intros H.
  destruct (community_adaptation _ _ _ _) as [m2|] eqn:E2; [|discriminate].
  cbn [mbind option_bind] in H.
  destruct (schedule_step d m2) as [m3|] eqn:E3; [|discriminate].
  cbn [mbind option_bind] in H.
  destruct (reap m3) as [m4|] eqn:E4; [|discriminate]. cbn [mbind option_bind] in H.
  injection H as <-. exists m2, m3, m4. repeat split; assumption.
Qed.

Lemma same_world_refl (m : Model) : same_world m m.
Proof. split; reflexivity. Qed.

Lemma same_world_trans (m1 m2 m3 : Model) :
  same_world m1 m2 → same_world m2 m3 → same_world m1 m3.
Proof. intros [] []. split; congruence. Qed.

Lemma adaptation_staircase_world (u : Q) (m : Model) :
  same_world m (adaptation_staircase u m).
Proof.
  unfold adaptation_staircase.
  destruct (community_resistance m <? 3)%Z, (u <? p_adapt m * 0.6), (u <? p_adapt m * 0.3),
    (u <? p_adapt m * 0.7), (u <? p_adapt m); split; reflexivity.
Qed.

Lemma incentive_decay_world (u1 u2 : Q) (m : Model) :
  same_world m (incentive_decay u1 u2 m).
Proof.
  unfold incentive_decay. destruct (u1 <? 0.1), (u2 <? 0.1); split; reflexivity.
Qed.

Lemma community_adaptation_world (u u1 u2 : Q) (m m' : Model) :
  community_adaptation u u1 u2 m = Some m' → same_world m m'.
Proof.
  unfold community_adaptation.
  destruct (roster_totals m) as [t|]; [|discriminate]. cbn [mbind option_bind].
  destruct (0 <? num_agents m)%Z.
  - destruct (pydiv t.1 _) as [q1|]; [|discriminate]. cbn [mbind option_bind].
    destruct (pydiv t.2 _) as [q2|]; [|discriminate]. cbn [mbind option_bind].
    intros [= <-].
    eapply same_world_trans; [|apply incentive_decay_world].
    eapply same_world_trans; [|apply adaptation_staircase_world].
    split; reflexivity.
  - intros [= <-]. apply same_world_refl.
Qed.

(** ** No method rewrites the static attributes *)

Lemma same_static_refl (a : Household) : same_static a a.
Proof. split; reflexivity. Qed.

Lemma same_static_trans (a b c : Household) :
  same_static a b → same_static b c → same_static a c.
Proof. intros [] []. split; congruence. Qed.

Lemma Household_step_static (m : Model) (noise : Q) (a a' : Household) :
  Household_step m noise a = Some a' → same_static a a'.
Proof.
  unfold Household_step, calculate_attachment.
  cbn [connections calculate_adaptive_capacity set_adaptive_capacity].
  destruct (connection_counts _ _) as [c|]; [|discriminate]. cbn [mbind option_bind].
  destruct (0 <? c.1 + c.2)%Z.
  - destruct (pydiv _ _) as [v|]; [|discriminate]. cbn [mbind option_bind].
    intros [= <-]. unfold apply_damage. destruct (0 <? storm_surge m); split; reflexivity.
  - cbn [mbind option_bind].
    intros [= <-]. unfold apply_damage. destruct (0 <? storm_surge m); split; reflexivity.
Qed.

Lemma decision_weights_static (m : Model) (a a' : Household) :
  decision_weights m a = Some a' →
  same_static a a' ∧ resistance a' = resistance a ∧ accommodation a' = accommodation a
  ∧ retreated a' = retreated a.
Proof.
  intros H. destruct (decision_weights_spec m a)
    as (a1 & Hw & _ & _ & _ & _ & _ & _ & Fid & Fx & Fy & Fpos & Fc & Fres & Facc & Fret & _).
  rewrite Hw in H. injection H as <-.
  split; [|auto]. split; auto.
  clear -Hw. unfold decision_weights in Hw.
  repeat match type of Hw with
         | context [if ?c then _ else _] => destruct c
         end;
    repeat match type of Hw with
           | context [pydiv ?p ?q] => destruct (pydiv p q); [|discriminate]
           end;
    cbn [mbind option_bind] in Hw; injection Hw as <-; reflexivity.
Qed.

Lemma normalise_weights_static (a a' : Household) :
  normalise_weights a = Some a' →
  same_static a a' ∧ resistance a' = resistance a ∧ accommodation a' = accommodation a
  ∧ retreated a' = retreated a ∧ p_action a' = p_action a.
Proof.
  unfold normalise_weights.
  destruct (pydiv _ _) as [v1|]; [|discriminate]. cbn [mbind option_bind].
  destruct (pydiv _ _) as [v2|]; [|discriminate]. cbn [mbind option_bind].
  destruct (pydiv _ _) as [v3|]; [|discriminate]. cbn [mbind option_bind].
  intros [= <-]. repeat split.
Qed.

(** The if/elif chain changes at most one of the three outcomes of a
    household, and nothing else but that. *)
Lemma take_action_cases (m : Model) (u : Q) (a a' : Household) :
  take_action m u a = Some a' →
  a' = set_resistance (escalate (resistance a)) a
  ∨ a' = set_accommodation (escalate (accommodation a)) a
  ∨ a' = set_retreated true a
  ∨ a' = a.
Proof.
  unfold take_action.
  destruct (u <? p_resist a); [intros [= <-]; auto|].
  destruct (u <? p_resist a + p_accommodate a); [intros [= <-]; auto|].
  destruct (u <? p_action a); [|intros [= <-]; auto].
  destruct (in_roster m (unique_id a)) as [[|]|]; [| |discriminate];
    cbn [mbind option_bind]; intros [= <-]; auto.
Qed.

Lemma make_decision_static (m : Model) (u : Q) (a a' : Household) :
  make_decision m u a = Some a' → same_static a a'.
Proof.
  unfold make_decision. intros H.
  destruct (decision_weights m a) as [a1|] eqn:Hw; [|discriminate].
  cbn [mbind option_bind] in H.
  apply decision_weights_static in Hw as (Hs1 & _).
  eapply same_static_trans; [exact Hs1|].
  unfold decision_commit in H.
  destruct (negb _); [|injection H as <-; apply same_static_refl].
  destruct (normalise_weights a1) as [a2|] eqn:Hn; [|discriminate].
  cbn [mbind option_bind] in H.
  apply normalise_weights_static in Hn as (Hs2 & _).
  eapply same_static_trans; [exact Hs2|].
  apply take_action_cases in H as [-> | [-> | [-> | ->]]]; split; reflexivity.
Qed.

Lemma store_static_refl (s : list Household) : store_static s s.
Proof. split; [reflexivity|]. intros i a H. eauto using same_static_refl. Qed.

Lemma store_static_trans (s1 s2 s3 : list Household) :
  store_static s1 s2 → store_static s2 s3 → store_static s1 s3.
Proof.
  intros [L1 H1] [L2 H2]. split; [congruence|].
  intros i a Ha. destruct (H1 i a Ha) as (b & Hb & Hab).
  destruct (H2 i b Hb) as (c & Hc & Hbc). eauto using same_static_trans.
Qed.

Lemma store_static_insert (s : list Household) (i : nat) (a a' : Household) :
  s !! i = Some a → same_static a a' → store_static s (<[i := a']> s).
Proof.
  intros Hi Hst. split; [apply length_insert|].
  intros k b Hk. destruct (decide (k = i)) as [->|Hne].
  - exists a'. split; [apply list_lookup_insert_eq; eapply lookup_lt_Some; eauto | congruence].
  - exists b. split; [rewrite list_lookup_insert_ne; auto | apply same_static_refl].
Qed.

Lemma agent_step_inv (d : Draws) (m m' : Model) (i : nat) :
  agent_step d m i = Some m' →
  ∃ a a', agent_list m !! i = Some a
          ∧ Household_step m (capacity_noise d i) a = Some a'
          ∧ m' = set_agent_list (<[i := a']> (agent_list m)) m.
Proof.
  unfold agent_step. intros H.
  destruct (agent_list m !! i) as [a|]; [|discriminate]. cbn [mbind option_bind] in H.
  destruct (Household_step _ _ _) as [a'|] eqn:E; [|discriminate].
  cbn [mbind option_bind] in H. injection H as <-. eauto.
Qed.

Lemma agent_advance_inv (d : Draws) (m m' : Model) (i : nat) :
  agent_advance d m i = Some m' →
  ∃ a a', agent_list m !! i = Some a
          ∧ make_decision m (decide_x d i) a = Some a'
          ∧ m' = set_agent_list (<[i := a']> (agent_list m)) m.
Proof.
  unfold agent_advance. intros H.
  destruct (agent_list m !! i) as [a|]; [|discriminate]. cbn [mbind option_bind] in H.
  destruct (make_decision _ _ _) as [a'|] eqn:E; [|discriminate].
  cbn [mbind option_bind] in H. injection H as <-. eauto.
Qed.

Lemma schedule_step_static (d : Draws) (m m' : Model) :
  schedule_step d m = Some m' →
  ∃ l, m' = set_agent_list l m ∧ store_static (agent_list m) l.
Proof.
  unfold schedule_step. intros H.
  destruct (foldM (agent_step d) (schedule m) m) as [m1|] eqn:E1; [|discriminate].
  cbn [mbind option_bind] in H.
  assert (H1 : ∃ l, m1 = set_agent_list l m ∧ store_static (agent_list m) l).
  { revert E1. apply (foldM_inv _ (fun _ t => ∃ l, t = set_agent_list l m
                                              ∧ store_static (agent_list m) l)).
    - exists (agent_list m). split; [destruct m; reflexivity | apply store_static_refl].
    - intros pre i post t t' _ (l & -> & Hl) Hs.
      apply agent_step_inv in Hs as (a & a' & Ha & Hh & ->).
      cbn [agent_list set_agent_list] in *. eexists; split; [reflexivity|].
      eapply store_static_trans; [exact Hl|].
      eapply store_static_insert; eauto using Household_step_static. }
  destruct H1 as (l1 & -> & Hl1). cbn [schedule set_agent_list] in H.
  revert H. apply (foldM_inv _ (fun _ t => ∃ l, t = set_agent_list l m
                                           ∧ store_static (agent_list m) l)).
  - exists l1. split; [reflexivity | exact Hl1].
  - intros pre i post t t' _ (l & -> & Hl) Hs.
    apply agent_advance_inv in Hs as (a & a' & Ha & Hh & ->).
    cbn [agent_list set_agent_list] in *. eexists; split; [reflexivity|].
    eapply store_static_trans; [exact Hl|].
    eapply store_static_insert; eauto using make_decision_static.
Qed.

Lemma reap_agent_inv (m m' : Model) (i : nat) :
  reap_agent m i = Some m' →
  m' = m
  ∨ ∃ a p, agent_list m !! i = Some a ∧ retreated a = true ∧ i ∈ schedule m
           ∧ pos a = Some p
           ∧ m' = with_roster (remove_first i (schedule m)) (delete p (grid m))
                    (num_agents m - 1) m.
Proof.
  unfold reap_agent. intros H.
  destruct (agent_list m !! i) as [a|] eqn:Ha; [|discriminate]. cbn [mbind option_bind] in H.
  destruct (retreated a) eqn:Hr; cbn [andb] in H; [|injection H as <-; auto].
  destruct (bool_decide (i ∈ schedule m)) eqn:Hin; [|injection H as <-; auto].
  apply bool_decide_eq_true in Hin.
  destruct (pos a) as [p|] eqn:Hp; [|discriminate]. cbn [mbind option_bind] in H.
  injection H as <-. right. exists a, p. auto.
Qed.

Lemma reap_agents_kept (m m' : Model) :
  reap m = Some m' → ∃ s g n, m' = with_roster s g n m.
Proof.
  unfold reap.
  apply (foldM_inv _ (fun _ t => ∃ s g n, t = with_roster s g n m)).
  - exists (schedule m), (grid m), (num_agents m). apply with_roster_id.
  - intros pre i post t t' _ (s & g & n & ->) Hr.
    apply reap_agent_inv in Hr as [->|(a & p & _ & _ & _ & _ & ->)];
      eexists _, _, _; reflexivity.
Qed.

Lemma step_static (d : Draws) (m m' : Model) :
  step d m = Some m' → store_static (agent_list m) (agent_list m').
Proof.
  intros H. apply step_inv in H as (m2 & m3 & m4 & H2 & H3 & H4 & ->).
  apply community_adaptation_world in H2. destruct H2 as [_ H2 _ _ _ _ _ _].
  apply schedule_step_static in H3 as (l & -> & Hl).
  apply reap_agents_kept in H4 as (s & g & n & ->).
  rewrite H2 in Hl. exact Hl.
Qed.

(** X1. A run never changes the id, the coordinates, the grid position,
    the elevation or the connections list of any household, and never
    adds or drops a household object. *)
Theorem run_keeps_static_attributes (ds : nat → Draws) (k : nat) (m m' : Model) :
  run ds k m = Some m' →
  length (agent_list m') = length (agent_list m)
  ∧ ∀ i a, agent_list m !! i = Some a →
      ∃ a', agent_list m' !! i = Some a'
        ∧ unique_id a' = unique_id a ∧ x a' = x a ∧ y a' = y a ∧ pos a' = pos a
        ∧ elevation a' = elevation a ∧ connections a' = connections a.
Proof.
  intros H.
  assert (Hs : store_static (agent_list m) (agent_list m')).
  { revert m' H. induction k as [|k IH]; simpl; intros m' H.
    - injection H as <-. apply store_static_refl.
    - destruct (run ds k m) as [m1|]; [|discriminate]. cbn [mbind option_bind] in H.
      eapply store_static_trans; [apply IH; reflexivity|].
      eapply step_static; eauto. }
  destruct Hs as [Hlen Hs]. split; [exact Hlen|].
  intros i a Ha. destruct (Hs i a Ha) as (a' & Ha' & []). eauto 10.
Qed.

Lemma run_keeps_static_attributes_witness :
  length (agent_list trio_after_storms) = length (agent_list trio_spatial)
  ∧ ∀ i a, agent_list trio_spatial !! i = Some a →
      ∃ a', agent_list trio_after_storms !! i = Some a'
        ∧ unique_id a' = unique_id a ∧ x a' = x a ∧ y a' = y a ∧ pos a' = pos a
        ∧ elevation a' = elevation a ∧ connections a' = connections a.
Proof.
  apply (run_keeps_static_attributes (fun _ => stormy_year) 2 trio_spatial).
  vm_compute. reflexivity.
Defined.

(** ** The clock, the sea and the data table *)

(** What a year does to the model attributes that are not about
    households: everything is read off the model at the start of the year. *)
Lemma step_frame (d : Draws) (m m' : Model) :
  step d m = Some m' →
  tick m' = (tick m + 1)%Z
  ∧ sea_level m' = init_slr_increase * inject_Z (tick m)
                   + slr_acceleration m * inject_Z (tick m ^ 2)
  ∧ storm_surge m' = Qmax 0 (- surge_log d / 1.164)
  ∧ datacollector m' = datacollector m ++ [model_row m']
  ∧ width m' = width m ∧ height m' = height m
  ∧ slr_acceleration m' = slr_acceleration m
  ∧ network_mode m' = network_mode m ∧ network_parameter m' = network_parameter m.
Proof.
  intros H. apply step_inv in H as (m2 & m3 & m4 & H2 & H3 & H4 & ->).
  apply community_adaptation_world in H2.
  destruct H2 as [_ _ _ _ Ht Hsea Hsurge Hdata Hw Hh Hslr Hmode Hpar].
  apply schedule_step_static in H3 as (l & -> & _).
  apply reap_agents_kept in H4 as (s & g & n & ->).
  unfold model_row.
  cbn [tick sea_level storm_surge datacollector width height slr_acceleration network_mode
       network_parameter num_agents accommodation_incentive retreat_incentive p_adapt
       set_tick collect set_datacollector with_roster set_num_agents
       set_grid set_schedule set_agent_list] in *.
  rewrite Ht, Hsea, Hsurge, Hdata, Hw, Hh, Hslr, Hmode, Hpar.
  repeat split.
Qed.

Lemma run_S_inv (ds : nat → Draws) (k : nat) (m m' : Model) :
  run ds (Datatypes.S k) m = Some m' → ∃ m1, run ds k m = Some m1 ∧ step (ds k) m1 = Some m'.
Proof.
  simpl. destruct (run ds k m) as [m1|]; [|discriminate]. cbn [mbind option_bind]. eauto.
Qed.

Lemma storm_surge_sign (lg : Q) :
  0 <= Qmax 0 (- lg / 1.164) ∧ (0 < Qmax 0 (- lg / 1.164) ↔ lg < 0).
Proof.
  split; [apply Q.le_max_l|].
  assert (Hv : - lg / 1.164 == - lg * (1000 # 1164)) by (unfold Qdiv; reflexivity).
  destruct (Q.max_spec 0 (- lg / 1.164)) as [[H1 H2]|[H1 H2]]; rewrite H2; split; intros H; lra.
Qed.

(** X2. After k years the clock has advanced by k and the acceleration is
    what it was.  After at least one year, the sea level is the quadratic
    law evaluated at the tick at which the last year started (one less
    than the clock), the storm surge is not negative, and it is positive
    exactly when the logarithm drawn for that year was negative. *)
Theorem run_clock_and_sea (ds : nat → Draws) (k : nat) (m m' : Model) :
  run ds k m = Some m' →
  tick m' = (tick m + Z.of_nat k)%Z
  ∧ slr_acceleration m' = slr_acceleration m
  ∧ ((0 < k)%nat →
       sea_level m' = init_slr_increase * inject_Z (tick m' - 1)
                      + slr_acceleration m' * inject_Z ((tick m' - 1) ^ 2)
       ∧ 0 <= storm_surge m'
       ∧ (0 < storm_surge m' ↔ surge_log (ds (k - 1)%nat) < 0)).
Proof.
  revert m'. induction k as [|k IH]; intros m' H.
  - simpl in H. injection H as <-. split; [lia|]. split; [reflexivity|]. intros Hk. lia.
  - apply run_S_inv in H as (m1 & Hrun & Hstep).
    destruct (IH m1 Hrun) as (Ht & Hslr & _).
    apply step_frame in Hstep as (Ft & Fsea & Fsurge & _ & _ & _ & Fslr & _).
    split; [lia|]. split; [congruence|]. intros _.
    replace (tick m' - 1)%Z with (tick m1) by lia.
    replace (Datatypes.S k - 1)%nat with k by lia.
    rewrite Fsea, Fsurge, Fslr. split; [reflexivity|]. apply storm_surge_sign.
Qed.

Lemma run_clock_and_sea_witness :
  tick trio_after_storms = 2%Z
  ∧ sea_level trio_after_storms == 0.007
  ∧ 0 < storm_surge trio_after_storms.
Proof.
  destruct (run_clock_and_sea (fun _ => stormy_year) 2 trio_spatial trio_after_storms)
    as (Ht & _ & Hsea); [vm_compute; reflexivity|].
  destruct (Hsea ltac:(lia)) as (Hs & _ & Hsurge).
  split; [exact Ht|]. split; [rewrite Hs; vm_compute; reflexivity|].
  apply Hsurge. vm_compute. reflexivity.
Defined.

(** X3. With a non-negative acceleration and a clock that started at a
    non-negative tick, the sea level of a year is at least that of the
    year before. *)
Theorem sea_level_never_falls (ds : nat → Draws) (d : Draws) (k : nat) (m m1 m2 : Model) :
  (0 ≤ tick m)%Z → 0 <= slr_acceleration m → (0 < k)%nat →
  run ds k m = Some m1 → step d m1 = Some m2 →
  sea_level m1 <= sea_level m2.
Proof.
  intros Ht Hslr Hk Hrun Hstep.
  destruct (run_clock_and_sea ds k m m1 Hrun) as (Ft & Fslr & Fsea).
  destruct (Fsea Hk) as (Hs1 & _).
  apply step_frame in Hstep as (_ & Hs2 & _).
  rewrite Hs1, Hs2, Fslr. unfold init_slr_increase.
  assert (H0 : (0 ≤ tick m1 - 1)%Z) by lia.
  set (t := (tick m1 - 1)%Z) in *.
  replace (tick m1) with (t + 1)%Z by (subst t; lia).
  replace ((t + 1) ^ 2)%Z with (t ^ 2 + (2 * t + 1))%Z by ring.
  rewrite (inject_Z_plus (t ^ 2)), (inject_Z_plus t 1).
  pose proof (inject_Z_nonneg (2 * t + 1) ltac:(lia)) as H1.
  assert (H2 : inject_Z 1 == 1) by reflexivity.
  nra.
Qed.

Lemma sea_level_never_falls_witness :
  sea_level low_year1 <= sea_level low_year2.
Proof.
  apply (sea_level_never_falls (fun _ => quiet_year) quiet_year_up 1
           single_model_low low_year1 low_year2).
  - vm_compute. discriminate.
  - vm_compute. discriminate.
  - lia.
  - vm_compute. reflexivity.
  - vm_compute. reflexivity.
Defined.

Lemma step_deterministic_spec (d : Draws) (m m' : Model) :
  Inv m → step d m = Some m' → Inv m' ∧ (num_agents m' ≤ num_agents m)%Z.
Proof.
  intros Hinv Hs. destruct (step_spec d m Hinv) as (m1 & H1 & Hinv1 & _ & Hn & _).
  rewrite Hs in H1. injection H1 as <-. auto.
Qed.

(** X4. A run of k years from a reachable state appends exactly k rows to
    the data table and keeps the rows it had; the last row describes the
    final model; every appended Population lies between the final and the
    initial population, and Population does not increase down the table. *)
Theorem data_table_grows_by_one_row_a_year (ds : nat → Draws) (k : nat) (m m' : Model) :
  reachable m → run ds k m = Some m' →
  ∃ rows,
    datacollector m' = datacollector m ++ rows
    ∧ length rows = k
    ∧ (∀ r, last rows = Some r → r = model_row m')
    ∧ (∀ i r, rows !! i = Some r → (num_agents m' ≤ Population r ≤ num_agents m)%Z)
    ∧ (∀ i j ri rj, (i ≤ j)%nat → rows !! i = Some ri → rows !! j = Some rj →
         (Population rj ≤ Population ri)%Z).
Proof.
  intros Hr. pose proof (reachable_Inv m Hr) as Hinv. clear Hr.
  revert m'. induction k as [|k IH]; intros m' H.
  - simpl in H. injection H as <-. exists []. rewrite app_nil_r.
    repeat split; try discriminate; intros; rewrite lookup_nil in *; discriminate.
  - apply run_S_inv in H as (m1 & Hrun & Hstep).
    destruct (IH m1 Hrun) as (rows & Hd & Hlen & Hlast & Hb & Hs).
    assert (Hinv1 : Inv m1).
    { destruct (run_spec ds k m Hinv) as (m1' & H1 & Hi & _).
      rewrite Hrun in H1. injection H1 as <-. exact Hi. }
    assert (Hn1 : (num_agents m1 ≤ num_agents m)%Z).
    { destruct (run_spec ds k m Hinv) as (m1' & H1 & _ & _ & Hn & _).
      rewrite Hrun in H1. injection H1 as <-. exact Hn. }
    destruct (step_deterministic_spec _ _ _ Hinv1 Hstep) as (_ & Hn).
    apply step_frame in Hstep as (_ & _ & _ & Fd & _).
    exists (rows ++ [model_row m']).
    split; [rewrite Fd, Hd, app_assoc; reflexivity|].
    split; [rewrite length_app; simpl; lia|].
    split; [intros r Hl; rewrite last_snoc in Hl; congruence|].
    assert (Hrow : ∀ i r, (rows ++ [model_row m']) !! i = Some r →
              (i < length rows)%nat ∧ rows !! i = Some r
              ∨ i = length rows ∧ r = model_row m').
    { intros i r Hi. apply lookup_app_Some in Hi as [Hi|[Hge Hi]].
      - left. split; [eapply lookup_lt_Some; eauto | exact Hi].
      - right. destruct (i - length rows)%nat eqn:E; [|discriminate].
        injection Hi as <-. split; [lia | reflexivity]. }
    split.
    + intros i r Hi. apply Hrow in Hi as [[_ Hi]|[_ ->]].
      * specialize (Hb i r Hi). lia.
      * cbn. lia.
    + intros i j ri rj Hij Hi Hj.
      apply Hrow in Hi as [[Hil Hi]|[Hil ->]]; apply Hrow in Hj as [[Hjl Hj]|[Hjl ->]].
      * eauto.
      * specialize (Hb i ri Hi). cbn. lia.
      * lia.
      * lia.
Qed.

Lemma data_table_grows_by_one_row_a_year_witness :
  ∃ rows,
    datacollector trio_after_storms = datacollector trio_spatial ++ rows
    ∧ length rows = 2%nat
    ∧ (Population <$> rows) = [3%Z; 1%Z].
Proof.
  destruct (data_table_grows_by_one_row_a_year (fun _ => stormy_year) 2
              trio_spatial trio_after_storms) as (rows & Hd & Hlen & _).
  { apply (reachable_init 3 3 3 0 "spatial" 2 0 [0%Z; 4%Z; 8%Z] (fun _ => 1));
      [exact trio_sample | vm_compute; reflexivity]. }
  { vm_compute. reflexivity. }
  exists rows. split; [exact Hd|]. split; [exact Hlen|].
  change (datacollector trio_spatial) with (@nil ModelVars) in Hd. simpl in Hd.
  rewrite <- Hd. vm_compute. reflexivity.
Defined.

(** ** Attachment *)

Lemma connection_counts_closed (store : list Household) (l : list nat) (c : Z * Z) :
  connection_counts store l = Some c →
  c = (Z.of_nat (retreated_connections store l), Z.of_nat (remaining_connections store l))
  ∧ (retreated_connections store l + remaining_connections store l = length l)%nat.
Proof.
  unfold retreated_connections, remaining_connections.
  revert c. induction l as [|j l IH]; intros c H.
  - injection H as <-. split; reflexivity.
  - unfold connection_counts in H. simpl in H.
    destruct (store !! j) as [b|] eqn:Hj; [|discriminate]. cbn [mbind option_bind] in H.
    rewrite !filter_cons, Hj. cbn [fmap option_fmap option_map].
    destruct (retreated b) eqn:Hb; cbn [fst snd] in H; rewrite connection_counts_shift in H;
      destruct (connection_counts store l) as [c0|]; try discriminate;
      injection H as <-; destruct (IH c0 eq_refl) as (-> & Hsum); cbn [fst snd].
    + rewrite decide_True by reflexivity. rewrite decide_False by discriminate.
      split; [f_equal; simpl; lia | simpl; lia].
    + rewrite decide_False by discriminate. rewrite decide_True by reflexivity.
      split; [f_equal; simpl; lia | simpl; lia].
Qed.

(** X5. When [calculate_attachment] returns, it has assigned only
    [attachment]: 0 for an empty connections list, otherwise the number of
    entries that refer to a household that has not retreated divided by the
    number of entries, so the value lies in [0, 1], is 1 exactly when no
    entry has retreated and 0 exactly when all have. *)
Theorem attachment_is_share_of_remaining (store : list Household) (a a' : Household) :
  calculate_attachment store a = Some a' →
  a' = set_attachment (attachment a') a
  ∧ (connections a = [] → attachment a' = 0)
  ∧ (connections a ≠ [] →
       attachment a' == inject_Z (Z.of_nat (remaining_connections store (connections a)))
                        / inject_Z (Z.of_nat (length (connections a)))
       ∧ (attachment a' == 1
          ↔ remaining_connections store (connections a) = length (connections a))
       ∧ (attachment a' == 0 ↔ remaining_connections store (connections a) = 0%nat))
  ∧ 0 <= attachment a' ∧ attachment a' <= 1.
Proof.
  unfold calculate_attachment. intros H.
  destruct (connection_counts store (connections a)) as [c|] eqn:Hc; [|discriminate].
  cbn [mbind option_bind] in H.
  apply connection_counts_closed in Hc as (-> & Hsum). cbn [fst snd] in H.
  set (r := retreated_connections store (connections a)) in *.
  set (s := remaining_connections store (connections a)) in *.
  clearbody r s.
  destruct (connections a) as [|j l] eqn:Hl.
  - simpl in Hsum. assert (r = 0%nat ∧ s = 0%nat) as [-> ->] by lia.
    simpl in H. injection H as <-. cbn.
    split; [reflexivity|]. split; [reflexivity|]. split; [congruence|]. lra.
  - assert (Hpos : (0 < Z.of_nat r + Z.of_nat s)%Z) by (simpl in Hsum; lia).
    apply Z.ltb_lt in Hpos. rewrite Hpos in H. apply Z.ltb_lt in Hpos.
    pose proof (inject_Z_pos _ Hpos) as Hq.
    rewrite pydiv_Some in H by lra. cbn [mbind option_bind] in H. injection H as <-.
    cbn [attachment set_attachment].
    replace (Z.of_nat (length (j :: l))) with (Z.of_nat r + Z.of_nat s)%Z by lia.
    pose proof (inject_Z_nonneg (Z.of_nat s) ltac:(lia)) as Hs0.
    pose proof (inject_Z_nonneg (Z.of_nat r) ltac:(lia)) as Hr0.
    assert (Hle : inject_Z (Z.of_nat s) <= inject_Z (Z.of_nat r + Z.of_nat s))
      by (rewrite <- Zle_Qle; lia).
    set (qs := inject_Z (Z.of_nat s)) in *.
    set (qt := inject_Z (Z.of_nat r + Z.of_nat s)) in *.
    assert (Hone : qs / qt == 1 ↔ qs == qt).
    { split; intros E.
      - assert (qs == qs / qt * qt) by (field; lra). rewrite E in H. lra.
      - rewrite E. field. lra. }
    assert (Hzero : qs / qt == 0 ↔ qs == 0).
    { split; intros E.
      - assert (qs == qs / qt * qt) by (field; lra). rewrite E in H. lra.
      - rewrite E. field. lra. }
    split; [reflexivity|]. split; [discriminate|]. split; [|split].
    + intros _. split; [reflexivity|]. split.
      * rewrite Hone. subst qs qt. rewrite inject_Z_injective. lia.
      * rewrite Hzero. subst qs. change 0 with (inject_Z 0).
        rewrite inject_Z_injective. lia.
    + apply Qdiv_nonneg; assumption.
    + apply Qle_shift_div_r; [assumption | lra].
Qed.

Lemma attachment_is_share_of_remaining_witness :
  ∃ a, agent_list trio_net_after_storms !! 1%nat = Some a
       ∧ connections a = [0; 0; 2; 2]%nat
       ∧ ∃ a', calculate_attachment (agent_list trio_net_after_storms) a = Some a'
               ∧ attachment a' == 1 # 2.
Proof.
  eexists. split; [vm_compute; reflexivity|]. split; [reflexivity|].
  match goal with
  | |- ∃ a', calculate_attachment ?st ?a = _ ∧ _ =>
      destruct (calculate_attachment st a) as [a'|] eqn:E; [|vm_compute in E; discriminate]
  end.
  exists a'. split; [reflexivity|].
  destruct (attachment_is_share_of_remaining _ _ _ E) as (_ & _ & Hshare & _).
  destruct Hshare as (Heq & _); [discriminate|].
  rewrite Heq. vm_compute. reflexivity.
Defined.

(** ** The probability of acting *)











(** ** Flood damage *)

(** X8. [apply_damage] assigns only [flood_damage].  Without a storm the
    remembered damage is multiplied by 0.9.  With a storm the remembered
    damage plays no part: the new value is the flood height (surge plus
    inundation, floored at 0) less 5% per metre of accommodation, so it is
    0 when the surge does not reach the household, and for a household
    with accommodation at most 2 it lies between 90% and 100% of the flood
    height. *)
Theorem damage_memory (m : Model) (a : Household) :
  (storm_surge m <= 0 → apply_damage m a = set_flood_damage (flood_damage a * 0.9) a)
  ∧ (0 < storm_surge m →
       (∀ v, apply_damage m (set_flood_damage v a) = apply_damage m a)
       ∧ flood_damage (apply_damage m a)
         = Qmax 0 (storm_surge m + inundation a) * (1 - accommodation a * 0.05)
       ∧ (storm_surge m + inundation a <= 0 → flood_damage (apply_damage m a) == 0)
       ∧ (0 <= accommodation a → accommodation a <= 2 →
            0.9 * Qmax 0 (storm_surge m + inundation a) <= flood_damage (apply_damage m a)
            ∧ flood_damage (apply_damage m a) <= Qmax 0 (storm_surge m + inundation a))).
Proof.
  unfold apply_damage. split.
  - intros H. apply Qlt_bool_false in H. rewrite H. reflexivity.
  - intros H. apply Qlt_bool_iff in H. rewrite H.
    cbn [flood_damage inundation accommodation set_flood_damage].
    pose proof (Q.le_max_l 0 (storm_surge m + inundation a)) as Hmax.
    split; [reflexivity|]. split; [reflexivity|]. split.
    + intros Hdry. rewrite Q.max_l by exact Hdry. ring.
    + intros H0 H2. split; nra.
Qed.

Lemma damage_memory_witness :
  ∃ a, agent_list trio_after_storms !! 0%nat = Some a
       ∧ flood_damage (apply_damage trio_after_storms a)
         <= Qmax 0 (storm_surge trio_after_storms + inundation a).
Proof.
  eexists. split; [vm_compute; reflexivity|].
  match goal with |- flood_damage (apply_damage ?m ?a) <= _ =>
    refine (proj2 (proj2 (proj2 (proj2 (proj2 (damage_memory m a) _))) _ _))
  end.
  - vm_compute. reflexivity.
  - vm_compute. discriminate.
  - vm_compute. discriminate.
Defined.

(** ** One action a year *)

(** X9. A call of [make_decision] that returns has done at most one of
    three things to the household's outcomes: moved [resistance] one step
    up the ladder, moved [accommodation] one step up the ladder, or set
    [retreated]; the other two outcomes are then as they were. *)
Theorem one_action_a_year (m : Model) (u : Q) (a a' : Household) :
  make_decision m u a = Some a' →
  (resistance a' = resistance a ∧ accommodation a' = accommodation a
   ∧ retreated a' = retreated a)
  ∨ (resistance a' = escalate (resistance a) ∧ accommodation a' = accommodation a
     ∧ retreated a' = retreated a)
  ∨ (resistance a' = resistance a ∧ accommodation a' = escalate (accommodation a)
     ∧ retreated a' = retreated a)
  ∨ (resistance a' = resistance a ∧ accommodation a' = accommodation a
     ∧ retreated a' = true).
Proof.
  unfold make_decision. intros H.
  destruct (decision_weights m a) as [a1|] eqn:Hw; [|discriminate].
  cbn [mbind option_bind] in H.
  apply decision_weights_static in Hw as (_ & Hr1 & Ha1 & Ht1).
  unfold decision_commit in H.
  destruct (negb _); [|injection H as <-; auto].
  destruct (normalise_weights a1) as [a2|] eqn:Hn; [|discriminate].
  cbn [mbind option_bind] in H.
  apply normalise_weights_static in Hn as (_ & Hr2 & Ha2 & Ht2 & _).
  rewrite <- Hr1, <- Ha1, <- Ht1, <- Hr2, <- Ha2, <- Ht2.
  apply take_action_cases in H as [-> | [-> | [-> | ->]]]; cbn; auto 10.
Qed.

Lemma one_action_a_year_witness :
  ∃ a, agent_list trio_spatial !! 1%nat = Some a
       ∧ ∃ a', make_decision trio_spatial 0.09 a = Some a'
               ∧ resistance a' = resistance a ∧ retreated a' = retreated a
               ∧ accommodation a' = 1.
Proof.
  eexists. split; [vm_compute; reflexivity|].
  match goal with
  | |- ∃ a', make_decision ?m ?u ?a = _ ∧ _ =>
      destruct (make_decision m u a) as [a'|] eqn:E; [|vm_compute in E; discriminate]
  end.
  exists a'. split; [reflexivity|].
  destruct (one_action_a_year _ _ _ _ E) as [H|[H|[H|H]]];
    vm_compute in E; injection E as <-; destruct H as (H1 & H2 & H3);
    try discriminate; auto.
Defined.

(** ** A year with nobody left *)




(** ** How far the community attributes move in a year *)

Lemma incentive_decay_moves (u1 u2 : Q) (m : Model) :
  community_resistance (incentive_decay u1 u2 m) = community_resistance m
  ∧ (accommodation_incentive m - 1 ≤ accommodation_incentive (incentive_decay u1 u2 m))%Z
  ∧ (retreat_incentive m - 1 ≤ retreat_incentive (incentive_decay u1 u2 m))%Z
  ∧ ((1 ≤ accommodation_incentive m)%Z →
     (accommodation_incentive (incentive_decay u1 u2 m) ≤ accommodation_incentive m)%Z)
  ∧ ((1 ≤ retreat_incentive m)%Z →
     (retreat_incentive (incentive_decay u1 u2 m) ≤ retreat_incentive m)%Z).
Proof.
  unfold incentive_decay. destruct (u1 <? 0.1), (u2 <? 0.1); cbn; repeat split; lia.
Qed.

Lemma community_adaptation_moves (u u1 u2 : Q) (m m' : Model) :
  Core m → community_adaptation u u1 u2 m = Some m' →
  (0 ≤ community_resistance m' - community_resistance m)%Z
  ∧ (-1 ≤ accommodation_incentive m' - accommodation_incentive m)%Z
  ∧ (-1 ≤ retreat_incentive m' - retreat_incentive m)%Z
  ∧ ((community_resistance m' - community_resistance m)
     + Z.max 0 (accommodation_incentive m' - accommodation_incentive m)
     + Z.max 0 (retreat_incentive m' - retreat_incentive m) ≤ 1)%Z.
Proof.
  intros Hc. unfold community_adaptation.
  destruct (roster_totals_spec m Hc) as (t & -> & Ht). cbn [mbind option_bind].
  qtest (0 <? num_agents m)%Z; [|intros [= <-]; lia].
  pose proof (inject_Z_pos _ E) as Hq.
  rewrite !pydiv_Some by lra. cbn [mbind option_bind]. intros [= <-].
  set (p := action_curve _ _).
  assert (Hp : 0.1 <= p).
  { subst p. apply action_curve_lower.
    - apply Q.min_glb; [lra | apply Qdiv_nonneg; assumption].
    - apply Q.le_min_l.
    - apply Q.le_max_l.
    - apply Q.max_lub; [lra|]. eapply Qle_trans; [apply Q.le_min_r | lra]. }
  clearbody p.
  destruct (adaptation_staircase_spec u (set_p_adapt p m))
    as (cr & ai & ri & Hst & H1 & H2 & H3 & _ & H5);
    [cbn; lra | apply (core_resistance m Hc) |].
  cbn [community_resistance accommodation_incentive retreat_incentive p_adapt set_p_adapt]
    in *.
  rewrite Hst.
  pose proof (core_accommodation m Hc) as Hai. pose proof (core_retreat m Hc) as Hri.
  destruct (incentive_decay_moves u1 u2 (with_incentives p cr ai ri (set_p_adapt p m)))
    as (D1 & D2 & D3 & D4 & D5).
  cbn [community_resistance accommodation_incentive retreat_incentive with_incentives
       set_retreat_incentive set_accommodation_incentive set_community_resistance
       set_p_adapt] in D1, D2, D3, D4, D5.
  specialize (D4 ltac:(lia)). specialize (D5 ltac:(lia)).
  rewrite D1. lia.
Qed.

(** X11. Over one year from a reachable state, community resistance does
    not fall, neither incentive falls by more than 1, and the three
    increases (counting a decrease as none) add up to at most 1: at most
    one of the three attributes rises, and by one. *)
Theorem community_moves_one_step (d : Draws) (m m' : Model) :
  reachable m → step d m = Some m' →
  (0 ≤ community_resistance m' - community_resistance m)%Z
  ∧ (-1 ≤ accommodation_incentive m' - accommodation_incentive m)%Z
  ∧ (-1 ≤ retreat_incentive m' - retreat_incentive m)%Z
  ∧ ((community_resistance m' - community_resistance m)
     + Z.max 0 (accommodation_incentive m' - accommodation_incentive m)
     + Z.max 0 (retreat_incentive m' - retreat_incentive m) ≤ 1)%Z.
Proof.
  intros Hr Hstep. pose proof (reachable_Inv m Hr) as [Hc _].
  apply step_inv in Hstep as (m2 & m3 & m4 & H2 & H3 & H4 & ->).
  apply schedule_step_static in H3 as (l & -> & _).
  apply reap_agents_kept in H4 as (s & g & n & ->).
  apply community_adaptation_moves in H2; [|apply (Core_ext m); auto; apply Hc].
  exact H2.
Qed.

Lemma community_moves_one_step_witness :
  (0 ≤ community_resistance low_year1 - community_resistance single_model_low)%Z
  ∧ (-1 ≤ accommodation_incentive low_year1 - accommodation_incentive single_model_low)%Z
  ∧ (-1 ≤ retreat_incentive low_year1 - retreat_incentive single_model_low)%Z
  ∧ ((community_resistance low_year1 - community_resistance single_model_low)
     + Z.max 0 (accommodation_incentive low_year1 - accommodation_incentive single_model_low)
     + Z.max 0 (retreat_incentive low_year1 - retreat_incentive single_model_low) ≤ 1)%Z.
Proof.
  apply (community_moves_one_step quiet_year single_model_low low_year1).
  - apply (reachable_init 1 1 1 0 "aspatial" 0 0 [0%Z] (fun _ => -0.05));
      [exact single_sample | vm_compute; reflexivity].
  - vm_compute. reflexivity.
Defined.

(** ** Construction *)

Lemma create_agent_placed (w h : Z) (locations : list Z) (capacity : nat → Q)
    (t t' : Model) (k : nat) :
  (0 < w)%Z → length (agent_list t) = k → placed w h locations capacity t →
  create_agent locations capacity t k = Some t' →
  placed w h locations capacity t'.
Proof.
  intros Hw Hlen (Htw & Hth & Hag). unfold create_agent.
  destruct (locations !! k) as [loc|] eqn:Hloc; [|discriminate]. cbn [mbind option_bind].
  unfold pydivmod. rewrite Hth.
  destruct (h =? 0)%Z; [discriminate|]. cbn [mbind option_bind fst snd].
  unfold Household_init. rewrite Htw.
  rewrite pydiv_Some by (pose proof (inject_Z_pos w Hw); lra).
  cbn [mbind option_bind]. unfold place_agent. cbn [grid set_schedule x y].
  destruct (grid t !! ((loc / h)%Z, (loc mod h)%Z)) as [r|] eqn:Hcell; [discriminate|].
  cbn [mbind option_bind fst snd]. intros [= <-].
  split; [exact Htw|]. split; [exact Hth|].
  cbn [agent_list grid set_agent_list set_grid set_schedule].
  intros i a Hi. apply lookup_app_Some in Hi as [Hi|[Hge Hi]].
  - destruct (Hag i a Hi) as (loc' & H1 & H2 & H3 & H4 & H5 & Hrest).
    exists loc'. repeat split; try tauto.
    rewrite lookup_insert_ne; [exact H5|]. intros Heq. rewrite <- Heq in H5. congruence.
  - rewrite Hlen in *. destruct (i - k)%nat as [|j] eqn:Hj; [|discriminate].
    injection Hi as <-. assert (i = k) by lia. subst i. cbn.
    exists loc. repeat split; auto. apply lookup_insert_eq.
Qed.

Lemma AdaptationModel_init_placed (w h : Z) (n : nat) (slr : Q) (mode : string) (param : Q)
    (t0 : Z) (locations : list Z) (capacity : nat → Q) (m : Model) :
  (0 < w)%Z →
  AdaptationModel_init w h n slr mode param t0 locations capacity = Some m →
  placed w h locations capacity m.
Proof.
  intros Hw. unfold AdaptationModel_init. intros H.
  cut (length (agent_list m) = length (seq 0 n) ∧ placed w h locations capacity m); [tauto|].
  revert H. apply (foldM_inv _ (fun pre t => length (agent_list t) = length pre
                                             ∧ placed w h locations capacity t)).
  - split; [reflexivity|]. split; [reflexivity|]. split; [reflexivity|].
    intros i a Hi. cbn in Hi. rewrite lookup_nil in Hi. discriminate.
  - intros pre i post t t' Heq (Hlen & Hp) Hc.
    apply seq_split_head in Heq. subst i. split.
    + pose proof (create_agent_built locations capacity n (length pre) t t') as Hb.
      clear Hb. unfold create_agent in Hc.
      destruct (locations !! _); [|discriminate]. cbn [mbind option_bind] in Hc.
      destruct (pydivmod _ _); [|discriminate]. cbn [mbind option_bind] in Hc.
      destruct (Household_init _ _ _ _ _); [|discriminate]. cbn [mbind option_bind] in Hc.
      destruct (place_agent _ _ _ _); [|discriminate]. cbn [mbind option_bind] in Hc.
      injection Hc as <-. cbn [agent_list set_agent_list set_grid set_schedule].
      rewrite !length_app, Hlen. reflexivity.
    + eapply create_agent_placed; eauto.
Qed.

(** X12. When construction returns on a grid of positive width w and
    height h with locations sampled from range(w*h), the model has n
    households with ids 0 .. n-1, all enrolled in id order; household i has
    x = loc_i // h and y = loc_i % h inside the grid, its position is
    (x, y) and that cell holds it, so no two households share a cell; its
    elevation is 10*x/w, in [0, 10); its capacity is the value drawn for
    it; and it starts not retreated, unconnected, with resistance,
    accommodation and damage 0 and weights 0.6, 0.3, 0.1. *)
Theorem construction_places_households
    (w h : Z) (n : nat) (slr : Q) (mode : string) (param : Q) (t0 : Z)
    (locations : list Z) (capacity : nat → Q) (m : Model) :
  (0 < w)%Z → (0 < h)%Z → is_sample (w * h) n locations →
  AdaptationModel_init w h n slr mode param t0 locations capacity = Some m →
  num_agents m = Z.of_nat n ∧ length (agent_list m) = n ∧ schedule m = seq 0 n
  ∧ (∀ i a, agent_list m !! i = Some a →
       unique_id a = i
       ∧ (∃ loc, locations !! i = Some loc ∧ x a = (loc / h)%Z ∧ y a = (loc mod h)%Z)
       ∧ (0 ≤ x a < w)%Z ∧ (0 ≤ y a < h)%Z
       ∧ pos a = Some (x a, y a) ∧ grid m !! (x a, y a) = Some i
       ∧ elevation a = inject_Z (x a) / inject_Z w * 10
       ∧ 0 <= elevation a ∧ elevation a < 10
       ∧ adaptive_capacity a = capacity i
       ∧ retreated a = false ∧ connections a = []
       ∧ resistance a = 0 ∧ accommodation a = 0 ∧ flood_damage a = 0
       ∧ p_resist a = 0.6 ∧ p_accommodate a = 0.3 ∧ p_retreat a = 0.1)
  ∧ (∀ i j a b, agent_list m !! i = Some a → agent_list m !! j = Some b → i ≠ j →
       (x a, y a) ≠ (x b, y b)).
Proof.
  intros Hw Hh (Hlen & Hnd & Hrange) Hinit.
  pose proof (AdaptationModel_init_built _ _ _ _ _ _ _ _ _ _ Hinit) as Hb.
  pose proof (AdaptationModel_init_placed _ _ _ _ _ _ _ _ _ _ Hw Hinit) as (_ & _ & Hp).
  split; [apply Hb|]. split; [apply Hb|]. split; [apply Hb|]. split.
  - intros i a Hi.
    destruct (built_agents n n m Hb i a Hi) as (Hid & _ & Hconn & Hret).
    destruct (Hp i a Hi) as (loc & Hloc & Hx & Hy & Hpos & Hcell & Hel & Hcap & Hrest).
    assert (Hl : (0 ≤ loc < w * h)%Z).
    { apply Hrange. eapply list_elem_of_lookup_2; eauto. }
    assert (Hxr : (0 ≤ x a < w)%Z).
    { rewrite Hx. split; [apply Z.div_pos; lia|].
      apply Z.div_lt_upper_bound; lia. }
    assert (Hyr : (0 ≤ y a < h)%Z) by (rewrite Hy; apply Z.mod_pos_bound; lia).
    pose proof (inject_Z_pos w Hw) as Hqw.
    pose proof (inject_Z_nonneg (x a) ltac:(lia)) as Hqx.
    assert (Hqlt : inject_Z (x a) < inject_Z w) by (rewrite <- Zlt_Qlt; lia).
    assert (Hfrac : 0 <= inject_Z (x a) / inject_Z w) by (apply Qdiv_nonneg; assumption).
    assert (Hfrac1 : inject_Z (x a) / inject_Z w < 1)
      by (apply Qlt_shift_div_r; [assumption | lra]).
    split; [exact Hid|]. split; [eauto|]. split; [exact Hxr|]. split; [exact Hyr|].
    split; [exact Hpos|]. split; [exact Hcell|]. split; [exact Hel|].
    split; [rewrite Hel; lra|]. split; [rewrite Hel; lra|].
    split; [exact Hcap|]. split; [exact Hret|]. split; [exact Hconn|]. tauto.
  - intros i j a b Hi Hj Hne Heq.
    destruct (Hp i a Hi) as (_ & _ & _ & _ & _ & Hci & _).
    destruct (Hp j b Hj) as (_ & _ & _ & _ & _ & Hcj & _).
    rewrite Heq in Hci. congruence.
Qed.

Lemma construction_places_households_witness :
  num_agents trio_spatial = 3%Z ∧ schedule trio_spatial = [0; 1; 2]%nat
  ∧ ∃ a, agent_list trio_spatial !! 1%nat = Some a
         ∧ (x a, y a) = (1%Z, 1%Z) ∧ elevation a == 10 # 3.
Proof.
  destruct (construction_places_households 3 3 3 0 "spatial" 2 0 [0%Z; 4%Z; 8%Z]
              (fun _ => 1) trio_spatial) as (Hn & _ & Hs & Hag & _);
    [lia | lia | exact trio_sample | vm_compute; reflexivity |].
  split; [exact Hn|]. split; [exact Hs|].
  eexists. split; [vm_compute; reflexivity|].
  split; [reflexivity | vm_compute; reflexivity].
Defined.

(** ** The social network as a graph *)

(** After construction and [set_init_connections] the number of copies of
    [v] in the list of [k] is given by the tests of the two ordered pairs. *)
Lemma network_counts
    (w h : Z) (n : nat) (slr : Q) (mode : string) (param : Q) (t0 : Z)
    (locations : list Z) (capacity : nat → Q) (draw : nat → nat → Q) (m m' : Model) :
  AdaptationModel_init w h n slr mode param t0 locations capacity = Some m →
  set_init_connections draw m = Some m' →
  ∃ l', m' = set_agent_list l' m ∧ net_store (agent_list m) l'
    ∧ length (agent_list m) = n
    ∧ ∀ k v, cnt l' k v
        = (ind (k < n)%nat * ind (v < n)%nat
           * if String.eqb (network_mode m) "aspatial"
             then Nat.b2n (aspatial_test (agent_list m) (network_parameter m) draw k v)
                  + Nat.b2n (aspatial_test (agent_list m) (network_parameter m) draw v k)
             else Nat.b2n (spatial_test (agent_list m) (network_parameter m) k v)
                  + Nat.b2n (spatial_test (agent_list m) (network_parameter m) v k))%nat.
Proof.
  intros Hinit Hnet.
  pose proof (AdaptationModel_init_built _ _ _ _ _ _ _ _ _ _ Hinit) as Hb.
  pose proof (built_Inv n m Hb) as [Hc _].
  destruct (set_init_connections_spec draw m Hc) as (l' & Hl' & Hstore & Hcnt).
  rewrite Hl' in Hnet. injection Hnet as <-.
  exists l'. split; [reflexivity|]. split; [exact Hstore|].
  split; [exact (built_length n n m Hb)|].
  intros k v. rewrite Hcnt.
  assert (H0 : cnt (agent_list m) k v = 0%nat).
  { unfold cnt, conn. destruct (agent_list m !! k) as [b|] eqn:Hk; [|reflexivity].
    destruct (built_agents n n m Hb k b Hk) as (_ & _ & -> & _). reflexivity. }
  assert (Hind : ∀ i, ind (i ∈ schedule m) = ind (i < n)%nat).
  { intros i. unfold ind. rewrite (built_schedule n n m Hb).
    destruct (decide (i ∈ seq 0 n)) as [Hi|Hi], (decide (i < n)%nat) as [Hl|Hl];
      try reflexivity; exfalso.
    - apply elem_of_seq in Hi. lia.
    - apply Hi, elem_of_seq. lia. }
  rewrite H0, !Hind. reflexivity.
Qed.

Lemma conn_cnt (l : list Household) (k v : nat) : v ∈ conn l k ↔ (0 < cnt l k v)%nat.
Proof.
  unfold cnt. rewrite list_elem_of_In, (count_occ_In Nat.eq_dec). unfold gt. reflexivity.
Qed.

Lemma spatial_test_irrefl (l0 : list Household) (radius : Q) (i : nat) :
  spatial_test l0 radius i i = false.
Proof.
  unfold spatial_test. destruct (l0 !! i) as [a|]; [|reflexivity].
  rewrite Nat.eqb_refl. cbn [negb]. apply andb_false_r.
Qed.

Lemma aspatial_test_irrefl (l0 : list Household) (density : Q) (draw : nat → nat → Q)
    (i : nat) :
  aspatial_test l0 density draw i i = false.
Proof.
  unfold aspatial_test. destruct (l0 !! i) as [a|]; [|reflexivity].
  rewrite Nat.ltb_irrefl. reflexivity.
Qed.

(** X13. After construction and [set_init_connections], in either mode:
    the network is undirected (j is listed by i as often as i is listed by
    j), nobody lists itself, only households that exist are listed, and the
    call has changed nothing but the connections lists. *)
Theorem network_is_undirected
    (w h : Z) (n : nat) (slr : Q) (mode : string) (param : Q) (t0 : Z)
    (locations : list Z) (capacity : nat → Q) (draw : nat → nat → Q) (m m' : Model) :
  AdaptationModel_init w h n slr mode param t0 locations capacity = Some m →
  set_init_connections draw m = Some m' →
  (∀ i j, cnt (agent_list m') i j = cnt (agent_list m') j i)
  ∧ (∀ i j, j ∈ conn (agent_list m') i ↔ i ∈ conn (agent_list m') j)
  ∧ (∀ i j, j ∈ conn (agent_list m') i → (i < n)%nat ∧ (j < n)%nat ∧ i ≠ j)
  ∧ m' = set_agent_list (agent_list m') m
  ∧ length (agent_list m') = n
  ∧ ∀ i a, agent_list m !! i = Some a →
      agent_list m' !! i = Some (set_connections (conn (agent_list m') i) a).
Proof.
  intros Hinit Hnet.
  destruct (network_counts _ _ _ _ _ _ _ _ _ _ _ _ Hinit Hnet)
    as (l' & -> & Hstore & Hlen & Hcnt).
  cbn [agent_list set_agent_list].
  assert (Hsym : ∀ i j, cnt l' i j = cnt l' j i).
  { intros i j. rewrite !Hcnt. destruct (String.eqb _ _); lia. }
  split; [exact Hsym|]. split; [|split; [|split; [|split]]].
  - intros i j. rewrite !conn_cnt, Hsym. reflexivity.
  - intros i j Hin. apply conn_cnt in Hin. rewrite Hcnt in Hin.
    unfold ind in Hin.
    destruct (decide (i < n)%nat) as [Hi|Hi]; [|simpl in Hin; lia].
    destruct (decide (j < n)%nat) as [Hj|Hj]; [|simpl in Hin; lia].
    split; [exact Hi|]. split; [exact Hj|]. intros ->.
    rewrite spatial_test_irrefl, aspatial_test_irrefl in Hin.
    destruct (String.eqb _ _); simpl in Hin; lia.
  - destruct m; reflexivity.
  - rewrite (proj1 Hstore). exact Hlen.
  - intros i a Ha. destruct (proj2 Hstore i a Ha) as (a' & Ha' & Heq & _).
    unfold conn. rewrite Ha'. f_equal. exact Heq.
Qed.

Lemma network_is_undirected_witness :
  cnt (agent_list trio_spatial_net) 0 1 = cnt (agent_list trio_spatial_net) 1 0
  ∧ length (agent_list trio_spatial_net) = 3%nat.
Proof.
  destruct (network_is_undirected 3 3 3 0 "spatial" 2 0 [0%Z; 4%Z; 8%Z] (fun _ => 1)
              trio_draw trio_spatial trio_spatial_net) as (Hsym & _ & _ & _ & Hlen & _);
    [vm_compute; reflexivity | vm_compute; reflexivity |].
  split; [apply Hsym | exact Hlen].
Defined.

Lemma count_occ_NoDup (l : list nat) (v : nat) :
  NoDup l → count_occ Nat.eq_dec l v = ind (v ∈ l).
Proof.
  intros Hnd. unfold ind. destruct (decide (v ∈ l)) as [Hin|Hout].
  - apply NoDup_ListNoDup in Hnd. apply list_elem_of_In in Hin.
    exact (proj1 (NoDup_count_occ' Nat.eq_dec l) Hnd v Hin).
  - apply (count_occ_not_In Nat.eq_dec). intros Hin. apply Hout, list_elem_of_In. exact Hin.
Qed.

Lemma count_occ_others (n i v : nat) :
  count_occ Nat.eq_dec (others n i) v = (ind (v < n)%nat * ind (v ≠ i))%nat.
Proof.
  unfold others. rewrite count_occ_NoDup by (apply NoDup_filter, NoDup_seq).
  unfold ind.
  destruct (decide (v ∈ filter (λ j : nat, j ≠ i) (seq 0 n))) as [Hin|Hout].
  - apply list_elem_of_filter in Hin as [Hne Hin]. apply elem_of_seq in Hin.
    rewrite decide_True by lia. rewrite decide_True by assumption. reflexivity.
  - destruct (decide (v < n)%nat) as [Hlt|Hge]; [|reflexivity].
    destruct (decide (v ≠ i)) as [Hne|Heq]; [|reflexivity].
    exfalso. apply Hout, list_elem_of_filter. split; [exact Hne|].
    apply elem_of_seq. lia.
Qed.

Lemma conn_empty (l : list Household) (k : nat) :
  (∀ v, cnt l k v = 0%nat) → conn l k = [].
Proof. unfold cnt. intros H. apply (count_occ_inv_nil Nat.eq_dec). exact H. Qed.

(** Coordinates of constructed households lie on the grid. *)
Lemma placed_in_range (w h : Z) (n : nat) (locations : list Z) (capacity : nat → Q)
    (m : Model) (i : nat) (a : Household) :
  (0 < w)%Z → (0 < h)%Z → is_sample (w * h) n locations →
  placed w h locations capacity m → agent_list m !! i = Some a →
  (0 ≤ x a < w)%Z ∧ (0 ≤ y a < h)%Z ∧ pos a = Some (x a, y a).
Proof.
  intros Hw Hh (_ & _ & Hrange) (_ & _ & Hp) Hi.
  destruct (Hp i a Hi) as (loc & Hloc & Hx & Hy & Hpos & _).
  assert (Hl : (0 ≤ loc < w * h)%Z).
  { apply Hrange. eapply list_elem_of_lookup_2; eauto. }
  split; [|split; [|exact Hpos]].
  - rewrite Hx. split; [apply Z.div_pos; lia|]. apply Z.div_lt_upper_bound; lia.
  - rewrite Hy. apply Z.mod_pos_bound. lia.
Qed.

(** X14. The two ends of the network parameter.  Spatial mode: a radius of
    0 or less connects nobody; a radius of at least the width and the
    height connects every household to every other one, each listed twice.
    Aspatial mode: when no draw is below the density nobody is connected;
    when every draw is below it every household lists every other one
    exactly once. *)
Theorem network_extremes
    (w h : Z) (n : nat) (slr : Q) (mode : string) (param : Q) (t0 : Z)
    (locations : list Z) (capacity : nat → Q) (draw : nat → nat → Q) (m m' : Model) :
  (0 < w)%Z → (0 < h)%Z → is_sample (w * h) n locations →
  AdaptationModel_init w h n slr mode param t0 locations capacity = Some m →
  set_init_connections draw m = Some m' →
  (network_mode m ≠ "aspatial" →
     (network_parameter m <= 0 → ∀ i, conn (agent_list m') i = [])
     ∧ (inject_Z w <= network_parameter m → inject_Z h <= network_parameter m →
        ∀ i, (i < n)%nat → conn (agent_list m') i ≡ₚ others n i ++ others n i))
  ∧ (network_mode m = "aspatial" →
       ((∀ i j, network_parameter m <= draw i j) → ∀ i, conn (agent_list m') i = [])
       ∧ ((∀ i j, draw i j < network_parameter m) →
          ∀ i, (i < n)%nat → conn (agent_list m') i ≡ₚ others n i)).
Proof.
  intros Hw Hh Hs Hinit Hnet.
  pose proof (AdaptationModel_init_built _ _ _ _ _ _ _ _ _ _ Hinit) as Hb.
  pose proof (AdaptationModel_init_placed _ _ _ _ _ _ _ _ _ _ Hw Hinit) as Hp.
  destruct (network_counts _ _ _ _ _ _ _ _ _ _ _ _ Hinit Hnet)
    as (l' & -> & Hstore & Hlen & Hcnt).
  cbn [agent_list set_agent_list].
  assert (Hag : ∀ i, (i < n)%nat → ∃ a, agent_list m !! i = Some a ∧ unique_id a = i).
  { intros i Hi. rewrite <- Hlen in Hi. apply lookup_lt_is_Some in Hi as [a Ha].
    exists a. split; [exact Ha|]. apply (built_agents n n m Hb i a Ha). }
  split.
  - intros Hmode. apply String.eqb_neq in Hmode. split.
    + intros Hr i. apply conn_empty. intros v. rewrite Hcnt, Hmode.
      assert (Hoff : ∀ a b, spatial_test (agent_list m) (network_parameter m) a b = false).
      { intros a b. unfold spatial_test.
        destruct (agent_list m !! a) as [ua|]; [|reflexivity].
        destruct (agent_list m !! b) as [ub|]; [|reflexivity].
        assert (E : (inject_Z (Z.abs (x ua - x ub)) <? network_parameter m) = false).
        { apply Qlt_bool_false. eapply Qle_trans; [exact Hr|].
          apply inject_Z_nonneg. lia. }
        rewrite E. reflexivity. }
      rewrite !Hoff. simpl. lia.
    + intros Hrw Hrh i Hi. apply (Permutation_count_occ Nat.eq_dec). intros v.
      rewrite count_occ_app, count_occ_others. fold (cnt l' i v).
      rewrite Hcnt, Hmode. unfold ind.
      destruct (decide (i < n)%nat) as [_|Hi']; [|lia].
      destruct (decide (v < n)%nat) as [Hv|Hv]; [|simpl; lia].
      destruct (Hag i Hi) as (ai & Hai & Hidi). destruct (Hag v Hv) as (av & Hav & Hidv).
      destruct (placed_in_range _ _ _ _ _ _ _ _ Hw Hh Hs Hp Hai) as (Hxi & Hyi & _).
      destruct (placed_in_range _ _ _ _ _ _ _ _ Hw Hh Hs Hp Hav) as (Hxv & Hyv & _).
      rewrite (spatial_test_sym _ _ v i). unfold spatial_test. rewrite Hai, Hav, Hidi, Hidv.
      assert (E1 : (inject_Z (Z.abs (x ai - x av)) <? network_parameter m) = true).
      { apply Qlt_bool_iff. eapply Qlt_le_trans; [|exact Hrw]. rewrite <- Zlt_Qlt. lia. }
      assert (E2 : (inject_Z (Z.abs (y ai - y av)) <? network_parameter m) = true).
      { apply Qlt_bool_iff. eapply Qlt_le_trans; [|exact Hrh]. rewrite <- Zlt_Qlt. lia. }
      rewrite E1, E2. cbn [andb].
      destruct (decide (v ≠ i)) as [Hne|Heq].
      * assert (E : Nat.eqb i v = false) by (apply Nat.eqb_neq; auto).
        rewrite E. simpl. lia.
      * assert (E : Nat.eqb i v = true) by (apply Nat.eqb_eq; lia).
        rewrite E. simpl. lia.
  - intros Hmode. apply String.eqb_eq in Hmode. split.
    + intros Hd i. apply conn_empty. intros v. rewrite Hcnt, Hmode.
      assert (Hoff : ∀ a b,
                aspatial_test (agent_list m) (network_parameter m) draw a b = false).
      { intros a b. unfold aspatial_test.
        destruct (agent_list m !! a) as [ua|]; [|reflexivity].
        destruct (agent_list m !! b) as [ub|]; [|reflexivity].
        assert (E : (draw a b <? network_parameter m) = false) by (apply Qlt_bool_false, Hd).
        rewrite E. apply andb_false_r. }
      rewrite !Hoff. simpl. lia.
    + intros Hd i Hi. apply (Permutation_count_occ Nat.eq_dec). intros v.
      rewrite count_occ_others. fold (cnt l' i v).
      rewrite Hcnt, Hmode. unfold ind.
      destruct (decide (i < n)%nat) as [_|Hi']; [|lia].
      destruct (decide (v < n)%nat) as [Hv|Hv]; [|simpl; lia].
      destruct (Hag i Hi) as (ai & Hai & Hidi). destruct (Hag v Hv) as (av & Hav & Hidv).
      unfold aspatial_test. rewrite Hai, Hav, Hidi, Hidv.
      assert (E1 : (draw i v <? network_parameter m) = true) by (apply Qlt_bool_iff, Hd).
      assert (E2 : (draw v i <? network_parameter m) = true) by (apply Qlt_bool_iff, Hd).
      rewrite E1, E2, !andb_true_r.
      destruct (decide (v ≠ i)) as [Hne|Heq];
        destruct (Nat.ltb_spec i v), (Nat.ltb_spec v i); simpl; lia.
Qed.

Lemma network_extremes_witness :
  conn (agent_list trio_complete) 1 ≡ₚ [0; 2]%nat
  ∧ conn (agent_list trio_isolated) 1 = [].
Proof.
  split.
  - destruct (network_extremes 3 3 3 0 "aspatial" 0.5 0 [0%Z; 4%Z; 8%Z] (fun _ => 1)
                (fun _ _ => 0) trio_aspatial trio_complete) as (_ & Has);
      [lia | lia | exact trio_sample | vm_compute; reflexivity | vm_compute; reflexivity |].
    destruct Has as (_ & Hall); [vm_compute; reflexivity|].
    apply (Hall ltac:(intros; vm_compute; reflexivity) 1%nat). lia.
  - destruct (network_extremes 3 3 3 0 "aspatial" 0.5 0 [0%Z; 4%Z; 8%Z] (fun _ => 1)
                (fun _ _ => 0.5) trio_aspatial trio_isolated) as (_ & Has);
      [lia | lia | exact trio_sample | vm_compute; reflexivity | vm_compute; reflexivity |].
    destruct Has as (Hnone & _); [vm_compute; reflexivity|].
    apply Hnone. intros. vm_compute. discriminate.
Defined.

(** ** The grid and the roster *)

Lemma create_agent_on_grid (locations : list Z) (capacity : nat → Q) (t t' : Model) (i : nat) :
  on_grid t → create_agent locations capacity t i = Some t' → on_grid t'.
Proof.
  intros (Hon & Hsize). unfold create_agent. intros H.
  destruct (locations !! i) as [loc|]; [|discriminate]. cbn [mbind option_bind] in H.
  destruct (pydivmod loc (height t)) as [xy|]; [|discriminate]. cbn [mbind option_bind] in H.
  destruct (Household_init _ _ _ _ _) as [a|]; [|discriminate]. cbn [mbind option_bind] in H.
  unfold place_agent in H. cbn [grid set_schedule] in H.
  destruct (grid t !! (x a, y a)) eqn:Hfree; [discriminate|]. cbn [mbind option_bind] in H.
  injection H as <-. unfold on_grid.
  cbn [schedule grid agent_list set_agent_list set_grid set_schedule fst snd].
  split.
  - intros k Hk. apply elem_of_app in Hk as [Hk|Hk].
    + destruct (Hon k Hk) as (b & p & Hb & Hp & Hg). exists b, p.
      split; [apply lookup_app_l_Some; exact Hb|]. split; [exact Hp|].
      rewrite lookup_insert_ne; [exact Hg|]. intros <-. congruence.
    + apply list_elem_of_singleton in Hk. subst k.
      exists (set_pos (Some (x a, y a)) a), (x a, y a).
      split; [|split; [reflexivity | apply lookup_insert_eq]].
      rewrite lookup_app_r by lia. rewrite Nat.sub_diag. reflexivity.
  - rewrite map_size_insert_None by exact Hfree. rewrite length_app, Hsize. simpl. lia.
Qed.

Lemma AdaptationModel_init_on_grid (w h : Z) (n : nat) (slr : Q) (mode : string) (param : Q)
    (t0 : Z) (locations : list Z) (capacity : nat → Q) (m : Model) :
  AdaptationModel_init w h n slr mode param t0 locations capacity = Some m → on_grid m.
Proof.
  unfold AdaptationModel_init.
  apply (foldM_inv _ (fun _ t => on_grid t)).
  - split; [|reflexivity]. intros i Hi. cbn in Hi. apply elem_of_nil in Hi. contradiction.
  - intros pre i post t t' _ Hon Hc. eapply create_agent_on_grid; eauto.
Qed.

Lemma reap_agent_on_grid (m m' : Model) (i : nat) :
  NoDup (schedule m) → on_grid m → reap_agent m i = Some m' →
  NoDup (schedule m') ∧ on_grid m'.
Proof.
  intros Hnd (Hon & Hsize) H.
  apply reap_agent_inv in H as [->|(a & p & Ha & Hret & Hin & Hp & ->)].
  - split; [exact Hnd | split; assumption].
  - unfold on_grid, with_roster. cbn [schedule grid agent_list set_num_agents set_grid set_schedule].
    destruct (Hon i Hin) as (a0 & p0 & Ha0 & Hp0 & Hg0).
    assert (a0 = a) by congruence. subst a0.
    assert (p0 = p) by congruence. subst p0.
    split; [apply remove_first_NoDup; exact Hnd|]. split.
    + intros k Hk.
      assert (Hne : k ≠ i).
      { intros ->. exact (remove_first_gone i (schedule m) Hnd Hk). }
      apply remove_first_subset in Hk.
      destruct (Hon k Hk) as (b & q & Hb & Hq & Hg). exists b, q.
      split; [exact Hb|]. split; [exact Hq|].
      rewrite lookup_delete_ne; [exact Hg|]. intros <-. congruence.
    + rewrite map_size_delete, Hg0, Hsize.
      rewrite (remove_first_length i (schedule m) Hin). reflexivity.
Qed.

Lemma reap_on_grid (m m' : Model) :
  NoDup (schedule m) → on_grid m → reap m = Some m' → on_grid m'.
Proof.
  intros Hnd Hon H. cut (NoDup (schedule m') ∧ on_grid m'); [tauto|].
  revert H. unfold reap.
  apply (foldM_inv _ (fun _ t => NoDup (schedule t) ∧ on_grid t)).
  - split; assumption.
  - intros pre i post t t' _ (Hnd' & Hon') Hr. eapply reap_agent_on_grid; eauto.
Qed.

Lemma on_grid_store (m : Model) (l : list Household) :
  store_static (agent_list m) l → on_grid m → on_grid (set_agent_list l m).
Proof.
  intros (_ & Hst) (Hon & Hsize). unfold on_grid.
  cbn [schedule grid agent_list set_agent_list]. split; [|exact Hsize].
  intros i Hi. destruct (Hon i Hi) as (a & p & Ha & Hp & Hg).
  destruct (Hst i a Ha) as (a' & Ha' & Hs). exists a', p.
  split; [exact Ha'|]. split; [|exact Hg]. rewrite (static_pos a a' Hs). exact Hp.
Qed.

Lemma step_on_grid (d : Draws) (m m' : Model) :
  NoDup (schedule m) → on_grid m → step d m = Some m' → on_grid m'.
Proof.
  intros Hnd Hon H. apply step_inv in H as (m2 & m3 & m4 & H2 & H3 & H4 & ->).
  apply community_adaptation_world in H2.
  destruct H2 as [Hs Hl Hg _ _ _ _ _ _ _ _ _ _].
  cbn [schedule agent_list grid calculate_storm_surge calculate_inundation
       set_storm_surge set_sea_level] in Hs, Hl, Hg.
  apply schedule_step_static in H3 as (l & -> & Hst).
  assert (Hon3 : on_grid (set_agent_list l m2)).
  { apply on_grid_store; [exact Hst|]. unfold on_grid. rewrite Hs, Hl, Hg. exact Hon. }
  assert (Hnd3 : NoDup (schedule (set_agent_list l m2))).
  { cbn [schedule set_agent_list]. rewrite Hs. exact Hnd. }
  pose proof (reap_on_grid _ _ Hnd3 Hon3 H4) as Hon4.
  unfold on_grid in *.
  cbn [schedule grid agent_list set_tick collect set_datacollector] in *. exact Hon4.
Qed.

Lemma reachable_on_grid (m : Model) : reachable m → on_grid m.
Proof.
  induction 1 as [w h n slr mode param t0 locations capacity m Hs Hinit
                 | draw m m' Hr IH Hconn | d m m' Hr IH Hstep].
  - eapply AdaptationModel_init_on_grid; eauto.
  - destruct (set_init_connections_spec draw m (proj1 (reachable_Inv m Hr)))
      as (l & Hl & (Hlen & Hnet) & _).
    rewrite Hl in Hconn. injection Hconn as <-.
    destruct IH as (Hon & Hsize). unfold on_grid.
    cbn [schedule grid agent_list set_agent_list]. split; [|exact Hsize].
    intros i Hi. destruct (Hon i Hi) as (a & p & Ha & Hp & Hg).
    destruct (Hnet i a Ha) as (a' & Ha' & Heq & _). exists a', p.
    split; [exact Ha'|]. split; [|exact Hg]. rewrite Heq. exact Hp.
  - eapply step_on_grid; eauto. apply (core_nodup m (proj1 (reachable_Inv m Hr))).
Qed.

(** X15. In every reachable state the grid holds exactly the enrolled
    households, each on the cell its [pos] names: a cell holds household i
    exactly when i is enrolled and its [pos] is that cell; so no household
    is on two cells; a household that has retreated is on no cell (it
    keeps its [pos]); and the number of occupied cells is [num_agents]. *)
Theorem grid_holds_the_roster (m : Model) :
  reachable m →
  (∀ p i, grid m !! p = Some i
          ↔ i ∈ schedule m ∧ ∃ a, agent_list m !! i = Some a ∧ pos a = Some p)
  ∧ (∀ p q i, grid m !! p = Some i → grid m !! q = Some i → p = q)
  ∧ (∀ i a, agent_list m !! i = Some a → retreated a = true →
       is_Some (pos a) ∧ ∀ p, grid m !! p ≠ Some i)
  ∧ Z.of_nat (size (grid m)) = num_agents m.
Proof.
  intros Hr. destruct (reachable_Inv m Hr) as (Hc & Hlive).
  destruct (reachable_on_grid m Hr) as (Hon & Hsize).
  split; [|split; [|split]].
  - intros p i. split; [apply (core_grid m Hc)|].
    intros (Hi & a & Ha & Hp). destruct (Hon i Hi) as (a0 & p0 & Ha0 & Hp0 & Hg).
    congruence.
  - intros p q i Hp Hq.
    destruct (core_grid m Hc p i Hp) as (_ & a & Ha & Hpa).
    destruct (core_grid m Hc q i Hq) as (_ & b & Hb & Hpb). congruence.
  - intros i a Ha Hret. destruct (core_agents m Hc i a Ha) as (_ & Hg & _).
    split; [exact (good_pos a Hg)|]. intros p Hp.
    destruct (core_grid m Hc p i Hp) as (Hi & _).
    rewrite (Hlive i a Ha Hi) in Hret. discriminate.
  - rewrite Hsize. symmetry. apply (core_count m Hc).
Qed.

Lemma grid_holds_the_roster_witness :
  grid trio_after_storms !! (0%Z, 0%Z) = Some 0%nat
  ∧ grid trio_after_storms !! (1%Z, 1%Z) ≠ Some 1%nat
  ∧ num_agents trio_after_storms = 1%Z.
Proof.
  assert (Hr : reachable trio_after_storms).
  { apply (reachable_run (fun _ => stormy_year) 2 trio_spatial);
      [|vm_compute; reflexivity].
    apply (reachable_init 3 3 3 0 "spatial" 2 0 [0%Z; 4%Z; 8%Z] (fun _ => 1));
      [exact trio_sample | vm_compute; reflexivity]. }
  destruct (grid_holds_the_roster trio_after_storms Hr) as (Hcell & _ & Hgone & Hsize).
  split; [|split].
  - apply Hcell. split; [vm_compute; apply list_elem_of_here|].
    eexists. split; vm_compute; reflexivity.
  - refine (proj2 (Hgone 1%nat _ _ _) _); vm_compute; reflexivity.
  - rewrite <- Hsize. vm_compute. reflexivity.
Defined.

(** ** Simultaneous activation *)

Lemma connection_counts_ext (s s' : list Household) (l : list nat) :
  (∀ j, retreated <$> s !! j = retreated <$> s' !! j) →
  connection_counts s l = connection_counts s' l.
Proof.
  intros H. unfold connection_counts. generalize (0%Z, 0%Z).
  induction l as [|j l IH]; intros c; simpl; [reflexivity|].
  specialize (H j).
  destruct (s !! j) as [b|], (s' !! j) as [b'|]; simpl in H; try discriminate;
    [|reflexivity].
  injection H as Hr. simpl. rewrite Hr. apply IH.
Qed.

Lemma Household_step_ext (m : Model) (l : list Household) (noise : Q) (a : Household) :
  (∀ j, retreated <$> l !! j = retreated <$> agent_list m !! j) →
  Household_step (set_agent_list l m) noise a = Household_step m noise a.
Proof.
  intros H. unfold Household_step, calculate_attachment.
  cbn [agent_list set_agent_list].
  rewrite (connection_counts_ext l (agent_list m) _ H). reflexivity.
Qed.

Lemma in_roster_ext (m : Model) (l : list Household) (uid : nat) :
  (∀ j, unique_id <$> l !! j = unique_id <$> agent_list m !! j) →
  in_roster (set_agent_list l m) uid = in_roster m uid.
Proof.
  intros H. unfold in_roster. cbn [agent_list schedule set_agent_list].
  generalize false. induction (schedule m) as [|j s IH]; intros c; simpl; [reflexivity|].
  specialize (H j).
  destruct (l !! j) as [b|], (agent_list m !! j) as [b'|]; simpl in H; try discriminate;
    [|reflexivity].
  injection H as Hu. simpl. rewrite Hu. apply IH.
Qed.

Lemma make_decision_ext (m : Model) (l : list Household) (u : Q) (a : Household) :
  (∀ j, unique_id <$> l !! j = unique_id <$> agent_list m !! j) →
  make_decision (set_agent_list l m) u a = make_decision m u a.
Proof.
  intros H. unfold make_decision.
  change (decision_weights (set_agent_list l m) a) with (decision_weights m a).
  destruct (decision_weights m a) as [a1|]; [|reflexivity]. cbn [mbind option_bind].
  unfold decision_commit. destruct (negb _); [|reflexivity].
  destruct (normalise_weights a1) as [a2|]; [|reflexivity]. cbn [mbind option_bind].
  unfold take_action. rewrite (in_roster_ext m l _ H). reflexivity.
Qed.

Lemma Household_step_retreated (m : Model) (noise : Q) (a a' : Household) :
  Household_step m noise a = Some a' → retreated a' = retreated a.
Proof.
  unfold Household_step, calculate_attachment. intros H.
  destruct (connection_counts _ _) as [c|]; [|discriminate]. cbn [mbind option_bind] in H.
  destruct (0 <? c.1 + c.2)%Z.
  - destruct (pydiv _ _) as [v|]; [|discriminate]. cbn [mbind option_bind] in H.
    injection H as <-. unfold apply_damage. destruct (0 <? storm_surge m); reflexivity.
  - cbn [mbind option_bind] in H.
    injection H as <-. unfold apply_damage. destruct (0 <? storm_surge m); reflexivity.
Qed.

Lemma fmap_lookup_insert {B : Type} (f : Household → B) (l : list Household) (i j : nat)
    (a a' : Household) :
  l !! i = Some a → f a' = f a → f <$> <[i := a']> l !! j = f <$> l !! j.
Proof.
  intros Ha Hf. destruct (decide (j = i)) as [->|Hne].
  - rewrite list_lookup_insert_eq by (eapply lookup_lt_Some; eauto).
    rewrite Ha. simpl. f_equal. exact Hf.
  - rewrite list_lookup_insert_ne by auto. reflexivity.
Qed.

(** The observe phase: every enrolled household has run its [step] against
    the store as it was when the phase began. *)
Lemma observe_phase (d : Draws) (m m1 : Model) :
  NoDup (schedule m) → foldM (agent_step d) (schedule m) m = Some m1 →
  ∃ l, m1 = set_agent_list l m ∧ length l = length (agent_list m)
    ∧ (∀ j, unique_id <$> l !! j = unique_id <$> agent_list m !! j)
    ∧ ∀ i a, agent_list m !! i = Some a →
        l !! i = if decide (i ∈ schedule m) then Household_step m (capacity_noise d i) a
                 else Some a.
Proof.
  intros Hnd H.
  cut (∃ l, m1 = set_agent_list l m ∧ length l = length (agent_list m)
        ∧ (∀ j, retreated <$> l !! j = retreated <$> agent_list m !! j)
        ∧ (∀ j, unique_id <$> l !! j = unique_id <$> agent_list m !! j)
        ∧ ∀ i a, agent_list m !! i = Some a →
            l !! i = if decide (i ∈ schedule m)
                     then Household_step m (capacity_noise d i) a else Some a).
  { intros (l & H1 & H2 & _ & H3 & H4). eauto. }
  pose (P := fun (pre : list nat) (t : Model) =>
    ∃ l, t = set_agent_list l m ∧ length l = length (agent_list m)
      ∧ (∀ j, retreated <$> l !! j = retreated <$> agent_list m !! j)
      ∧ (∀ j, unique_id <$> l !! j = unique_id <$> agent_list m !! j)
      ∧ ∀ i a, agent_list m !! i = Some a →
          l !! i = if decide (i ∈ pre) then Household_step m (capacity_noise d i) a
                   else Some a).
  revert H. apply (foldM_inv (agent_step d) P); unfold P; clear P.
  - exists (agent_list m). split; [destruct m; reflexivity|]. split; [reflexivity|].
    split; [reflexivity|]. split; [reflexivity|].
    intros i a Ha. rewrite decide_False by apply not_elem_of_nil. exact Ha.
  - intros pre i post t t' Heq (l & -> & Hlen & Hret & Hid & Hl) Hs.
    assert (Hfresh : i ∉ pre).
    { rewrite Heq in Hnd. apply NoDup_app in Hnd as (_ & Hnd & _).
      intros Hin. apply (Hnd i Hin). left. }
    apply agent_step_inv in Hs as (a & a' & Ha & Hh & ->).
    cbn [agent_list set_agent_list] in Ha |- *.
    rewrite (Household_step_ext m l _ _ Hret) in Hh.
    assert (Ha0 : agent_list m !! i = Some a).
    { assert (Hlt : (i < length (agent_list m))%nat)
        by (rewrite <- Hlen; eapply lookup_lt_Some; eauto).
      apply lookup_lt_is_Some in Hlt as [a0 Ha0].
      pose proof (Hl i a0 Ha0) as E. rewrite decide_False in E by exact Hfresh. congruence. }
    exists (<[i := a']> l). split; [reflexivity|].
    split; [rewrite length_insert; exact Hlen|].
    split; [|split].
    + intros j. rewrite <- Hret. apply (fmap_lookup_insert retreated l i j a a' Ha).
      eapply Household_step_retreated; eauto.
    + intros j. rewrite <- Hid. apply (fmap_lookup_insert unique_id l i j a a' Ha).
      apply (static_unique_id a a'). eapply Household_step_static; eauto.
    + intros k b Hb. destruct (decide (k = i)) as [->|Hne].
      * rewrite list_lookup_insert_eq by (eapply lookup_lt_Some; eauto).
        rewrite decide_True by (apply elem_of_app; right; left).
        assert (b = a) by congruence. subst b. symmetry. exact Hh.
      * rewrite list_lookup_insert_ne by auto. rewrite (Hl k b Hb).
        destruct (decide (k ∈ pre)) as [Hin|Hout].
        -- rewrite decide_True by (apply elem_of_app; left; exact Hin). reflexivity.
        -- rewrite decide_False; [reflexivity|].
           intros Hin. apply elem_of_app in Hin as [Hin|Hin]; [auto|].
           apply list_elem_of_singleton in Hin. auto.
Qed.

(** The commit phase: every enrolled household has run its [advance]
    against the model as it was when the phase began. *)
Lemma commit_phase (d : Draws) (m m' : Model) :
  NoDup (schedule m) → foldM (agent_advance d) (schedule m) m = Some m' →
  ∃ l, m' = set_agent_list l m ∧ length l = length (agent_list m)
    ∧ ∀ i a, agent_list m !! i = Some a →
        l !! i = if decide (i ∈ schedule m) then make_decision m (decide_x d i) a
                 else Some a.
Proof.
  intros Hnd H.
  cut (∃ l, m' = set_agent_list l m ∧ length l = length (agent_list m)
        ∧ (∀ j, unique_id <$> l !! j = unique_id <$> agent_list m !! j)
        ∧ ∀ i a, agent_list m !! i = Some a →
            l !! i = if decide (i ∈ schedule m)
                     then make_decision m (decide_x d i) a else Some a).
  { intros (l & H1 & H2 & _ & H4). eauto. }
  pose (P := fun (pre : list nat) (t : Model) =>
    ∃ l, t = set_agent_list l m ∧ length l = length (agent_list m)
      ∧ (∀ j, unique_id <$> l !! j = unique_id <$> agent_list m !! j)
      ∧ ∀ i a, agent_list m !! i = Some a →
          l !! i = if decide (i ∈ pre) then make_decision m (decide_x d i) a
                   else Some a).
  revert H. apply (foldM_inv (agent_advance d) P); unfold P; clear P.
  - exists (agent_list m). split; [destruct m; reflexivity|]. split; [reflexivity|].
    split; [reflexivity|].
    intros i a Ha. rewrite decide_False by apply not_elem_of_nil. exact Ha.
  - intros pre i post t t' Heq (l & -> & Hlen & Hid & Hl) Hs.
    assert (Hfresh : i ∉ pre).
    { rewrite Heq in Hnd. apply NoDup_app in Hnd as (_ & Hnd & _).
      intros Hin. apply (Hnd i Hin). left. }
    apply agent_advance_inv in Hs as (a & a' & Ha & Hh & ->).
    cbn [agent_list set_agent_list] in Ha |- *.
    rewrite (make_decision_ext m l _ _ Hid) in Hh.
    assert (Ha0 : agent_list m !! i = Some a).
    { assert (Hlt : (i < length (agent_list m))%nat)
        by (rewrite <- Hlen; eapply lookup_lt_Some; eauto).
      apply lookup_lt_is_Some in Hlt as [a0 Ha0].
      pose proof (Hl i a0 Ha0) as E. rewrite decide_False in E by exact Hfresh. congruence. }
    exists (<[i := a']> l). split; [reflexivity|].
    split; [rewrite length_insert; exact Hlen|]. split.
    + intros j. rewrite <- Hid. apply (fmap_lookup_insert unique_id l i j a a' Ha).
      apply (static_unique_id a a'). eapply make_decision_static; eauto.
    + intros k b Hb. destruct (decide (k = i)) as [->|Hne].
      * rewrite list_lookup_insert_eq by (eapply lookup_lt_Some; eauto).
        rewrite decide_True by (apply elem_of_app; right; left).
        assert (b = a) by congruence. subst b. symmetry. exact Hh.
      * rewrite list_lookup_insert_ne by auto. rewrite (Hl k b Hb).
        destruct (decide (k ∈ pre)) as [Hin|Hout].
        -- rewrite decide_True by (apply elem_of_app; left; exact Hin). reflexivity.
        -- rewrite decide_False; [reflexivity|].
           intros Hin. apply elem_of_app in Hin as [Hin|Hin]; [auto|].
           apply list_elem_of_singleton in Hin. auto.
Qed.

(** X16. Activation is simultaneous.  When [schedule.step()] returns on a
    roster without duplicates, it has changed nothing but the object store,
    and the new state of every enrolled household is its own [step]
    followed by its own [advance], both computed from the model as it was
    before the call: no household sees what another one observed or
    decided in the same year (a neighbour's retreat enters attachment only
    the year after).  Households that are not enrolled are left alone. *)
Theorem households_move_simultaneously (d : Draws) (m m' : Model) :
  NoDup (schedule m) → schedule_step d m = Some m' →
  m' = set_agent_list (agent_list m') m
  ∧ length (agent_list m') = length (agent_list m)
  ∧ ∀ i a, agent_list m !! i = Some a →
      (i ∈ schedule m → agent_list m' !! i = yearly_update d m i a)
      ∧ (i ∉ schedule m → agent_list m' !! i = Some a).
Proof.
  intros Hnd H. unfold schedule_step in H.
  destruct (foldM (agent_step d) (schedule m) m) as [m1|] eqn:E1; [|discriminate].
  cbn [mbind option_bind] in H.
  destruct (observe_phase d m m1 Hnd E1) as (l1 & -> & Hlen1 & Hid1 & Hl1).
  assert (Hnd1 : NoDup (schedule (set_agent_list l1 m))) by exact Hnd.
  destruct (commit_phase d _ m' Hnd1 H) as (l2 & -> & Hlen2 & Hl2).
  cbn [agent_list schedule set_agent_list] in *.
  split; [reflexivity|]. split; [congruence|].
  intros i a Ha. pose proof (Hl1 i a Ha) as E. unfold yearly_update. split.
  - intros Hin. rewrite decide_True in E by exact Hin.
    assert (Hlt : (i < length l1)%nat)
      by (rewrite Hlen1; eapply lookup_lt_Some; eauto).
    apply lookup_lt_is_Some in Hlt as [a1 Ha1].
    rewrite (Hl2 i a1 Ha1), <- E, Ha1. cbn [mbind option_bind].
    rewrite decide_True by exact Hin. apply (make_decision_ext m l1 _ _ Hid1).
  - intros Hout. rewrite decide_False in E by exact Hout.
    rewrite (Hl2 i a E). apply decide_False. exact Hout.
Qed.

Lemma households_move_simultaneously_witness :
  ∃ a, agent_list trio_spatial_net !! 1%nat = Some a
       ∧ agent_list trio_net_scheduled !! 1%nat = yearly_update stormy_year trio_spatial_net 1 a.
Proof.
  destruct (households_move_simultaneously stormy_year trio_spatial_net trio_net_scheduled)
    as (_ & _ & Hall); [exact (NoDup_seq 0 3) | vm_compute; reflexivity |].
  eexists. split; [vm_compute; reflexivity|].
  refine (proj1 (Hall 1%nat _ _) _); [vm_compute; reflexivity|].
  apply list_elem_of_further, list_elem_of_here.
Defined.



















(** ** Households that no longer act *)

Ltac weights_cases Hw :=
  unfold decision_weights in Hw;
  repeat match type of Hw with
         | context [if ?c then _ else _] => destruct c eqn:?
         end;
  repeat match type of Hw with
         | context [pydiv ?p ?q] =>
             let v := fresh "v" in let E := fresh "E" in
             destruct (pydiv p q) as [v|] eqn:E; [apply pydiv_inv in E as [_ E]|discriminate]
         end;
  cbn [mbind option_bind] in Hw; injection Hw as <-;
  cbn [p_resist p_accommodate p_retreat adaptive_capacity attachment resistance accommodation
       set_p_action set_p_resist set_p_accommodate set_p_retreat] in *.

Lemma decision_weights_switched_off (m : Model) (a w : Household) :
  decision_weights m a = Some w → switched_off a → switched_off w.
Proof.
  intros Hw (H1 & H2 & H3). unfold switched_off.
  weights_cases Hw; subst; repeat split; rewrite ?H1, ?H2, ?H3;
    try reflexivity; unfold Qdiv; ring.
Qed.

Ltac weights_facts :=
  repeat match goal with
         | H : (_ || _) = false |- _ => apply orb_false_iff in H as [? ?]
         | H : (_ && _) = true |- _ => apply andb_true_iff in H as [? ?]
         | H : (_ <? _) = true |- _ => apply Qlt_bool_iff in H
         | H : (_ <=? _) = false |- _ => apply Qle_bool_false in H
         end.

Lemma decision_weights_low_capacity (m : Model) (a w : Household) :
  decision_weights m a = Some w →
  adaptive_capacity a <= 0 →
  adaptive_capacity a <= -0.1 * (inject_Z (accommodation_incentive m) - 1) →
  adaptive_capacity a <= -0.1 * (inject_Z (retreat_incentive m) - 1) →
  p_resist w = 0 ∧ p_accommodate w = 0 ∧ p_retreat w = 0.
Proof.
  intros Hw H1 H2 H3.
  weights_cases Hw; weights_facts; try (exfalso; lra); repeat split.
Qed.

Lemma make_decision_switched_off (m : Model) (u : Q) (a a' : Household) :
  make_decision m u a = Some a' → switched_off a → no_action a a' ∧ switched_off a'.
Proof.
  unfold make_decision. intros H Hoff.
  destruct (decision_weights m a) as [w|] eqn:Hw; [|discriminate].
  cbn [mbind option_bind] in H.
  destruct (decision_weights_switched_off m a w Hw Hoff) as (W1 & W2 & W3).
  apply decision_weights_static in Hw as (_ & Hr & Ha & Ht).
  unfold decision_commit in H.
  assert (E : (p_resist w + p_accommodate w + p_retreat w =? 0) = true).
  { apply Qeq_bool_iff. rewrite W1, W2, W3. reflexivity. }
  rewrite E in H. cbn [negb] in H. injection H as <-.
  split; split; auto.
Qed.

Lemma Household_step_keeps_decision (m : Model) (noise : Q) (a a' : Household) :
  Household_step m noise a = Some a' →
  no_action a a'
  ∧ p_resist a' = p_resist a ∧ p_accommodate a' = p_accommodate a
  ∧ p_retreat a' = p_retreat a.
Proof.
  unfold Household_step, calculate_attachment, no_action. intros H.
  destruct (connection_counts _ _) as [c|]; [|discriminate]. cbn [mbind option_bind] in H.
  destruct (0 <? c.1 + c.2)%Z.
  - destruct (pydiv _ _) as [v|]; [|discriminate]. cbn [mbind option_bind] in H.
    injection H as <-. unfold apply_damage. destruct (0 <? storm_surge m); repeat split.
  - cbn [mbind option_bind] in H.
    injection H as <-. unfold apply_damage. destruct (0 <? storm_surge m); repeat split.
Qed.

(** X18. A household whose adaptive capacity is at or below all three
    thresholds of [make_decision] (0 for resistance, -0.1*(incentive - 1)
    for accommodation and for retreat; with both incentives at 1: capacity
    not above 0) takes no action, whatever the flood and the draw: the call
    returns, leaves resistance, accommodation and retreated as they were,
    and stores 0 in all three weights. *)
Theorem low_capacity_switches_off (m : Model) (u : Q) (a : Household) :
  adaptive_capacity a <= 0 →
  adaptive_capacity a <= -0.1 * (inject_Z (accommodation_incentive m) - 1) →
  adaptive_capacity a <= -0.1 * (inject_Z (retreat_incentive m) - 1) →
  ∃ a', make_decision m u a = Some a' ∧ no_action a a'
    ∧ p_resist a' = 0 ∧ p_accommodate a' = 0 ∧ p_retreat a' = 0.
Proof.
  intros H1 H2 H3. unfold make_decision.
  destruct (decision_weights_spec m a) as (w & Hw & _).
  rewrite Hw. cbn [mbind option_bind].
  destruct (decision_weights_low_capacity m a w Hw H1 H2 H3) as (W1 & W2 & W3).
  apply decision_weights_static in Hw as (_ & Hr & Ha & Ht).
  unfold decision_commit. rewrite W1, W2, W3. cbn [Qeq_bool Qplus negb].
  exists w. split; [reflexivity|]. split; [split; auto|auto].
Qed.

Lemma low_capacity_switches_off_witness :
  ∃ a, agent_list single_model_low !! 0%nat = Some a
       ∧ ∃ a', make_decision single_model_low 0.01 a = Some a'
               ∧ resistance a' = resistance a ∧ p_resist a' = 0.
Proof.
  eexists. split; [vm_compute; reflexivity|].
  match goal with
  | |- ∃ a', make_decision ?m ?u ?a = _ ∧ _ =>
      destruct (low_capacity_switches_off m u a) as (a' & E & (Hr & _) & Hp & _);
        [intros H; vm_compute in H; discriminate ..|]
  end.
  exists a'. split; [exact E|]. split; [exact Hr | exact Hp].
Defined.

Lemma still_off_insert (i j : nat) (a b b' : Household) (l : list Household) :
  still_off i a l → l !! j = Some b →
  (switched_off b → no_action b b' ∧ switched_off b') →
  still_off i a (<[j := b']> l).
Proof.
  intros (a' & Ha' & (N1 & N2 & N3) & Hoff) Hb Hkeep.
  destruct (decide (i = j)) as [<-|Hne].
  - assert (b = a') by congruence. subst b.
    destruct (Hkeep Hoff) as ((M1 & M2 & M3) & Hoff').
    exists b'. split; [apply list_lookup_insert_eq; eapply lookup_lt_Some; eauto|].
    split; [|exact Hoff']. repeat split; congruence.
  - exists a'. split; [rewrite list_lookup_insert_ne by auto; exact Ha'|].
    split; [repeat split; assumption | exact Hoff].
Qed.

Lemma schedule_step_still_off (d : Draws) (m m' : Model) (i : nat) (a : Household) :
  schedule_step d m = Some m' → still_off i a (agent_list m) → still_off i a (agent_list m').
Proof.
  unfold schedule_step. intros H Hoff.
  destruct (foldM (agent_step d) (schedule m) m) as [m1|] eqn:E1; [|discriminate].
  cbn [mbind option_bind] in H.
  assert (H1 : schedule m1 = schedule m ∧ still_off i a (agent_list m1)).
  { revert E1. apply (foldM_inv _ (fun _ t => schedule t = schedule m
                                              ∧ still_off i a (agent_list t))).
    - split; [reflexivity | exact Hoff].
    - intros pre j post t t' _ (Hs & Ht) Hstep.
      apply agent_step_inv in Hstep as (b & b' & Hb & Hh & ->).
      cbn [schedule agent_list set_agent_list]. split; [exact Hs|].
      apply (still_off_insert i j a b b' _ Ht Hb). intros (B1 & B2 & B3).
      destruct (Household_step_keeps_decision _ _ _ _ Hh) as (Hn & P1 & P2 & P3).
      split; [exact Hn|]. unfold switched_off. rewrite P1, P2, P3. auto. }
  destruct H1 as (Hs1 & Hoff1). rewrite Hs1 in H. revert H.
  apply (foldM_inv _ (fun _ t => still_off i a (agent_list t))).
  - exact Hoff1.
  - intros pre j post t t' _ Ht Hstep.
    apply agent_advance_inv in Hstep as (b & b' & Hb & Hh & ->).
    cbn [agent_list set_agent_list].
    apply (still_off_insert i j a b b' _ Ht Hb). intros Hboff.
    exact (make_decision_switched_off _ _ _ _ Hh Hboff).
Qed.

Lemma step_still_off (d : Draws) (m m' : Model) (i : nat) (a : Household) :
  step d m = Some m' → still_off i a (agent_list m) → still_off i a (agent_list m').
Proof.
  intros H Hoff. apply step_inv in H as (m2 & m3 & m4 & H2 & H3 & H4 & ->).
  apply community_adaptation_world in H2. destruct H2 as [_ Hl _ _ _ _ _ _ _ _ _ _ _].
  cbn [agent_list calculate_storm_surge calculate_inundation set_storm_surge set_sea_level]
    in Hl.
  rewrite <- Hl in Hoff.
  pose proof (schedule_step_still_off d m2 m3 i a H3 Hoff) as Hoff3.
  apply reap_agents_kept in H4 as (s & g & n & ->).
  exact Hoff3.
Qed.

(** X19. Zero weights are absorbing.  A household whose three weights are
    all 0 never acts again: after a run of any number of years, whatever
    the floods, the incentives, its capacity or the draws, its resistance,
    accommodation and retreated are as they were and its weights are still
    all 0. *)
Theorem switched_off_households_stay_off
    (ds : nat → Draws) (k : nat) (m m' : Model) (i : nat) (a : Household) :
  run ds k m = Some m' → agent_list m !! i = Some a →
  p_resist a == 0 → p_accommodate a == 0 → p_retreat a == 0 →
  ∃ a', agent_list m' !! i = Some a'
    ∧ resistance a' = resistance a ∧ accommodation a' = accommodation a
    ∧ retreated a' = retreated a
    ∧ p_resist a' == 0 ∧ p_accommodate a' == 0 ∧ p_retreat a' == 0.
Proof.
  intros Hrun Ha H1 H2 H3.
  cut (still_off i a (agent_list m')).
  { intros (a' & Ha' & (N1 & N2 & N3) & (W1 & W2 & W3)). exists a'. auto 10. }
  revert m' Hrun. induction k as [|k IH]; intros m' Hrun.
  - injection Hrun as <-. exists a. split; [exact Ha|].
    split; [repeat split | repeat split; assumption].
  - apply run_S_inv in Hrun as (m1 & Hrun & Hstep).
    eapply step_still_off; eauto.
Qed.

Lemma switched_off_households_stay_off_witness :
  ∃ a a', agent_list low_year1 !! 0%nat = Some a
          ∧ agent_list low_year2 !! 0%nat = Some a'
          ∧ 0 < adaptive_capacity a'
          ∧ resistance a' = resistance a ∧ p_resist a' == 0.
Proof.
  eexists. 
  match goal with
  | |- ∃ a', ?l !! ?i = Some ?a ∧ _ =>
      assert (Ha : l !! i = Some a) by (vm_compute; reflexivity);
      destruct (switched_off_households_stay_off (fun _ => quiet_year_up) 1
                  low_year1 low_year2 0 a)
        as (a' & Ha' & Hr & _ & _ & Hp & _);
        [vm_compute; reflexivity | exact Ha | vm_compute; reflexivity ..|]
  end.
  exists a'. split; [exact Ha|]. split; [exact Ha'|].
  split; [|split; [exact Hr | exact Hp]].
  vm_compute in Ha'. injection Ha' as <-. vm_compute. reflexivity.
Defined.
